(** * Muziq-Slides: slideshow timing and playback engine

    A shallow embedding of the engine of [src/App.tsx]: the slide speed
    auto-adjustment effect of the editor ([calculateAndAdjust] and the
    [isAutoAdjusting] ref), the [SlideshowPlayer] effects (slide timer,
    audio fade-out), [generateCaptions] with the effect that invokes it,
    [handleMediaUpload] and the handlers that edit the media list; and of
    the handlers of the saved slideshows of [src/unnamed/part_000].

    Conventions of the embedding.
    - The protocol of the controller (the [isAutoAdjusting] flag, the
      runs in flight, what is written when) is stated over integer counts
      and intervals ([Z]) and exact durations ([Q]).  What the computation
      yields on the numbers of the engine is stated on its binary64
      transcription ([Float64]), where every operation is the rounded
      one.  The player is written over a small number interface; its fade
      is verified at binary64 floating point.
    - Functions of the engine and of the browser that the source calls
      ([String.prototype.trim], [Number::toString], [URL.createObjectURL],
      [Date.now], the file readers, the caption service) are parameters.
    - React state is a record; a state setter is a [Write] applied to it.
      Setters called in one asynchronous continuation are applied as one
      batch, followed by one re-render.
    - Objects held in the [media] array are addresses into a store, so that
      a shallow copy of the array shares its elements with the original. *)

From Stdlib Require Import ZArith QArith Qround Qminmax Lia Lqa Ascii String DecimalString.
From Stdlib Require Import Floats Uint63 Sorted.
From stdpp Require Import gmap strings list.

Local Open Scope Z_scope.

(** ** Data model (the TYPE DEFINITIONS of the source) *)

(** The [type] discriminant of [ImageFile] and [VideoFile]. *)
Inductive MediaType := image | video.

(** A browser [File]: its name, its MIME type, and the duration its
    metadata reports when it is loaded in an audio or video element. *)
Record File := {
  file_name : string;
  file_type : string;
  file_duration : Q
}.

(** [MediaFile = ImageFile | VideoFile]; fields [id], [type], [file],
    [previewUrl] and the optional [caption]. *)
Record MediaFile := {
  mf_id : string;
  mf_type : MediaType;
  mf_file : File;
  mf_previewUrl : string;
  mf_caption : option string
}.

Definition is_image (m : MediaFile) : bool :=
  match mf_type m with image => true | video => false end.

Definition is_video (m : MediaFile) : bool :=
  match mf_type m with image => false | video => true end.

(** JavaScript truthiness of a [string | null | undefined] value. *)
Definition truthy (o : option string) : bool :=
  match o with
  | Some s => negb (String.eqb s EmptyString)
  | None => false
  end.

(** The text a template literal produces for an integer. *)
Definition string_of_Z (n : Z) : string := NilZero.string_of_int (Z.to_int n).

(** Comparison of two numbers with [<]. *)
Definition Qltb (a b : Q) : bool :=
  match Qcompare a b with Lt => true | _ => false end.

(** ** The auto-adjustment controller *)

Module AutoAdjust.

(** The editor state the effect reads and writes: the [media], [audioFile],
    [interval] and [adjustmentNotification] state variables and the
    [isAutoAdjusting] ref. *)
Record App := {
  media : list MediaFile;
  audioFile : option File;
  interval : Z;
  adjustmentNotification : option string;
  isAutoAdjusting : bool
}.

(** [imageCount] and [videoCount], computed by one [reduce] over [media]. *)
Definition counts (l : list MediaFile) : Z * Z :=
  fold_left
    (fun acc item =>
       (if is_image item then fst acc + 1 else fst acc,
        if is_video item then snd acc + 1 else snd acc))
    l (0, 0).

Definition imageCount (l : list MediaFile) : Z := fst (counts l).

(** What the effect does to the state: [isAutoAdjusting.current = b],
    [setIntervalValue(n)], [setAdjustmentNotification(m)]. *)
Inductive Write :=
| SetIsAutoAdjusting (b : bool)
| SetIntervalValue (n : Z)
| SetAdjustmentNotification (m : option string).

Definition apply_write (w : Write) (s : App) : App :=
  match w with
  | SetIsAutoAdjusting b =>
      {| media := media s; audioFile := audioFile s; interval := interval s;
         adjustmentNotification := adjustmentNotification s;
         isAutoAdjusting := b |}
  | SetIntervalValue n =>
      {| media := media s; audioFile := audioFile s; interval := n;
         adjustmentNotification := adjustmentNotification s;
         isAutoAdjusting := isAutoAdjusting s |}
  | SetAdjustmentNotification m =>
      {| media := media s; audioFile := audioFile s; interval := interval s;
         adjustmentNotification := m;
         isAutoAdjusting := isAutoAdjusting s |}
  end.

Definition apply_writes (ws : list Write) (s : App) : App :=
  fold_left (fun acc w => apply_write w acc) ws s.

Definition adjustedMessage (newInterval : Z) : string :=
  ("Slide speed automatically adjusted to " ++ string_of_Z newInterval
     ++ "s to match song length.")%string.

Definition shorterMessage : string :=
  "Song is shorter than video content. Slide speed set to minimum (1s).".

(** [videoDurations.reduce((sum, duration) => sum + duration, 0)]. *)
Definition totalDuration (durations : list Q) : Q :=
  fold_left Qplus durations 0%Q.

(** The body of [calculateAndAdjust] after its probes have resolved with
    [audioDuration] and [videoDurations]; [imageCount], [interval] and
    [adjustmentNotification] are the values the closure captured.  The
    effect only starts it when [imageCount] is not 0.  This is the reading
    in exact arithmetic, over which the protocol of the effect is stated;
    [Float64.calculateAndAdjust] below is the same body on the numbers of
    the engine. *)
Definition calculateAndAdjust (audioDuration : Q) (videoDurations : list Q)
    (imageCount interval : Z) (adjustmentNotification : option string)
  : list Write :=
  let totalVideoDuration := totalDuration videoDurations in
  let currentTotalSlideshowDuration :=
    (inject_Z (imageCount * interval) + totalVideoDuration)%Q in
  if Qltb audioDuration currentTotalSlideshowDuration then
    let availableTimeForImages := (audioDuration - totalVideoDuration)%Q in
    if Qltb 0 availableTimeForImages then
      let newInterval :=
        Z.max 1 (Qfloor (availableTimeForImages / inject_Z imageCount)) in
      if negb (newInterval =? interval) then
        [SetIsAutoAdjusting true;
         SetIntervalValue newInterval;
         SetAdjustmentNotification (Some (adjustedMessage newInterval))]
      else []
    else
      if negb (interval =? 1) then
        [SetIsAutoAdjusting true;
         SetIntervalValue 1;
         SetAdjustmentNotification (Some shorterMessage)]
      else []
  else
    if truthy adjustmentNotification
    then [SetAdjustmentNotification None]
    else [].

(** What an invocation of the effect captures for its asynchronous part. *)
Record Closure := {
  c_audioFile : File;
  c_media : list MediaFile;
  c_interval : Z;
  c_imageCount : Z;
  c_adjustmentNotification : option string
}.

(** The closure of an invocation in state [s] with audio file [a]. *)
Definition closureOf (s : App) (a : File) : Closure :=
  {| c_audioFile := a; c_media := media s; c_interval := interval s;
     c_imageCount := imageCount (media s);
     c_adjustmentNotification := adjustmentNotification s |}.

(** The synchronous part of the effect: the writes it performs at once and
    the computation it starts, if any. *)
Definition autoAdjustEffect (s : App) : list Write * option Closure :=
  if isAutoAdjusting s then ([SetIsAutoAdjusting false], None)
  else
    let clear :=
      if truthy (adjustmentNotification s)
      then [SetAdjustmentNotification None] else [] in
    match audioFile s with
    | None => (clear, None)
    | Some a =>
        if imageCount (media s) =? 0 then (clear, None)
        else ([], Some (closureOf s a))
    end.

(** The asynchronous part: the audio file and every video of the captured
    list are probed, then [calculateAndAdjust] runs on what was captured. *)
Definition resolve (c : Closure) : list Write :=
  calculateAndAdjust
    (file_duration (c_audioFile c))
    (List.map (fun v => file_duration (mf_file v))
       (List.filter is_video (c_media c)))
    (c_imageCount c) (c_interval c) (c_adjustmentNotification c).

(** The interval after a batch of writes, starting from [cur]. *)
Definition intervalAfter (ws : list Write) (cur : Z) : Z :=
  fold_left
    (fun acc w => match w with SetIntervalValue n => n | _ => acc end) ws cur.

(** The notice after a batch of writes, starting from [cur]. *)
Definition noticeAfter (ws : list Write) (cur : option string)
  : option string :=
  fold_left
    (fun acc w => match w with SetAdjustmentNotification m => m | _ => acc end)
    ws cur.

(** *** The reactive loop

    The effect depends on [audioFile], [media], [interval], [imageCount]
    and [adjustmentNotification]: it runs again after every render in which
    one of them changed.  Of these the effect itself writes [interval] and
    [adjustmentNotification]; writing the ref causes no render. *)

Definition stateChanged (s s' : App) : bool :=
  negb (interval s =? interval s')
  || negb (bool_decide (adjustmentNotification s = adjustmentNotification s')).

(** The editor with the computations in flight and a record of every write
    the controller has performed. *)
Record Sys := {
  app : App;
  pending : list Closure;
  log : list Write
}.

Definition spawned (o : option Closure) : list Closure :=
  match o with Some c => [c] | None => [] end.

(** One invocation of the effect, and the invocations that follow from the
    renders its own synchronous writes cause.  [None]: out of fuel. *)
Fixpoint runEffect (fuel : nat) (sys : Sys) : option Sys :=
  match fuel with
  | O => None
  | S fuel' =>
      let s := app sys in
      let '(ws, sp) := autoAdjustEffect s in
      let s' := apply_writes ws s in
      let sys' := {| app := s';
                     pending := pending sys ++ spawned sp;
                     log := log sys ++ ws |} in
      if stateChanged s s' then runEffect fuel' sys' else Some sys'
  end.

(** The [k]-th computation in flight resolves: its writes are applied as
    one batch; when they changed a dependency the effect is invoked. *)
Definition resolveStep (fuel : nat) (k : nat) (sys : Sys) : option Sys :=
  match pending sys !! k with
  | None => None
  | Some c =>
      let s := app sys in
      let ws := resolve c in
      let s' := apply_writes ws s in
      let sys' := {| app := s';
                     pending := delete k (pending sys);
                     log := log sys ++ ws |} in
      if stateChanged s s' then runEffect fuel sys' else Some sys'
  end.

(** A change made from outside the controller (new media, new audio, an
    interval picked by the user) has produced the state [s]: the effect is
    invoked for it. *)
Definition inputChanged (fuel : nat) (s : App) (sys : Sys) : option Sys :=
  runEffect fuel {| app := s; pending := pending sys; log := log sys |}.

(** The computations in flight resolve one after the other, oldest first,
    until none is left. *)
Fixpoint drain (fuel : nat) (sys : Sys) : option Sys :=
  match pending sys with
  | [] => Some sys
  | _ :: _ =>
      match fuel with
      | O => None
      | S fuel' =>
          match resolveStep 2 0 sys with
          | Some sys' => drain fuel' sys'
          | None => None
          end
      end
  end.

Definition isIntervalWrite (w : Write) : bool :=
  match w with SetIntervalValue _ => true | _ => false end.

Definition intervalWrites (ws : list Write) : nat :=
  length (List.filter isIntervalWrite ws).

Definition idle (s : App) : Sys := {| app := s; pending := []; log := [] |}.

(** A change of the inputs made from outside the controller. *)
Inductive Input :=
| NewAudio (a : option File)
| NewMedia (l : list MediaFile)
| NewInterval (n : Z).

Definition applyInput (i : Input) (s : App) : App :=
  match i with
  | NewAudio a =>
      {| media := media s; audioFile := a; interval := interval s;
         adjustmentNotification := adjustmentNotification s;
         isAutoAdjusting := isAutoAdjusting s |}
  | NewMedia l =>
      {| media := l; audioFile := audioFile s; interval := interval s;
         adjustmentNotification := adjustmentNotification s;
         isAutoAdjusting := isAutoAdjusting s |}
  | NewInterval n =>
      {| media := media s; audioFile := audioFile s; interval := n;
         adjustmentNotification := adjustmentNotification s;
         isAutoAdjusting := isAutoAdjusting s |}
  end.

Definition bindSys (o : option Sys) (f : Sys -> option Sys) : option Sys :=
  match o with Some sys => f sys | None => None end.

(** Two overlapping runs: the effect is invoked for [s]; before its
    computation resolves the input [i] arrives and the effect is invoked
    again; then the computation at position [first] of the two in flight
    resolves, and then the other one. *)
Definition overlapped (s : App) (i : Input) (first : nat) : option Sys :=
  bindSys (inputChanged 2 s (idle s)) (fun sys1 =>
  bindSys (inputChanged 2 (applyInput i (app sys1)) sys1) (fun sys2 =>
  bindSys (resolveStep 2 first sys2) (fun sys3 =>
  resolveStep 2 0 sys3))).

(** The run for the most recent inputs alone, with nothing else in
    flight. *)
Definition latestOnly (s : App) (i : Input) : option Sys :=
  bindSys (inputChanged 2 (applyInput i s) (idle s)) (drain 2).

(** The interval and the notice the editor shows. *)
Definition shown (o : option Sys) : option (Z * option string) :=
  match o with
  | Some sys => Some (interval (app sys), adjustmentNotification (app sys))
  | None => None
  end.

(** The discard of stale results, as a property of the controller: however
    two overlapping runs interleave, what is shown in the end is what the
    most recent inputs alone give. *)
Definition StaleResultsDiscarded : Prop :=
  forall (s : App) (i : Input) (first : nat),
    isAutoAdjusting s = false -> (first < 2)%nat ->
    shown (overlapped s i first) = shown (latestOnly s i).

(** *** Sample data *)

Definition sampleImage (k : string) : MediaFile :=
  {| mf_id := k; mf_type := image;
     mf_file := {| file_name := k; file_type := "image/png";
                   file_duration := 0 |};
     mf_previewUrl := k; mf_caption := None |}.

Definition sampleAudio (seconds : Q) : File :=
  {| file_name := "song.mp3"; file_type := "audio/mpeg";
     file_duration := seconds |}.

(** Ten images at interval 5 with a 20s song (scenario B of the
    specification). *)
Definition tenImages20s : App :=
  {| media := repeat (sampleImage "photo.png") 10;
     audioFile := Some (sampleAudio 20);
     interval := 5;
     adjustmentNotification := None;
     isAutoAdjusting := false |}.

(** The three shapes a resolved computation can take. *)
Inductive Outcome (interval : Z) (note : option string) : list Write -> Prop :=
| NoWrite : Outcome interval note []
| ClearNotice :
    truthy note = true ->
    Outcome interval note [SetAdjustmentNotification None]
| Adjust n m :
    n <> interval -> 1 <= n -> truthy (Some m) = true ->
    Outcome interval note
      [SetIsAutoAdjusting true; SetIntervalValue n;
       SetAdjustmentNotification (Some m)].

(** The guard of the effect: no audio track, or no image. *)
Definition gated (s : App) : bool :=
  match audioFile s with
  | None => true
  | Some _ => imageCount (media s) =? 0
  end.

(** The values the [adjustmentNotification] state variable can hold: its
    initial [null] and the two messages the effect publishes. *)
Definition published (note : option string) : Prop :=
  note = None \/ note = Some shorterMessage
  \/ exists n, note = Some (adjustedMessage n).

(** Scenario B of the specification. *)
Definition scenarioB : list Write :=
  calculateAndAdjust 20 [] 10 5 None.

(** The same editor after the song was replaced by a 60s one while the
    run for the 20s song was still probing: both runs are in flight. *)
Definition songReplaced : App :=
  applyInput (NewAudio (Some (sampleAudio 60))) tenImages20s.

Definition twoInFlight : Sys :=
  {| app := songReplaced;
     pending := [closureOf tenImages20s (sampleAudio 20);
                 closureOf songReplaced (sampleAudio 60)];
     log := [] |}.

End AutoAdjust.

(** ** The slideshow player *)

Module Player.

(** The arithmetic the player performs on the volume of the audio element.
    The player is written once over this interface.  What does not depend
    on the arithmetic (which slide is current, which timer is set) is
    proved for any instance; the fade itself is verified at binary64
    floating point, the numbers of the JavaScript engine. *)
Class Number (num : Type) := {
  ofZ : Z -> num;
  minus : num -> num -> num;
  divide : num -> num -> num;
  maximum : num -> num -> num;
  lessEq : num -> num -> bool
}.

#[export] Instance exact : Number Q := {|
  ofZ := inject_Z;
  minus := Qminus;
  divide := Qdiv;
  maximum := Qmax;
  lessEq := Qle_bool
|}.

(** Integers up to 2^53 are binary64 numbers. *)
Definition float_of_Z (z : Z) : float :=
  match z with
  | Z0 => PrimFloat.zero
  | Zpos _ => PrimFloat.of_uint63 (Uint63.of_Z z)
  | Zneg _ => PrimFloat.opp (PrimFloat.of_uint63 (Uint63.of_Z (- z)))
  end.

#[export] Instance binary64 : Number float := {|
  ofZ := float_of_Z;
  minus := PrimFloat.sub;
  divide := PrimFloat.div;
  maximum := fun a b => if PrimFloat.ltb a b then b else a;
  lessEq := PrimFloat.leb
|}.

Section Numbers.

Context {num : Type} {arith : Number num}.

(** The part of the [<audio>] element the player touches. *)
Record AudioElement := {
  volume : num;
  currentTime : num;
  playRequested : bool
}.

(** [SlideshowPlayer]: the props [media] and [interval], the state
    [currentIndex], the audio element behind [audioRef], and
    [fadeOutIntervalRef]: the fade timer that is running, if any, with the
    [volumeDecrement] its callback captured. *)
Record Player := {
  media : list MediaFile;
  interval : Z;
  currentIndex : nat;
  audio : AudioElement;
  fadeOutInterval : option num
}.

(** [advanceSlide]: [prev => (prev + 1) % media.length]. *)
Definition advanceSlide (p : Player) : Player :=
  {| media := media p; interval := interval p;
     currentIndex := (currentIndex p + 1) mod length (media p);
     audio := audio p; fadeOutInterval := fadeOutInterval p |}.

(** The effect "Timer to advance the slide (for images only)": the period
    in milliseconds of the timer it sets, if it sets one. *)
Definition slideTimerEffect (p : Player) : option Z :=
  if (length (media p) <? 2)%nat then None
  else
    match media p !! currentIndex p with
    | Some currentItem =>
        if is_image currentItem then Some (interval p * 1000) else None
    | None => None
    end.

(** The render: the current item, when it is a video, is shown by a
    [<video>] element with [onEnded={advanceSlide}]. *)
Definition videoOnEnded (p : Player) : bool :=
  match media p !! currentIndex p with
  | Some item => is_video item
  | None => false
  end.

(** What can advance the current slide. *)
Inductive Advance :=
| SlideTimer (periodMs : Z)
| VideoEnded.

Definition armed (p : Player) : list Advance :=
  match slideTimerEffect p with
  | Some ms => [SlideTimer ms]
  | None => []
  end ++ (if videoOnEnded p then [VideoEnded] else []).

Definition tickIntervalMs : Z := 50.

Definition withAudio (p : Player) (a : AudioElement) (f : option num)
  : Player :=
  {| media := media p; interval := interval p;
     currentIndex := currentIndex p; audio := a; fadeOutInterval := f |}.

(** The effect "Audio control for fade-out and looping", run when
    [currentIndex], [media.length] or [interval] changed (the audio element
    is mounted together with the player). *)
Definition audioEffect (p : Player) : Player :=
  let len := Z.of_nat (length (media p)) in
  let idx := Z.of_nat (currentIndex p) in
  let audioEl :=
    if idx =? 0
    then {| volume := ofZ 1; currentTime := ofZ 0; playRequested := true |}
    else audio p in
  if (idx =? len - 1) && (1 <? len) then
    let fadeDurationMs := interval p * 1000 in
    if fadeDurationMs <=? 0 then withAudio p audioEl None
    else
      let totalTicks := divide (ofZ fadeDurationMs) (ofZ tickIntervalMs) in
      let volumeDecrement := divide (volume audioEl) totalTicks in
      withAudio p audioEl (Some volumeDecrement)
  else withAudio p audioEl None.

(** One tick of the fade timer: the callback given to [setInterval]. *)
Definition fadeTick (p : Player) : Player :=
  match fadeOutInterval p with
  | None => p
  | Some volumeDecrement =>
      let v := maximum (ofZ 0) (minus (volume (audio p)) volumeDecrement) in
      let audioEl :=
        {| volume := v; currentTime := currentTime (audio p);
           playRequested := playRequested (audio p) |} in
      if lessEq v (ofZ 0) then withAudio p audioEl None
      else withAudio p audioEl (Some volumeDecrement)
  end.

(** The player after [k] ticks of the fade timer. *)
Definition afterTicks (k : nat) (p : Player) : Player :=
  Nat.iter k fadeTick p.

(** *** Sample data *)

Definition fullVolume : AudioElement :=
  {| volume := ofZ 1; currentTime := ofZ 0; playRequested := true |}.

End Numbers.

Arguments AudioElement num : clear implicits.
Arguments Player num : clear implicits.

(** The time, in milliseconds after the timer was set, of its [k]-th
    tick. *)
Definition tickTime (k : nat) : Z := Z.of_nat k * tickIntervalMs.

(** Nothing armed at all for a single item, as a property of the player. *)
Definition NothingArmedForSingleItem : Prop :=
  forall p : Player Q,
    length (media p) = 1%nat -> currentIndex p = 0%nat -> armed p = [].

Definition sampleVideo : MediaFile :=
  {| mf_id := "clip.mp4-1"; mf_type := video;
     mf_file := {| file_name := "clip.mp4"; file_type := "video/mp4";
                   file_duration := 12 |};
     mf_previewUrl := "blob:clip"; mf_caption := None |}.

Definition samplePhoto (k : string) : MediaFile :=
  {| mf_id := k; mf_type := image;
     mf_file := {| file_name := k; file_type := "image/jpeg";
                   file_duration := 0 |};
     mf_previewUrl := k; mf_caption := None |}.

(** A player showing a single video. *)
Definition singleVideo : Player Q :=
  {| media := [sampleVideo]; interval := 5; currentIndex := 0;
     audio := fullVolume; fadeOutInterval := None |}.

(** Scenario D of the specification: three images at interval 4, the last
    slide has just been entered; over either number type. *)
Definition scenarioD {num : Type} {arith : Number num} : Player num :=
  {| media := [samplePhoto "a.jpg"; samplePhoto "b.jpg"; samplePhoto "c.jpg"];
     interval := 4; currentIndex := 2;
     audio := fullVolume; fadeOutInterval := None |}.

(** The last slide of two photos, just entered at full volume, at
    interval [i]. *)
Definition lastSlideAt (i : Z) : Player float :=
  {| media := [samplePhoto "a.jpg"; samplePhoto "b.jpg"];
     interval := i; currentIndex := 1;
     audio := fullVolume; fadeOutInterval := None |}.

(** The fade reaches the volume 0 within one tick of [interval * 1000] ms,
    as a property of the player: the last of several slides has been
    entered at full volume, and one of the volume samples the player
    emits while it shows that slide is 0, at a tick no more than 50 ms
    from [interval * 1000] ms.  The samples it emits are those of the
    ticks that fire before the slide timer, if one is set, ends the slide:
    the effect of the next slide clears the fade timer. *)
Definition FadeReachesZeroInTime : Prop :=
  forall p : Player float,
    0 < interval p -> (1 < length (media p))%nat ->
    S (currentIndex p) = length (media p) ->
    volume (audio p) = ofZ 1 ->
    exists k,
      Z.abs (tickTime k - interval p * 1000) <= tickIntervalMs /\
      (forall ms, slideTimerEffect p = Some ms -> tickTime k <= ms) /\
      PrimFloat.eqb (volume (audio (afterTicks k (audioEffect p))))
        PrimFloat.zero = true.

(** The intervals from 1 to 20 at which the rounding of the subtractions
    leaves a residue after [interval * 20] ticks. *)
Definition residueIntervals : list Z :=
  [4; 6; 7; 8; 9; 11; 12; 13; 14; 15; 17; 18; 20].

(** 2^-40. *)
Definition residueBound : float :=
  PrimFloat.div PrimFloat.one (float_of_Z (2 ^ 40)).

Definition running (p : Player float) : bool :=
  match fadeOutInterval p with Some _ => true | None => false end.

(** The course of the fade from full volume at interval [i], tick by
    tick, with [n = i * 20]: no sample is larger than the one before; up
    to tick [n - 1] the timer runs and the volume is positive; after tick
    [n] the volume is below 2^-40, positive exactly at the intervals
    listed above, and the timer still runs exactly when it is positive;
    after tick [n + 1] the volume is 0 and the timer is stopped. *)
Definition fadesFromFull (i : Z) : Prop :=
  let p0 := audioEffect (lastSlideAt i) in
  let n := Z.to_nat (i * 20) in
  let vol k := volume (audio (afterTicks k p0)) in
  forallb (fun k => PrimFloat.leb (vol (S k)) (vol k)) (seq 0 (S n)) = true /\
  forallb (fun k => running (afterTicks k p0)
                    && PrimFloat.ltb PrimFloat.zero (vol k)) (seq 0 n)
    = true /\
  PrimFloat.ltb (vol n) residueBound = true /\
  PrimFloat.ltb PrimFloat.zero (vol n)
    = existsb (Z.eqb i) residueIntervals /\
  running (afterTicks n p0) = PrimFloat.ltb PrimFloat.zero (vol n) /\
  vol (S n) = PrimFloat.zero /\
  fadeOutInterval (afterTicks (S n) p0) = None.

End Player.


(** ** The computation of the controller in binary64 *)

(** [calculateAndAdjust] once more, on the numbers of the engine: every
    number is a binary64 value and every operation the rounded one.  The
    durations the probes report can be any such value, [NaN] and the
    infinities included. *)
Module Float64.

(** [Math.floor]: the value of a finite number is [m * 2^e]; a number with
    [0 <= e] is an integer already, and so are the zeros, the infinities
    and [NaN], which are returned as they are. *)
Definition Math_floor (x : float) : float :=
  match Prim2SF x with
  | S754_finite s m e =>
      if 0 <=? e then x
      else
        let q := Z.pos m / 2 ^ (- e) in
        let whole := Z.pos m mod 2 ^ (- e) =? 0 in
        if s then Player.float_of_Z (- (if whole then q else q + 1))
        else Player.float_of_Z q
  | _ => x
  end.

(** [Math.max] of two numbers: [NaN] when either is, the larger one
    otherwise, [+0] counting as larger than [-0]. *)
Definition Math_max (a b : float) : float :=
  if PrimFloat.is_nan a || PrimFloat.is_nan b then PrimFloat.nan
  else if PrimFloat.ltb a b then b
  else if PrimFloat.ltb b a then a
  else if PrimFloat.get_sign a then b else a.

(** What the computation does to the state. *)
Inductive Write :=
| SetIsAutoAdjusting (b : bool)
| SetIntervalValue (n : float)
| SetAdjustmentNotification (m : option string).

(** [videoDurations.reduce((sum, duration) => sum + duration, 0)]. *)
Definition totalDuration (durations : list float) : float :=
  fold_left PrimFloat.add durations PrimFloat.zero.

Section Engine.

(** The text the engine prints for a number in a template literal
    ([Number::toString]). *)
Variable numberToString : float -> string.

Definition adjustedMessage (newInterval : float) : string :=
  ("Slide speed automatically adjusted to " ++ numberToString newInterval
     ++ "s to match song length.")%string.

(** The body of [calculateAndAdjust] after its probes have resolved with
    [audioDuration] and [videoDurations]; [imageCount] is the count the
    closure captured (a count of array elements, so an integer below 2^53),
    [interval] and [adjustmentNotification] the state it captured. *)
Definition calculateAndAdjust (audioDuration : float)
    (videoDurations : list float) (imageCount : Z) (interval : float)
    (adjustmentNotification : option string) : list Write :=
  let totalVideoDuration := totalDuration videoDurations in
  let currentTotalSlideshowDuration :=
    PrimFloat.add (PrimFloat.mul (Player.float_of_Z imageCount) interval)
      totalVideoDuration in
  if PrimFloat.ltb audioDuration currentTotalSlideshowDuration then
    let availableTimeForImages :=
      PrimFloat.sub audioDuration totalVideoDuration in
    if PrimFloat.ltb PrimFloat.zero availableTimeForImages then
      let newInterval :=
        Math_max PrimFloat.one
          (Math_floor
             (PrimFloat.div availableTimeForImages
                (Player.float_of_Z imageCount))) in
      if negb (PrimFloat.eqb newInterval interval) then
        [SetIsAutoAdjusting true;
         SetIntervalValue newInterval;
         SetAdjustmentNotification (Some (adjustedMessage newInterval))]
      else []
    else
      if negb (PrimFloat.eqb interval PrimFloat.one) then
        [SetIsAutoAdjusting true;
         SetIntervalValue PrimFloat.one;
         SetAdjustmentNotification (Some AutoAdjust.shorterMessage)]
      else []
  else
    if truthy adjustmentNotification
    then [SetAdjustmentNotification None]
    else [].

End Engine.

(** *** Sample data *)

(** The integer a number without fractional part stands for. *)
Definition integerValue (x : float) : Z :=
  match Prim2SF x with
  | S754_finite s m e =>
      let v := if 0 <=? e then Z.pos m * 2 ^ e else Z.pos m / 2 ^ (- e) in
      if s then - v else v
  | _ => 0
  end.

(** [Number::toString] on the integers below 10^21, which it prints as
    their decimal digits: the numbers of the examples below. *)
Definition integerToString (x : float) : string :=
  string_of_Z (integerValue x).

(** The number a decimal literal with one digit after the point denotes:
    the binary64 value nearest to [tenths / 10]. *)
Definition decimal (tenths : Z) : float :=
  PrimFloat.div (Player.float_of_Z tenths) (Player.float_of_Z 10).


End Float64.

(** ** Caption generation *)

Module Captions.

(** The [captionStatus] state variable. *)
Inductive CaptionStatus := idle | generating | done | error.

(** The editor as [generateCaptions] sees it.  The [media] array holds
    references: [store] maps an address to the object it denotes. *)
Record Editor := {
  store : gmap nat MediaFile;
  media : list nat;
  captionStatus : CaptionStatus;
  smartCaptionsEnabled : bool;
  isApiKeyAvailable : bool
}.

(** [item.type === 'image' && !item.caption]. *)
Definition needsCaption (st : gmap nat MediaFile) (l : nat) : bool :=
  match st !! l with
  | Some item => is_image item && negb (truthy (mf_caption item))
  | None => false
  end.

Definition imagesToCaption (e : Editor) : list nat :=
  List.filter (needsCaption (store e)) (media e).

(** [updatedMedia.findIndex(item => item.id === id)]; [None] is -1. *)
Fixpoint findIndex (st : gmap nat MediaFile) (id : string) (arr : list nat)
  : option nat :=
  match arr with
  | [] => None
  | l :: rest =>
      match st !! l with
      | Some item =>
          if String.eqb (mf_id item) id then Some 0%nat
          else S <$> findIndex st id rest
      | None => S <$> findIndex st id rest
      end
  end.

Definition withCaption (item : MediaFile) (c : string) : MediaFile :=
  {| mf_id := mf_id item; mf_type := mf_type item; mf_file := mf_file item;
     mf_previewUrl := mf_previewUrl item; mf_caption := Some c |}.

(** The body of the loop after the caption text has arrived: the object
    found under the id is updated in place.  [trim] is the engine's
    [String.prototype.trim]. *)
Definition writeCaption (trim : string -> string)
    (st : gmap nat MediaFile) (updatedMedia : list nat)
    (id : string) (caption : string) : gmap nat MediaFile :=
  match findIndex st id updatedMedia with
  | Some index =>
      match updatedMedia !! index with
      | Some l =>
          match st !! l with
          | Some target =>
              if is_image target
              then <[l := withCaption target (trim caption)]> st
              else st
          | None => st
          end
      | None => st
      end
  | None => st
  end.

(** The [for ... of imagesToCaption] loop.  [service file] is the text the
    caption call answers for [file], or [None] when the call throws.  The
    result is the store and whether the loop ran to its end. *)
Fixpoint captionLoop (trim : string -> string)
    (service : File -> option string)
    (updatedMedia : list nat) (todo : list nat) (st : gmap nat MediaFile)
  : gmap nat MediaFile * bool :=
  match todo with
  | [] => (st, true)
  | imageFile :: rest =>
      match st !! imageFile with
      | None => (st, false)
      | Some item =>
          match service (mf_file item) with
          | None => (st, false)
          | Some text =>
              captionLoop trim service updatedMedia rest
                (writeCaption trim st updatedMedia (mf_id item) text)
          end
      end
  end.

Definition withStatus (e : Editor) (st : gmap nat MediaFile)
    (m : list nat) (c : CaptionStatus) : Editor :=
  {| store := st; media := m; captionStatus := c;
     smartCaptionsEnabled := smartCaptionsEnabled e;
     isApiKeyAvailable := isApiKeyAvailable e |}.

Definition isGenerating (c : CaptionStatus) : bool :=
  match c with generating => true | _ => false end.

(** [generateCaptions]; [apiKey] is [process.env.API_KEY], [trim] the
    engine's [String.prototype.trim]. *)
Definition generateCaptions (trim : string -> string)
    (apiKey : option string)
    (service : File -> option string) (e : Editor) : Editor :=
  if negb (smartCaptionsEnabled e) || isGenerating (captionStatus e)
     || negb (isApiKeyAvailable e)
  then e
  else
    let todo := imagesToCaption e in
    if (length todo =? 0)%nat then
      if (0 <? length (media e))%nat
      then withStatus e (store e) (media e) done
      else e
    else
      if negb (truthy apiKey) then withStatus e (store e) (media e) error
      else
        let updatedMedia := media e in
        match captionLoop trim service updatedMedia todo (store e) with
        | (st, true) => withStatus e st updatedMedia done
        | (st, false) => withStatus e st (media e) error
        end.

(** *** Notions used to state what a failing pass preserves *)

Definition idOf (st : gmap nat MediaFile) (l : nat) : string :=
  match st !! l with
  | Some item => mf_id item
  | None => EmptyString
  end.

(** Every reference of the array denotes an object, and ids are unique. *)
Definition wellFormed (e : Editor) : Prop :=
  (forall l, In l (media e) -> is_Some (store e !! l)) /\
  List.NoDup (List.map (idOf (store e)) (media e)).

(** The images of [todo] whose caption call answers, up to the first one
    whose call throws. *)
Fixpoint answered (service : File -> option string)
    (st : gmap nat MediaFile) (todo : list nat) : list nat :=
  match todo with
  | [] => []
  | l :: rest =>
      match st !! l with
      | Some item =>
          match service (mf_file item) with
          | Some _ => l :: answered service st rest
          | None => []
          end
      | None => []
      end
  end.

(** An object with the caption the service answers for its file. *)
Definition captioned (trim : string -> string)
    (service : File -> option string) (item : MediaFile) : MediaFile :=
  match service (mf_file item) with
  | Some text => withCaption item (trim text)
  | None => item
  end.

(** The captions obtained in a pass before it failed. *)
Definition obtained (apiKey : option string)
    (service : File -> option string) (e : Editor) : list nat :=
  if truthy apiKey
  then answered service (store e) (imagesToCaption e)
  else [].

(** The pass is entered and fails: the key is missing, or the caption call
    throws for one of the images to caption. *)
Definition passFails (apiKey : option string)
    (service : File -> option string) (e : Editor) : Prop :=
  smartCaptionsEnabled e = true /\
  captionStatus e <> generating /\
  isApiKeyAvailable e = true /\
  imagesToCaption e <> [] /\
  (truthy apiKey = false \/
   exists l item,
     In l (imagesToCaption e) /\ store e !! l = Some item /\
     service (mf_file item) = None).

(** A failing pass preserves every caption already obtained, whatever the
    ids of the items: a caption written earlier stays on its item, and an
    image answered before the failure carries the text it was answered. *)
Definition FailedPassKeepsCaptions : Prop :=
  forall (trim : string -> string) (apiKey : option string)
         (service : File -> option string) (e : Editor),
    (forall l, In l (media e) -> is_Some (store e !! l)) ->
    passFails apiKey service e ->
    let e' := generateCaptions trim apiKey service e in
    captionStatus e' = error /\
    media e' = media e /\
    (forall l item,
       In l (media e) -> store e !! l = Some item ->
       exists item',
         store e' !! l = Some item' /\
         (truthy (mf_caption item) = true ->
          mf_caption item' = mf_caption item) /\
         (In l (obtained apiKey service e) ->
          exists text, service (mf_file item) = Some text /\
                       mf_caption item' = Some (trim text))).

(** *** Sample data *)

(** [String.prototype.trim] on the texts of the examples below: texts
    whose characters are code units below 256, one per [ascii].  Of the
    white space and line terminators the engine strips, those in that
    range are tab, line feed, vertical tab, form feed, carriage return,
    space and the no-break space U+00A0. *)
Definition isWhitespace (c : ascii) : bool :=
  let n := nat_of_ascii c in
  ((9 <=? n) && (n <=? 13) || (n =? 32) || (n =? 160))%nat.

Fixpoint trimStart (s : string) : string :=
  match s with
  | EmptyString => EmptyString
  | String c rest => if isWhitespace c then trimStart rest else s
  end.

Fixpoint trimEnd (s : string) : string :=
  match s with
  | EmptyString => EmptyString
  | String c rest =>
      match trimEnd rest with
      | EmptyString =>
          if isWhitespace c then EmptyString else String c EmptyString
      | rest' => String c rest'
      end
  end.

Definition trimLatin1 (s : string) : string := trimEnd (trimStart s).

Definition photo (k : string) (c : option string) : MediaFile :=
  {| mf_id := k; mf_type := image;
     mf_file := {| file_name := k; file_type := "image/jpeg";
                   file_duration := 0 |};
     mf_previewUrl := k; mf_caption := c |}.

(** Three photos: the first captioned by an earlier pass. *)
Definition threePhotos : Editor :=
  {| store := <[0%nat := photo "a.jpg" (Some "A beach.")]>
              (<[1%nat := photo "b.jpg" None]>
              (<[2%nat := photo "c.jpg" None]> ∅));
     media := [0%nat; 1%nat; 2%nat];
     captionStatus := idle;
     smartCaptionsEnabled := true;
     isApiKeyAvailable := true |}.

(** Two files of the same name uploaded at the same clock value get the
    same id ([`${file.name}-${Date.now()}`]). *)
Definition upload7 (name : string) (c : option string) : MediaFile :=
  {| mf_id := (name ++ "-7")%string; mf_type := image;
     mf_file := {| file_name := name; file_type := "image/jpeg";
                   file_duration := 0 |};
     mf_previewUrl := ("blob:" ++ name)%string; mf_caption := c |}.

(** Two photos that share an id, the first captioned earlier, and a third
    photo. *)
Definition twins : Editor :=
  {| store := <[0%nat := upload7 "a.jpg" (Some "Written earlier.")]>
              (<[1%nat := upload7 "a.jpg" None]>
              (<[2%nat := upload7 "c.jpg" None]> ∅));
     media := [0%nat; 1%nat; 2%nat];
     captionStatus := idle;
     smartCaptionsEnabled := true;
     isApiKeyAvailable := true |}.

(** A caption service that answers for [a.jpg] and throws for anything
    else. *)
Definition dogService (f : File) : option string :=
  if String.eqb (file_name f) "a.jpg" then Some " A dog. " else None.

(** A caption service that answers for [b.jpg] and throws for anything
    else. *)
Definition flakyService (f : File) : option string :=
  if String.eqb (file_name f) "b.jpg" then Some " A dog. " else None.

End Captions.

(** ** Media upload *)

Module Upload.

Definition MAX_IMAGES : nat := 30.
Definition MAX_VIDEOS : nat := 1.
Definition MAX_VIDEO_DURATION : Z := 30.

(** [s.startsWith(p)]. *)
Definition startsWith (p s : string) : bool := String.prefix p s.

Definition doubleQuote : string := String (ascii_of_nat 34) EmptyString.

Definition imagesAlert : string :=
  ("Maximum of " ++ string_of_Z (Z.of_nat MAX_IMAGES)
     ++ " images reached. Some images were not uploaded.")%string.

Definition durationAlert (fileName : string) : string :=
  ("Video " ++ doubleQuote ++ fileName ++ doubleQuote ++ " exceeds the "
     ++ string_of_Z MAX_VIDEO_DURATION
     ++ "s limit and was not uploaded.")%string.

Definition videosAlert : string :=
  ("Maximum of " ++ string_of_Z (Z.of_nat MAX_VIDEOS)
     ++ " video reached. Some videos were not uploaded.")%string.

Definition countImages (l : list MediaFile) : nat :=
  length (List.filter is_image l).

Definition countVideos (l : list MediaFile) : nat :=
  length (List.filter is_video l).

Section Handler.

(** [Date.now()] when the [k]-th file of the batch is processed, and
    [URL.createObjectURL]. *)
Variable Date_now : nat -> Z.
Variable createObjectURL : File -> string.

(** The object pushed for an accepted file. *)
Definition newItem (t : MediaType) (file : File) (k : nat) : MediaFile :=
  {| mf_id := (file_name file ++ "-" ++ string_of_Z (Date_now k))%string;
     mf_type := t;
     mf_file := file;
     mf_previewUrl := createObjectURL file;
     mf_caption := None |}.

(** The loop of [processFiles] from the [k]-th file of the batch on:
    [updatedMedia] and the alerts shown so far are threaded through.  The
    [break] of the source ends the loop.  Every element of a file input's
    list is a [File], so the [instanceof] test never skips one. *)
Fixpoint processFiles (files : list File) (k : nat)
    (updatedMedia : list MediaFile) (alerts : list string)
  : list MediaFile * list string :=
  match files with
  | [] => (updatedMedia, alerts)
  | file :: rest =>
      let currentImagesCount := countImages updatedMedia in
      let currentVideosCount := countVideos updatedMedia in
      if startsWith "image/" (file_type file) then
        if (currentImagesCount <? MAX_IMAGES)%nat then
          processFiles rest (S k)
            (updatedMedia ++ [newItem image file k]) alerts
        else (updatedMedia, alerts ++ [imagesAlert])
      else if startsWith "video/" (file_type file) then
        if (currentVideosCount <? MAX_VIDEOS)%nat then
          if Qltb (inject_Z MAX_VIDEO_DURATION) (file_duration file) then
            processFiles rest (S k) updatedMedia
              (alerts ++ [durationAlert (file_name file)])
          else
            processFiles rest (S k)
              (updatedMedia ++ [newItem video file k]) alerts
        else
          processFiles rest (S k) updatedMedia (alerts ++ [videosAlert])
      else processFiles rest (S k) updatedMedia alerts
  end.

(** [handleMediaUpload]: the new value of [media] and the alerts shown. *)
Definition handleMediaUpload (media : list MediaFile) (files : list File)
  : list MediaFile * list string :=
  if (length files =? 0)%nat then (media, [])
  else processFiles files 0 media [].

(** The handling the specification describes: every file of the batch is
    judged on its own; one that violates a limit is reported and left out,
    one within the limits is appended. *)
Fixpoint claimedFiles (files : list File) (k : nat)
    (updatedMedia : list MediaFile) (alerts : list string)
  : list MediaFile * list string :=
  match files with
  | [] => (updatedMedia, alerts)
  | file :: rest =>
      if startsWith "image/" (file_type file) then
        if (countImages updatedMedia <? MAX_IMAGES)%nat then
          claimedFiles rest (S k)
            (updatedMedia ++ [newItem image file k]) alerts
        else claimedFiles rest (S k) updatedMedia (alerts ++ [imagesAlert])
      else if startsWith "video/" (file_type file) then
        if (countVideos updatedMedia <? MAX_VIDEOS)%nat then
          if Qltb (inject_Z MAX_VIDEO_DURATION) (file_duration file) then
            claimedFiles rest (S k) updatedMedia
              (alerts ++ [durationAlert (file_name file)])
          else
            claimedFiles rest (S k)
              (updatedMedia ++ [newItem video file k]) alerts
        else
          claimedFiles rest (S k) updatedMedia (alerts ++ [videosAlert])
      else claimedFiles rest (S k) updatedMedia alerts
  end.

Definition claimedUpload (media : list MediaFile) (files : list File)
  : list MediaFile * list string :=
  if (length files =? 0)%nat then (media, [])
  else claimedFiles files 0 media [].

(** The batch up to and including the first image that arrives when the
    list already holds [MAX_IMAGES] images; [images] is the number of
    images in the list before the batch. *)
Fixpoint upToCap (images : nat) (files : list File) : list File :=
  match files with
  | [] => []
  | file :: rest =>
      if startsWith "image/" (file_type file) then
        if (images <? MAX_IMAGES)%nat
        then file :: upToCap (S images) rest
        else [file]
      else file :: upToCap images rest
  end.

End Handler.

(** An item the handler may add: an image made from an image file, or a
    video made from a video file that is not longer than the maximum. *)
Definition admissible (item : MediaFile) : Prop :=
  match mf_type item with
  | image => startsWith "image/" (file_type (mf_file item)) = true
  | video =>
      startsWith "video/" (file_type (mf_file item)) = true /\
      (file_duration (mf_file item) <= inject_Z MAX_VIDEO_DURATION)%Q
  end.

(** Every item within the limits is appended, as a property of the
    handler. *)
Definition UploadsAsClaimed : Prop :=
  forall (Date_now : nat -> Z) (createObjectURL : File -> string)
         (media : list MediaFile) (files : list File),
    handleMediaUpload Date_now createObjectURL media files
    = claimedUpload Date_now createObjectURL media files.

(** *** Sample data *)

Definition pngFile (k : string) : File :=
  {| file_name := k; file_type := "image/png"; file_duration := 0 |}.

Definition mp4File (k : string) (seconds : Q) : File :=
  {| file_name := k; file_type := "video/mp4"; file_duration := seconds |}.

Definition sampleClock (k : nat) : Z := 1700000000000 + Z.of_nat k.

Definition sampleURL (f : File) : string := ("blob:" ++ file_name f)%string.

(** A list that already holds the 30 images allowed. *)
Definition thirtyImages : list MediaFile :=
  repeat (newItem sampleClock sampleURL image (pngFile "old.png") 0) 30.

End Upload.

(** ** More sample data for the controller *)

Module AutoAdjustSamples.
Import AutoAdjust.

(** The editor of scenario B after its adjustment was applied and the flag
    consumed, with a second run still in flight that was started from the
    same inputs as the first (the media were reordered while the first run
    was probing). *)
Definition adjustedOnce : App :=
  {| media := media tenImages20s;
     audioFile := audioFile tenImages20s;
     interval := 2;
     adjustmentNotification := Some (adjustedMessage 2);
     isAutoAdjusting := false |}.

Definition duplicateInFlight : Sys :=
  {| app := adjustedOnce;
     pending := [closureOf tenImages20s (sampleAudio 20)];
     log := [] |}.

(** An editor without audio track that still shows a notice. *)
Definition noAudioWithNotice : App :=
  {| media := media tenImages20s;
     audioFile := None;
     interval := 2;
     adjustmentNotification := Some (adjustedMessage 2);
     isAutoAdjusting := false |}.

End AutoAdjustSamples.

(** ** Editing the media list *)

Module Editing.

(** [removeMedia]: the updater given to [setMedia] filters the list and
    revokes the preview URL of every item it drops.  The result is the new
    list and the URLs revoked. *)
Fixpoint removeMedia (id : string) (prev : list MediaFile)
  : list MediaFile * list string :=
  match prev with
  | [] => ([], [])
  | item :: rest =>
      let '(kept, revoked) := removeMedia id rest in
      if String.eqb (mf_id item) id
      then (kept, mf_previewUrl item :: revoked)
      else (item :: kept, revoked)
  end.

(** [prevMedia.findIndex(item => item.id === id)]; [None] is -1. *)
Fixpoint findIndexById (id : string) (l : list MediaFile) : option nat :=
  match l with
  | [] => None
  | item :: rest =>
      if String.eqb (mf_id item) id then Some 0%nat
      else S <$> findIndexById id rest
  end.

(** [arr.splice(index, 0, item)]. *)
Definition spliceIn (index : nat) (item : MediaFile) (arr : list MediaFile)
  : list MediaFile :=
  take index arr ++ item :: drop index arr.

(** [handleDrop]: the new value of [media] when the item dragged (its id
    read from the drag data, the empty string when there is none) is dropped
    on the item [targetId]. *)
Definition handleDrop (sourceId targetId : string) (prevMedia : list MediaFile)
  : list MediaFile :=
  if truthy (Some sourceId) && negb (String.eqb sourceId targetId) then
    match findIndexById sourceId prevMedia,
          findIndexById targetId prevMedia with
    | Some sourceIndex, Some targetIndex =>
        match prevMedia !! sourceIndex with
        | Some draggedItem =>
            spliceIn targetIndex draggedItem (delete sourceIndex prevMedia)
        | None => prevMedia
        end
    | _, _ => prevMedia
    end
  else prevMedia.

(** *** Sample data *)

Definition item (k : string) (t : MediaType) : MediaFile :=
  {| mf_id := k; mf_type := t;
     mf_file := {| file_name := k; file_type := "image/png";
                   file_duration := 0 |};
     mf_previewUrl := ("blob:" ++ k)%string; mf_caption := None |}.

Definition fourItems : list MediaFile :=
  [item "a" image; item "b" image; item "c" video; item "d" image].

End Editing.

(** ** The caption generation effect *)

Module CaptionEffect.
Import Captions.

Definition isDone (c : CaptionStatus) : bool :=
  match c with done => true | _ => false end.

Definition statusEqb (a b : CaptionStatus) : bool :=
  match a, b with
  | idle, idle | generating, generating | done, done | error, error => true
  | _, _ => false
  end.

(** A run of [generateCaptions] suspended at an [await]: the
    [updatedMedia] copy and the [imagesToCaption] it computed before. *)
Record Pass := {
  p_updatedMedia : list nat;
  p_imagesToCaption : list nat
}.

(** [generateCaptions] up to its first [await]: the calls of
    [setCaptionStatus] it makes, in order, and the run it suspends, if it
    gets that far.  A missing key throws inside [try] before any [await],
    so [catch] runs in the same synchronous stretch. *)
Definition generateCaptionsSync (apiKey : option string) (e : Editor)
  : list CaptionStatus * option Pass :=
  if negb (smartCaptionsEnabled e) || isGenerating (captionStatus e)
     || negb (isApiKeyAvailable e)
  then ([], None)
  else
    let todo := imagesToCaption e in
    if (length todo =? 0)%nat then
      (if (0 <? length (media e))%nat then [done] else [], None)
    else
      if negb (truthy apiKey) then ([generating; error], None)
      else ([generating],
            Some {| p_updatedMedia := media e; p_imagesToCaption := todo |}).

(** The rest of a suspended run, once its awaited calls have settled: the
    loop, which writes on the objects of the store as it finds them now,
    then [setMedia(updatedMedia); setCaptionStatus('done')], or [catch].
    The result is the editor and whether [setMedia] was called. *)
Definition generateCaptionsRest (trim : string -> string)
    (service : File -> option string) (p : Pass) (e : Editor)
  : Editor * bool :=
  match captionLoop trim service (p_updatedMedia p) (p_imagesToCaption p)
          (store e) with
  | (st, true) => (withStatus e st (p_updatedMedia p) done, true)
  | (st, false) => (withStatus e st (media e) error, false)
  end.

(** The number of caption calls the loop makes: one for each image it
    reaches, the one that throws included. *)
Fixpoint loopCalls (trim : string -> string)
    (service : File -> option string)
    (updatedMedia : list nat) (todo : list nat) (st : gmap nat MediaFile)
  : nat :=
  match todo with
  | [] => 0%nat
  | imageFile :: rest =>
      match st !! imageFile with
      | None => 0%nat
      | Some item =>
          match service (mf_file item) with
          | None => 1%nat
          | Some text =>
              S (loopCalls trim service updatedMedia rest
                   (writeCaption trim st updatedMedia (mf_id item) text))
          end
      end
  end.

(** The synchronous part of the effect "Caption Generation Effect": a call
    of [generateCaptions] unless the status is [done], and the status back
    to [idle] when the list is empty. *)
Definition captionEffect (apiKey : option string) (e : Editor)
  : list CaptionStatus * option Pass :=
  let started :=
    if smartCaptionsEnabled e && negb (isDone (captionStatus e))
    then generateCaptionsSync apiKey e
    else ([], None) in
  (fst started ++ (if (length (media e) =? 0)%nat then [idle] else []),
   snd started).

(** The editor with its effect: the runs of [generateCaptions] that are
    suspended, whether the last render changed a dependency of the effect
    ([smartCaptionsEnabled], [media], [captionStatus], or [generateCaptions],
    which is made anew when one of these or [isApiKeyAvailable] changes),
    and the number of caption calls made so far. *)
Record Sys := {
  editor : Editor;
  pending : list Pass;
  effectDue : bool;
  calls : nat
}.

(** The effect runs.  Its calls of [setCaptionStatus] are one batch: the
    last one gives the new status, and a render follows, with the effect
    due again, only when the status is another than before. *)
Definition runEffect (apiKey : option string) (s : Sys) : Sys :=
  let e := editor s in
  let ws := captionEffect apiKey e in
  let status := List.last (fst ws) (captionStatus e) in
  {| editor := withStatus e (store e) (media e) status;
     pending := pending s ++ match snd ws with Some p => [p] | None => [] end;
     effectDue := negb (statusEqb status (captionStatus e));
     calls := calls s |}.

(** The oldest suspended run resumes and runs to its end.  [setMedia]
    installs a new array, which is a changed dependency whatever it
    holds. *)
Definition resumePass (trim : string -> string)
    (service : File -> option string) (s : Sys) : Sys :=
  match pending s with
  | [] => s
  | p :: rest =>
      let e := editor s in
      let r := generateCaptionsRest trim service p e in
      {| editor := fst r;
         pending := rest;
         effectDue :=
           effectDue s || snd r
           || negb (statusEqb (captionStatus (fst r)) (captionStatus e));
         calls :=
           (calls s
            + loopCalls trim service (p_updatedMedia p)
                (p_imagesToCaption p) (store e))%nat |}
  end.

(** One step of the editor left to itself: the effect when it is due,
    otherwise the oldest suspended run. *)
Definition step (trim : string -> string) (apiKey : option string)
    (service : File -> option string) (s : Sys) : Sys :=
  if effectDue s then runEffect apiKey s else resumePass trim service s.

Fixpoint drain (trim : string -> string) (apiKey : option string)
    (service : File -> option string) (fuel : nat) (s : Sys) : Sys :=
  match fuel with
  | O => s
  | S fuel' => drain trim apiKey service fuel' (step trim apiKey service s)
  end.

(** Nothing is left to happen. *)
Definition settled (s : Sys) : bool :=
  negb (effectDue s) && (length (pending s) =? 0)%nat.

(** The editor after a render that changed a dependency of the effect. *)
Definition rendered (e : Editor) : Sys :=
  {| editor := e; pending := []; effectDue := true; calls := 0 |}.

(** The caption call throws for an image that is still to caption. *)
Definition throwsFor (service : File -> option string) (e : Editor)
  : Prop :=
  exists l item,
    In l (imagesToCaption e) /\ store e !! l = Some item /\
    service (mf_file item) = None.

(** The states the editor goes through while a caption call keeps
    throwing: at stage 0 the effect is due and no run is suspended, at
    stage 1 the effect is due again beside the run it has just suspended,
    at stage 2 that run is all that is left. *)
Definition retrying (service : File -> option string) (media0 : list nat)
    (stage : nat) (s : Sys) : Prop :=
  let e := editor s in
  let run := {| p_updatedMedia := media e;
                p_imagesToCaption := imagesToCaption e |} in
  media e = media0 /\ wellFormed e /\
  smartCaptionsEnabled e = true /\ isApiKeyAvailable e = true /\
  throwsFor service e /\
  match stage with
  | 0%nat => effectDue s = true /\ pending s = [] /\
             (captionStatus e = idle \/ captionStatus e = error)
  | 1%nat => effectDue s = true /\ pending s = [run] /\
             captionStatus e = generating
  | 2%nat => effectDue s = false /\ pending s = [run] /\
             captionStatus e = generating
  | _ => False
  end.

(** A caption service that answers for every file. *)
Definition steadyService (f : File) : option string :=
  Some ("  " ++ file_name f ++ " ")%string.

End CaptionEffect.

(** ** The media list over a session *)

Module Session.
Import Upload Editing.

(** How the handler classifies a file of a batch. *)
Definition isImageFile (f : File) : bool := startsWith "image/" (file_type f).

Definition isVideoFile (f : File) : bool :=
  negb (isImageFile f) && startsWith "video/" (file_type f).

(** The values [media] can take in a session that starts with a new
    slideshow and goes on by uploads, removals and drops. *)
Inductive reachable : list MediaFile -> Prop :=
| reach_new : reachable []
| reach_upload (Date_now : nat -> Z) (createObjectURL : File -> string)
    (media : list MediaFile) (files : list File) :
    reachable media ->
    reachable (fst (handleMediaUpload Date_now createObjectURL media files))
| reach_remove (id : string) (media : list MediaFile) :
    reachable media -> reachable (fst (removeMedia id media))
| reach_drop (sourceId targetId : string) (media : list MediaFile) :
    reachable media -> reachable (handleDrop sourceId targetId media).

(** A batch of two photos, a text file and a clip. *)
Definition mixedBatch : list File :=
  [pngFile "a.png";
   {| file_name := "notes.txt"; file_type := "text/plain";
      file_duration := 0 |};
   mp4File "clip.mp4" 12;
   pngFile "b.png"].

End Session.

(** ** The first version of the editor (images only) *)

Module Legacy.

(** The [ImageFile] of the first version: no [type] field. *)
Record ImageFile := {
  img_id : string;
  img_file : File;
  img_previewUrl : string;
  img_caption : option string
}.

Definition MAX_UPLOAD : nat := 20.

Definition maximumAlert : string :=
  "You can only upload a maximum of 20 images.".

Section Handler.

Variable Date_now : nat -> Z.
Variable createObjectURL : File -> string.

(** [files.map(file => ({ id, file, previewUrl }))], the [k]-th file read at
    time [Date_now k]. *)
Fixpoint newImages (k : nat) (files : list File) : list ImageFile :=
  match files with
  | [] => []
  | file :: rest =>
      {| img_id := (file_name file ++ "-" ++ string_of_Z (Date_now k))%string;
         img_file := file;
         img_previewUrl := createObjectURL file;
         img_caption := None |} :: newImages (S k) rest
  end.

(** [handleImageUpload]: the new value of [images] and the alerts shown. *)
Definition handleImageUpload (files : list File) (prev : list ImageFile)
  : list ImageFile * list string :=
  let combined := prev ++ newImages 0 files in
  if (MAX_UPLOAD <? length combined)%nat
  then (take MAX_UPLOAD prev, [maximumAlert])
  else (combined, []).

End Handler.

End Legacy.

(** ** The saved slideshows (the version that keeps them in local storage) *)

Module Library.

Record SlideshowSettings := {
  st_interval : Z;
  st_slideStyle : string;
  st_showClock : bool;
  st_smartCaptionsEnabled : bool
}.

Record SerializedMediaFile := {
  sm_id : string;
  sm_type : MediaType;
  sm_name : string;
  sm_dataUrl : string;
  sm_caption : option string
}.

Record SerializedAudioFile := {
  sa_name : string;
  sa_dataUrl : string
}.

Record SavedSlideshow := {
  ss_id : string;
  ss_name : string;
  ss_media : list SerializedMediaFile;
  ss_audio : option SerializedAudioFile;
  ss_settings : SlideshowSettings;
  ss_timestamp : Z
}.

(** The state variables of [App] the handlers read and write. *)
Record Workspace := {
  media : list MediaFile;
  audioFile : option File;
  interval : Z;
  slideStyle : string;
  showClock : bool;
  smartCaptionsEnabled : bool;
  captionStatus : Captions.CaptionStatus;
  savedSlideshows : list SavedSlideshow;
  activeSlideshowId : option string;
  isLoading : bool
}.

Definition MAX_SAVED_SLIDESHOWS : nat := 5.

Definition newSlideshowName : string := "New Slideshow".

(** [savedSlideshows.find(s => s.id === id)]. *)
Definition findSlideshow (id : string) (l : list SavedSlideshow)
  : option SavedSlideshow :=
  List.find (fun s => String.eqb (ss_id s) id) l.

(** The memo [activeSlideshowName]. *)
Definition activeSlideshowName (w : Workspace) : string :=
  match activeSlideshowId w with
  | Some id =>
      if truthy (Some id) then
        match findSlideshow id (savedSlideshows w) with
        | Some s => if truthy (Some (ss_name s)) then ss_name s
                    else newSlideshowName
        | None => newSlideshowName
        end
      else newSlideshowName
  | None => newSlideshowName
  end.

(** [handleNewSlideshow]. *)
Definition handleNewSlideshow (w : Workspace) : Workspace :=
  {| media := []; audioFile := None; interval := 5;
     slideStyle := "kenburns"; showClock := true;
     smartCaptionsEnabled := false; captionStatus := Captions.idle;
     savedSlideshows := savedSlideshows w;
     activeSlideshowId := None;
     isLoading := isLoading w |}.

Definition withLoading (b : bool) (w : Workspace) : Workspace :=
  {| media := media w; audioFile := audioFile w; interval := interval w;
     slideStyle := slideStyle w; showClock := showClock w;
     smartCaptionsEnabled := smartCaptionsEnabled w;
     captionStatus := captionStatus w;
     savedSlideshows := savedSlideshows w;
     activeSlideshowId := activeSlideshowId w;
     isLoading := b |}.

Definition withSaved (l : list SavedSlideshow) (active : option string)
    (w : Workspace) : Workspace :=
  {| media := media w; audioFile := audioFile w; interval := interval w;
     slideStyle := slideStyle w; showClock := showClock w;
     smartCaptionsEnabled := smartCaptionsEnabled w;
     captionStatus := captionStatus w;
     savedSlideshows := l;
     activeSlideshowId := active;
     isLoading := isLoading w |}.

Definition savedAlert (name : string) : string :=
  ("Slideshow " ++ Upload.doubleQuote ++ name ++ Upload.doubleQuote
     ++ " saved successfully!")%string.

Definition saveErrorAlert : string :=
  "There was an error saving your slideshow.".

Definition capAlert : string :=
  ("You can only save up to "
     ++ string_of_Z (Z.of_nat MAX_SAVED_SLIDESHOWS) ++ " slideshows.")%string.

Definition loadErrorAlert : string :=
  "There was an error loading the slideshow.".

Definition currentSettings (w : Workspace) : SlideshowSettings :=
  {| st_interval := interval w; st_slideStyle := slideStyle w;
     st_showClock := showClock w;
     st_smartCaptionsEnabled := smartCaptionsEnabled w |}.

Section Handlers.

(** The browser: [fileToDataUrl] ([None] when the reader fails),
    [dataUrlToFile] ([None] when it throws), [URL.createObjectURL]. *)
Variable fileToDataUrl : File -> option string.
Variable dataUrlToFile : string -> string -> option File.
Variable createObjectURL : File -> string.

Definition serializeItem (m : MediaFile) : option SerializedMediaFile :=
  dataUrl ← fileToDataUrl (mf_file m);
  Some {| sm_id := mf_id m; sm_type := mf_type m;
          sm_name := file_name (mf_file m); sm_dataUrl := dataUrl;
          sm_caption := if is_image m then mf_caption m else None |}.

(** The audio, serialized: [None] when the reader fails. *)
Definition serializeAudio (a : option File)
  : option (option SerializedAudioFile) :=
  match a with
  | None => Some None
  | Some f =>
      dataUrl ← fileToDataUrl f;
      Some (Some {| sa_name := file_name f; sa_dataUrl := dataUrl |})
  end.

(** The entry written by a save. *)
Definition savedEntry (id name : string) (sm : list SerializedMediaFile)
    (sa : option SerializedAudioFile) (now : Z) (w : Workspace)
  : SavedSlideshow :=
  {| ss_id := id; ss_name := name; ss_media := sm; ss_audio := sa;
     ss_settings := currentSettings w; ss_timestamp := now |}.

(** The branch "Update existing" of [handleSaveSlideshow]. *)
Definition updateExisting (id name : string) (sm : list SerializedMediaFile)
    (sa : option SerializedAudioFile) (now : Z) (w : Workspace)
  : Workspace * list string :=
  (withLoading false
     (withSaved
        (List.map
           (fun s => if String.eqb (ss_id s) id
                     then savedEntry (ss_id s) name sm sa now w
                     else s)
           (savedSlideshows w))
        (activeSlideshowId w) w),
   [savedAlert name]).

(** The branch "Create new" of [handleSaveSlideshow]. *)
Definition createNew (name : string) (sm : list SerializedMediaFile)
    (sa : option SerializedAudioFile) (now : Z) (w : Workspace)
  : Workspace * list string :=
  if (MAX_SAVED_SLIDESHOWS <=? length (savedSlideshows w))%nat
  then (withLoading false w, [capAlert])
  else
    let newId := ("slideshow-" ++ string_of_Z now)%string in
    (withLoading false
       (withSaved
          (savedSlideshows w ++ [savedEntry newId name sm sa now w])
          (Some newId) w),
     [savedAlert name]).

(** [handleSaveSlideshow]; [promptAnswer] is what [window.prompt] returns
    when it is asked, [now] what [Date.now()] returns.  The result is the
    new state and the alerts shown. *)
Definition handleSaveSlideshow (promptAnswer : option string) (now : Z)
    (w : Workspace) : Workspace * list string :=
  let named :=
    if truthy (activeSlideshowId w) then Some (activeSlideshowName w)
    else if truthy promptAnswer then promptAnswer else None in
  match named with
  | None => (w, [])
  | Some slideshowName =>
      match mapM serializeItem (media w), serializeAudio (audioFile w) with
      | Some serializedMedia, Some serializedAudio =>
          match activeSlideshowId w with
          | Some id =>
              if truthy (Some id)
              then updateExisting id slideshowName serializedMedia
                     serializedAudio now w
              else createNew slideshowName serializedMedia serializedAudio
                     now w
          | None =>
              createNew slideshowName serializedMedia serializedAudio now w
          end
      | _, _ => (withLoading false w, [saveErrorAlert])
      end
  end.

(** [{ ...m, file, previewUrl }] for a saved item. *)
Definition loadItem (m : SerializedMediaFile) : option MediaFile :=
  file ← dataUrlToFile (sm_dataUrl m) (sm_name m);
  Some {| mf_id := sm_id m; mf_type := sm_type m; mf_file := file;
          mf_previewUrl := createObjectURL file;
          mf_caption := sm_caption m |}.

Definition loadAudio (a : option SerializedAudioFile)
  : option (option File) :=
  match a with
  | None => Some None
  | Some sa =>
      file ← dataUrlToFile (sa_dataUrl sa) (sa_name sa);
      Some (Some file)
  end.

(** [handleLoadSlideshow]. *)
Definition handleLoadSlideshow (id : string) (w : Workspace)
  : Workspace * list string :=
  match findSlideshow id (savedSlideshows w) with
  | None => (w, [])
  | Some slideshowToLoad =>
      let w1 := handleNewSlideshow w in
      match mapM loadItem (ss_media slideshowToLoad),
            loadAudio (ss_audio slideshowToLoad) with
      | Some loadedMedia, Some loadedAudio =>
          ({| media := loadedMedia; audioFile := loadedAudio;
              interval := st_interval (ss_settings slideshowToLoad);
              slideStyle := st_slideStyle (ss_settings slideshowToLoad);
              showClock := st_showClock (ss_settings slideshowToLoad);
              smartCaptionsEnabled :=
                st_smartCaptionsEnabled (ss_settings slideshowToLoad);
              captionStatus := captionStatus w1;
              savedSlideshows := savedSlideshows w1;
              activeSlideshowId := Some id;
              isLoading := false |}, [])
      | _, _ => (withLoading false w1, [loadErrorAlert])
      end
  end.

(** [handleDeleteSlideshow]; [confirmed] is the answer to
    [window.confirm]. *)
Definition handleDeleteSlideshow (id : string) (confirmed : bool)
    (w : Workspace) : Workspace :=
  match findSlideshow id (savedSlideshows w) with
  | None => w
  | Some _ =>
      if confirmed then
        let w1 :=
          withSaved
            (List.filter (fun s => negb (String.eqb (ss_id s) id))
               (savedSlideshows w))
            (activeSlideshowId w) w in
        match activeSlideshowId w with
        | Some active =>
            if String.eqb active id then handleNewSlideshow w1 else w1
        | None => w1
        end
      else w
  end.

End Handlers.

(** [savedSlideshows.sort((a,b) => b.timestamp - a.timestamp)]: newest
    first; entries of the same timestamp keep their order (the sort is
    stable). *)
Fixpoint insertByTimestamp (x : SavedSlideshow) (l : list SavedSlideshow)
  : list SavedSlideshow :=
  match l with
  | [] => [x]
  | y :: rest =>
      if ss_timestamp x <? ss_timestamp y
      then y :: insertByTimestamp x rest
      else x :: l
  end.

Definition sortNewestFirst (l : list SavedSlideshow) : list SavedSlideshow :=
  fold_right insertByTimestamp [] l.

(** The render of the section "My Slideshows": unless the editor is
    loading or has nothing saved, it lists the saved slideshows after
    sorting the state array in place. *)
Definition render (w : Workspace) : Workspace :=
  if negb (isLoading w) && (0 <? length (savedSlideshows w))%nat
  then withSaved (sortNewestFirst (savedSlideshows w))
         (activeSlideshowId w) w
  else w.

Definition newestFirst (l : list SavedSlideshow) : Prop :=
  StronglySorted (fun a b => ss_timestamp b <= ss_timestamp a) l.

(** The slideshow being edited is the same in two states. *)
Definition sameEditor (w w' : Workspace) : Prop :=
  media w' = media w /\ audioFile w' = audioFile w /\
  interval w' = interval w /\ slideStyle w' = slideStyle w /\
  showClock w' = showClock w /\
  smartCaptionsEnabled w' = smartCaptionsEnabled w /\
  captionStatus w' = captionStatus w.

(** The editor holds a new, empty slideshow. *)
Definition blankEditor (w : Workspace) : Prop :=
  media w = [] /\ audioFile w = None /\ interval w = 5 /\
  slideStyle w = "kenburns" /\ showClock w = true /\
  smartCaptionsEnabled w = false /\ captionStatus w = Captions.idle /\
  activeSlideshowId w = None.

(** What a saved item becomes when it is loaded back: the same id, type and
    file, a fresh preview URL, and the caption it was saved with. *)
Definition reloaded (createObjectURL : File -> string) (m : MediaFile)
  : MediaFile :=
  {| mf_id := mf_id m; mf_type := mf_type m; mf_file := mf_file m;
     mf_previewUrl := createObjectURL (mf_file m);
     mf_caption := if is_image m then mf_caption m else None |}.

(** *** Sample data *)

Definition sampleDecode (dataUrl name : string) : option File :=
  Some {| file_name := name; file_type := "image/png"; file_duration := 0 |}.

Definition sampleEncode (f : File) : option string :=
  Some ("data:" ++ file_type f ++ ";base64," ++ file_name f)%string.

Definition sampleWorkspace : Workspace :=
  {| media := Editing.fourItems; audioFile := None; interval := 7;
     slideStyle := "fade"; showClock := false;
     smartCaptionsEnabled := false; captionStatus := Captions.idle;
     savedSlideshows := []; activeSlideshowId := None;
     isLoading := false |}.

End Library.

(** * Verification *)

Lemma Qltb_lt (a b : Q) : Qltb a b = true <-> (a < b)%Q.
Proof.
  unfold Qltb. rewrite Qlt_alt. destruct (Qcompare a b); split; congruence.
Qed.

Lemma Qltb_ge (a b : Q) : Qltb a b = false <-> (b <= a)%Q.
Proof.
  split; intros H.
  - apply Qnot_lt_le. intros Hlt. apply Qltb_lt in Hlt. congruence.
  - destruct (Qltb a b) eqn:E; [|reflexivity].
    apply Qltb_lt in E. exfalso. exact (Qlt_not_le _ _ E H).
Qed.

Module AutoAdjustFacts.
Import AutoAdjust.

Lemma adjustedMessage_truthy n : truthy (Some (adjustedMessage n)) = true.
Proof. reflexivity. Qed.

Lemma calculateAndAdjust_outcome a vs n i note :
  Outcome i note (calculateAndAdjust a vs n i note).
Proof.
  unfold calculateAndAdjust.
  destruct (Qltb a _).
  - destruct (Qltb 0 _).
    + destruct (Z.eqb_spec (Z.max 1 (Qfloor ((a - totalDuration vs) / inject_Z n))) i);
        simpl; [constructor|].
      apply Adjust; [assumption | lia | apply adjustedMessage_truthy].
    + destruct (Z.eqb_spec i 1); simpl; [constructor|].
      apply Adjust; [congruence | lia | reflexivity].
  - destruct (truthy note) eqn:E; [apply ClearNotice; assumption | constructor].
Qed.

Lemma counts_fst_nonneg l a b :
  0 <= a -> 0 <= fst (fold_left
    (fun acc item =>
       (if is_image item then fst acc + 1 else fst acc,
        if is_video item then snd acc + 1 else snd acc)) l (a, b)).
Proof.
  revert a b. induction l as [|x l IH]; intros a b Ha; simpl; [exact Ha|].
  apply IH. destruct (is_image x); lia.
Qed.

Lemma imageCount_nonneg l : 0 <= imageCount l.
Proof. apply counts_fst_nonneg. lia. Qed.

(** C4. Every interval the controller writes is an integer that is at
    least 1, and starting from an interval that is at least 1 the interval
    after the computation is at least 1.  The synchronous part of the
    effect never writes the interval, and it starts the computation only
    with a positive number of images. *)
Theorem C4_interval_floor :
  (forall (audioDuration : Q) (videoDurations : list Q)
          (images currentInterval : Z) (note : option string),
     let ws :=
       calculateAndAdjust audioDuration videoDurations images currentInterval
         note in
     (forall n, In (SetIntervalValue n) ws -> 1 <= n) /\
     (1 <= currentInterval -> 1 <= intervalAfter ws currentInterval)) /\
  (forall s : App,
     (forall n, ~ In (SetIntervalValue n) (fst (autoAdjustEffect s))) /\
     (forall c, snd (autoAdjustEffect s) = Some c -> 0 < c_imageCount c)).
Proof.
  split.
  - intros a vs n i note ws. subst ws.
    destruct (calculateAndAdjust_outcome a vs n i note) as [|Ht|w m Hne Hw Hm].
    + split; [intros ? []|trivial].
    + split; [intros ? [H|[]]; discriminate|trivial].
    + split; [|trivial].
      intros k [H|[H|[H|[]]]]; try discriminate. injection H as <-. exact Hw.
  - intros s. unfold autoAdjustEffect.
    destruct (isAutoAdjusting s).
    { split; [intros n [H|[]]; discriminate|intros c H; discriminate]. }
    assert (Hclear : forall n,
      ~ In (SetIntervalValue n)
          (if truthy (adjustmentNotification s)
           then [SetAdjustmentNotification None] else [])).
    { intros n. destruct (truthy _); [intros [H|[]]; discriminate|intros []]. }
    destruct (audioFile s) as [a|].
    + destruct (Z.eqb_spec (imageCount (media s)) 0) as [E|E]; cbn [fst snd].
      * split; [exact Hclear|intros c H; discriminate].
      * split; [intros n []|].
        intros c H. injection H as <-. cbn.
        pose proof (imageCount_nonneg (media s)). lia.
    + cbn [fst snd]. split; [exact Hclear|intros c H; discriminate].
Qed.

Lemma C4_interval_floor_witness :
  1 <= intervalAfter (calculateAndAdjust 20 [] 10 5 None) 5.
Proof.
  apply (proj1 C4_interval_floor 20%Q [] 10 5 None). lia.
Defined.

(** The interval after the computation, branch by branch. *)
Lemma intervalAfter_calculateAndAdjust a vs n i note :
  intervalAfter (calculateAndAdjust a vs n i note) i =
  if Qltb a (inject_Z (n * i) + totalDuration vs) then
    if Qltb 0 (a - totalDuration vs)
    then Z.max 1 (Qfloor ((a - totalDuration vs) / inject_Z n))
    else 1
  else i.
Proof.
  unfold calculateAndAdjust.
  destruct (Qltb a _).
  - destruct (Qltb 0 _).
    + destruct (Z.eqb_spec (Z.max 1 (Qfloor ((a - totalDuration vs) / inject_Z n))) i);
        cbn [negb intervalAfter fold_left]; congruence.
    + destruct (Z.eqb_spec i 1); cbn [negb intervalAfter fold_left]; congruence.
  - destruct (truthy note); reflexivity.
Qed.

(** C5. The computation is idempotent on the interval: applied again with
    the interval it produced (same images, video durations and audio
    duration), it leaves that interval as it is. *)
Theorem C5_idempotent :
  forall (audioDuration : Q) (videoDurations : list Q)
         (images currentInterval : Z) (note note' : option string),
    let i :=
      intervalAfter
        (calculateAndAdjust audioDuration videoDurations images
           currentInterval note) currentInterval in
    intervalAfter
      (calculateAndAdjust audioDuration videoDurations images i note') i = i.
Proof.
  intros a vs n i0 note note' i.
  rewrite intervalAfter_calculateAndAdjust.
  subst i. rewrite intervalAfter_calculateAndAdjust.
  destruct (Qltb a (inject_Z (n * i0) + totalDuration vs)) eqn:E1.
  - destruct (Qltb 0 (a - totalDuration vs));
      match goal with |- (if ?b then _ else _) = _ => destruct b end;
      reflexivity.
  - rewrite E1. reflexivity.
Qed.

Lemma published_truthy note :
  published note -> note <> None -> truthy note = true.
Proof.
  intros [->|[->|[n ->]]] H; [contradiction|reflexivity|reflexivity].
Qed.

(** C6. When the audio is at least as long as the current visual duration
    the computation leaves the interval as it is and the notice is null
    afterwards, whatever notice was shown before. *)
Theorem C6_no_op :
  forall (audioDuration : Q) (videoDurations : list Q)
         (images currentInterval : Z) (note : option string),
    published note ->
    (inject_Z (images * currentInterval) + totalDuration videoDurations
       <= audioDuration)%Q ->
    let ws :=
      calculateAndAdjust audioDuration videoDurations images currentInterval
        note in
    intervalAfter ws currentInterval = currentInterval /\
    noticeAfter ws note = None /\
    (forall n, ~ In (SetIntervalValue n) ws).
Proof.
  intros a vs n i note Hp Hle ws. subst ws.
  apply Qltb_ge in Hle.
  unfold calculateAndAdjust. rewrite Hle.
  destruct note as [m|].
  - rewrite (published_truthy (Some m) Hp) by discriminate. simpl.
    repeat split. intros k [H|[]]; discriminate.
  - simpl. repeat split. intros k [].
Qed.

Lemma C6_no_op_witness :
  intervalAfter (calculateAndAdjust 60 [] 5 5 (Some shorterMessage)) 5 = 5 /\
  noticeAfter (calculateAndAdjust 60 [] 5 5 (Some shorterMessage))
    (Some shorterMessage) = None.
Proof.
  destruct (C6_no_op 60%Q [] 5 5 (Some shorterMessage)) as (H1 & H2 & _).
  - right; left; reflexivity.
  - vm_compute. discriminate.
  - split; [exact H1|exact H2].
Defined.

Lemma stateChanged_false s s' :
  interval s = interval s' ->
  adjustmentNotification s = adjustmentNotification s' ->
  stateChanged s s' = false.
Proof.
  intros Hi Hn. unfold stateChanged.
  rewrite Hi, Z.eqb_refl, Hn, bool_decide_true by reflexivity. reflexivity.
Qed.

(** The effect with the flag set: the flag is consumed and nothing else
    happens. *)
Lemma runEffect_consume fuel sys :
  isAutoAdjusting (app sys) = true ->
  runEffect (S fuel) sys =
  Some {| app := apply_write (SetIsAutoAdjusting false) (app sys);
          pending := pending sys ++ [];
          log := log sys ++ [SetIsAutoAdjusting false] |}.
Proof.
  intros H. simpl. unfold autoAdjustEffect. rewrite H. simpl.
  rewrite stateChanged_false; reflexivity.
Qed.


Lemma effect_gated s :
  isAutoAdjusting s = false -> gated s = true ->
  autoAdjustEffect s =
  (if truthy (adjustmentNotification s)
   then [SetAdjustmentNotification None] else [], None).
Proof.
  unfold autoAdjustEffect, gated. intros -> H.
  destruct (audioFile s); [rewrite H|]; reflexivity.
Qed.

Lemma effect_spawn s a :
  isAutoAdjusting s = false -> audioFile s = Some a ->
  imageCount (media s) <> 0 ->
  autoAdjustEffect s = ([], Some (closureOf s a)).
Proof.
  unfold autoAdjustEffect. intros -> -> H.
  destruct (Z.eqb_spec (imageCount (media s)) 0); [contradiction|reflexivity].
Qed.

Lemma gated_false s :
  gated s = false ->
  exists a, audioFile s = Some a /\ imageCount (media s) <> 0.
Proof.
  unfold gated. destruct (audioFile s) as [a|]; [|discriminate].
  intros H. exists a. split; [reflexivity|].
  destruct (Z.eqb_spec (imageCount (media s)) 0); [discriminate|assumption].
Qed.


(** The effect always comes to rest within two invocations, and only ever
    adds to the computations in flight. *)
Lemma runEffect_total sys :
  exists sys' extra,
    runEffect 2 sys = Some sys' /\
    pending sys' = pending sys ++ extra /\
    (isAutoAdjusting (app sys) = true ->
     interval (app sys') = interval (app sys) /\
     adjustmentNotification (app sys') = adjustmentNotification (app sys)).
Proof.
  destruct (isAutoAdjusting (app sys)) eqn:Hflag.
  - rewrite runEffect_consume by exact Hflag.
    eexists; exists []. cbn. auto.
  - cbn [runEffect app pending log].
    destruct (gated (app sys)) eqn:Hg.
    + rewrite (effect_gated _ Hflag Hg).
      destruct (truthy (adjustmentNotification (app sys))).
      * set (s1 := apply_writes [SetAdjustmentNotification None] (app sys)).
        assert (H1 : autoAdjustEffect s1 = ([], None)).
        { rewrite effect_gated; [reflexivity|exact Hflag|exact Hg]. }
        destruct (stateChanged (app sys) s1).
        -- rewrite H1. cbn [apply_writes fold_left].
           rewrite stateChanged_false by reflexivity.
           eexists; exists []. cbn. rewrite !app_nil_r.
           repeat split; discriminate.
        -- eexists; exists []. cbn. repeat split; discriminate.
      * cbn [apply_writes fold_left].
        rewrite stateChanged_false by reflexivity.
        eexists; exists []. cbn. repeat split; discriminate.
    + destruct (gated_false _ Hg) as (a & Ha & Hn).
      rewrite (effect_spawn _ a Hflag Ha Hn).
      cbn [apply_writes fold_left].
      rewrite stateChanged_false by reflexivity.
      eexists; eexists. cbn. repeat split; discriminate.
Qed.

(** A computation in flight that resolves with an adjustment has its
    interval and notice applied, whatever the state is by then. *)
Lemma resolveStep_adjust sys k c n m :
  pending sys !! k = Some c ->
  resolve c = [SetIsAutoAdjusting true; SetIntervalValue n;
               SetAdjustmentNotification (Some m)] ->
  exists sys',
    resolveStep 2 k sys = Some sys' /\
    interval (app sys') = n /\
    adjustmentNotification (app sys') = Some m.
Proof.
  intros Hk Hr. unfold resolveStep. rewrite Hk, Hr.
  match goal with |- context [if ?b then _ else _] => destruct b end.
  - rewrite runEffect_consume by reflexivity.
    eexists. split; [reflexivity|]. cbn. auto.
  - eexists. split; [reflexivity|]. cbn. auto.
Qed.

Lemma resolveStep_total sys k c :
  pending sys !! k = Some c ->
  exists sys' extra,
    resolveStep 2 k sys = Some sys' /\
    pending sys' = delete k (pending sys) ++ extra.
Proof.
  intros Hk. unfold resolveStep. rewrite Hk.
  match goal with |- context [if ?b then _ else _] => destruct b end.
  - match goal with |- context [runEffect 2 ?x] =>
      destruct (runEffect_total x) as (sys' & extra & H1 & H2 & _) end.
    exists sys', extra. split; [exact H1|exact H2].
  - eexists; exists []. cbn. rewrite app_nil_r. auto.
Qed.



(** C2 as stated does not hold: ten images at interval 5 with a 20s song;
    while that run probes, the song is replaced by a 60s one, for which no
    adjustment is due.  The run for the 60s song resolves first and the
    run for the 20s song last: the interval ends at 2 with the adjustment
    notice, where the most recent inputs alone give interval 5 and no
    notice. *)
Lemma C2_stale_run_overwrites : ~ StaleResultsDiscarded.
Proof.
  intros H.
  specialize (H tenImages20s (NewAudio (Some (sampleAudio 60))) 1%nat
                eq_refl).
  assert (Hlt : (1 < 2)%nat) by lia.
  specialize (H Hlt). vm_compute in H. discriminate.
Qed.

(** C2, amended.  Nothing is discarded: each of two overlapping runs, in
    whichever order they resolve, applies what it computed from the inputs
    it captured when it started.  When the run that resolves last yields an
    adjustment, the interval and the notice shown in the end are the ones
    of that run, also when it is the run started from the older inputs. *)
Theorem C2_last_resolved_run_wins :
  forall (sys : Sys) (c1 c2 : Closure) (first : nat) (n : Z) (m : string),
    pending sys = [c1; c2] ->
    (first < 2)%nat ->
    resolve (if Nat.eqb first 0 then c2 else c1) =
      [SetIsAutoAdjusting true; SetIntervalValue n;
       SetAdjustmentNotification (Some m)] ->
    exists sys1 sys2,
      resolveStep 2 first sys = Some sys1 /\
      resolveStep 2 0 sys1 = Some sys2 /\
      interval (app sys2) = n /\
      adjustmentNotification (app sys2) = Some m.
Proof.
  intros sys c1 c2 first n m Hp Hlt Hr.
  assert (Hk : exists c, pending sys !! first = Some c /\
             delete first (pending sys)
             = [if Nat.eqb first 0 then c2 else c1]).
  { rewrite Hp. destruct first as [|[|k]]; [eexists; split; reflexivity..|lia]. }
  destruct Hk as (c & Hc & Hd).
  destruct (resolveStep_total sys first c Hc) as (sys1 & extra & H1 & H2).
  rewrite Hd in H2.
  destruct (resolveStep_adjust sys1 0 _ n m (f_equal (fun l => l !! 0%nat) H2) Hr)
    as (sys2 & H3 & H4 & H5).
  exists sys1, sys2. auto.
Qed.

Lemma C2_last_resolved_run_wins_witness :
  exists sys1 sys2,
    resolveStep 2 1 twoInFlight = Some sys1 /\
    resolveStep 2 0 sys1 = Some sys2 /\
    interval (app sys2) = 2 /\
    adjustmentNotification (app sys2) = Some (adjustedMessage 2).
Proof.
  apply (C2_last_resolved_run_wins twoInFlight
           (closureOf tenImages20s (sampleAudio 20))
           (closureOf songReplaced (sampleAudio 60)) 1 2 (adjustedMessage 2)).
  - reflexivity.
  - lia.
  - reflexivity.
Defined.

End AutoAdjustFacts.

(** ** Facts about the computation in binary64 *)

Module Float64Facts.
Import Float64.

(** The rounding of the engine decides the branch.  One image at interval
    5 with a clip of 1.6s and a song of 6.6s: [5 + 1.6] rounds to 6.6, the
    song is not shorter, nothing is written.  Ten images at interval 5
    with a clip of 0.7s and a song of 20.7s: [20.7 - 0.7] rounds to 20, the
    interval written is 2. *)
Example calculateAndAdjust_rounds :
  calculateAndAdjust integerToString (decimal 66) [decimal 16] 1
    (Player.float_of_Z 5) None = [] /\
  calculateAndAdjust integerToString (decimal 207) [decimal 7] 10
    (Player.float_of_Z 5) None
  = [SetIsAutoAdjusting true; SetIntervalValue (Player.float_of_Z 2);
     SetAdjustmentNotification
       (Some "Slide speed automatically adjusted to 2s to match song length.")].
Proof. split; vm_compute; reflexivity. Qed.



End Float64Facts.

Module PlayerFacts.
Import Player.

(** C7 as stated does not hold: a player showing a single video renders
    the video element with its ended-handler attached. *)
Lemma C7_single_video_listens : ~ NothingArmedForSingleItem.
Proof.
  intros H. specialize (H singleVideo eq_refl eq_refl). discriminate H.
Qed.

Lemma advanceSlide_single item (p : Player Q) k :
  media p = [item] -> currentIndex p = 0%nat ->
  currentIndex (Nat.iter k advanceSlide p) = 0%nat /\
  media (Nat.iter k advanceSlide p) = [item].
Proof.
  intros Hm Hi. induction k as [|k [IH1 IH2]]; [auto|].
  change (Nat.iter (S k) advanceSlide p)
    with (advanceSlide (Nat.iter k advanceSlide p)).
  set (q := Nat.iter k advanceSlide p) in *.
  unfold advanceSlide. cbn [currentIndex media].
  rewrite IH1, IH2. auto.
Qed.

(** C7, amended.  With exactly one item no slide timer is set.  A single
    image has nothing armed at all.  A single video still has the
    ended-handler of its video element attached, and nothing else; when it
    fires the index stays 0.  So the single item stays the current one,
    however often [advanceSlide] runs. *)
Theorem C7_single_item_stays :
  forall (p : Player Q) (item : MediaFile),
    media p = [item] -> currentIndex p = 0%nat ->
    slideTimerEffect p = None /\
    (is_image item = true -> armed p = []) /\
    (is_video item = true -> armed p = [VideoEnded]) /\
    (forall k,
       currentIndex (Nat.iter k advanceSlide p) = 0%nat /\
       media (Nat.iter k advanceSlide p) = [item]).
Proof.
  intros p item Hm Hi.
  assert (Ht : slideTimerEffect p = None).
  { unfold slideTimerEffect. rewrite Hm. reflexivity. }
  split; [exact Ht|].
  unfold armed, videoOnEnded. rewrite Ht, Hm, Hi. cbn.
  split; [|split].
  - unfold is_image, is_video. destruct (mf_type item); [reflexivity|discriminate].
  - intros ->. reflexivity.
  - intros k. apply advanceSlide_single; assumption.
Qed.

Lemma C7_single_item_stays_witness :
  armed singleVideo = [VideoEnded] /\
  currentIndex (Nat.iter 3 advanceSlide singleVideo) = 0%nat.
Proof.
  destruct (C7_single_item_stays singleVideo sampleVideo eq_refl eq_refl)
    as (_ & _ & Hv & Hk).
  split; [exact (Hv eq_refl)|exact (proj1 (Hk 3%nat))].
Defined.

End PlayerFacts.

Module CaptionFacts.
Import Captions.

Section Loop.

Variable trim : string -> string.
Variable service : File -> option string.

Lemma captioned_file item : mf_file (captioned trim service item) = mf_file item.
Proof. unfold captioned. destruct (service _); reflexivity. Qed.

Lemma captioned_idem item :
  captioned trim service (captioned trim service item) = captioned trim service item.
Proof.
  unfold captioned at 1. rewrite captioned_file.
  unfold captioned. destruct (service (mf_file item)); reflexivity.
Qed.

(** Writing a caption on the object at [l0]. *)
Section Update.

Variables (st : gmap nat MediaFile) (l0 : nat) (o0 : MediaFile) (c : string).
Hypothesis at_l0 : st !! l0 = Some o0.

Let st1 : gmap nat MediaFile := <[l0 := withCaption o0 c]> st.

Lemma update_lookup l o :
  st !! l = Some o ->
  exists o1, st1 !! l = Some o1 /\ mf_id o1 = mf_id o /\
             mf_file o1 = mf_file o /\ is_image o1 = is_image o.
Proof.
  intros H. unfold st1. destruct (decide (l0 = l)) as [->|Hne].
  - rewrite lookup_insert_eq. rewrite at_l0 in H. injection H as <-.
    eexists. split; [reflexivity|]. auto.
  - rewrite lookup_insert_ne by exact Hne. exists o. auto.
Qed.

Lemma update_none l : st !! l = None -> st1 !! l = None.
Proof.
  intros H. unfold st1. rewrite lookup_insert_ne; [exact H|].
  intros ->. rewrite at_l0 in H. discriminate.
Qed.

Lemma update_idOf l : idOf st1 l = idOf st l.
Proof.
  unfold idOf. destruct (st !! l) as [o|] eqn:E.
  - destruct (update_lookup l o E) as (o1 & -> & Hid & _). exact Hid.
  - rewrite (update_none l E). reflexivity.
Qed.

Lemma update_answered todo :
  answered service st1 todo = answered service st todo.
Proof.
  induction todo as [|l rest IH]; [reflexivity|]. cbn [answered].
  destruct (st !! l) as [o|] eqn:E.
  - destruct (update_lookup l o E) as (o1 & -> & _ & Hf & _). rewrite Hf.
    destruct (service (mf_file o)); [rewrite IH|]; reflexivity.
  - rewrite (update_none l E). reflexivity.
Qed.

End Update.

(** With unique ids, looking an object up by its id finds the object. *)
Lemma findIndex_self st um l o :
  (forall l', In l' um -> is_Some (st !! l')) ->
  List.NoDup (List.map (idOf st) um) ->
  In l um -> st !! l = Some o ->
  exists index, findIndex st (mf_id o) um = Some index /\ um !! index = Some l.
Proof.
  intros Hwf Hnd Hin Hl. induction um as [|l1 rest IH]; [destruct Hin|].
  cbn [findIndex]. inversion Hnd as [|? ? Hnotin Hnd']; subst.
  destruct (Hwf l1 (or_introl eq_refl)) as [o1 Ho1]. rewrite Ho1.
  destruct (String.eqb_spec (mf_id o1) (mf_id o)) as [E|E].
  - exists 0%nat. split; [reflexivity|]. cbn.
    destruct Hin as [->|Hin]; [reflexivity|]. exfalso. apply Hnotin.
    apply in_map_iff. exists l. split; [|exact Hin].
    unfold idOf. rewrite Hl, Ho1. symmetry. exact E.
  - destruct Hin as [->|Hin]; [rewrite Hl in Ho1; congruence|].
    destruct IH as (index & Hf & Hi); [|exact Hnd'|exact Hin|].
    + intros l' Hl'. apply Hwf. right. exact Hl'.
    + exists (S index). rewrite Hf. split; [reflexivity|exact Hi].
Qed.

Lemma writeCaption_self st um l o text :
  (forall l', In l' um -> is_Some (st !! l')) ->
  List.NoDup (List.map (idOf st) um) ->
  In l um -> st !! l = Some o -> is_image o = true ->
  writeCaption trim st um (mf_id o) text = <[l := withCaption o (trim text)]> st.
Proof.
  intros Hwf Hnd Hin Hl Himg. unfold writeCaption.
  destruct (findIndex_self st um l o Hwf Hnd Hin Hl) as (index & -> & ->).
  rewrite Hl, Himg. reflexivity.
Qed.

Lemma answered_inv st todo l :
  In l (answered service st todo) ->
  In l todo /\
  exists o text, st !! l = Some o /\ service (mf_file o) = Some text.
Proof.
  induction todo as [|l1 rest IH]; [intros []|]. cbn [answered].
  destruct (st !! l1) as [o1|] eqn:E; [|intros []].
  destruct (service (mf_file o1)) as [t|] eqn:Es; [|intros []].
  intros [<-|Hin].
  - split; [left; reflexivity|]. exists o1, t. auto.
  - destruct (IH Hin) as [H1 H2]. split; [right; exact H1|exact H2].
Qed.

(** The loop: it runs to its end only when every call answers, and the
    store it leaves differs from the one it started with exactly by the
    captions of the images whose call answered before the first failure. *)
Lemma captionLoop_spec um todo : forall st,
  (forall l, In l um -> is_Some (st !! l)) ->
  List.NoDup (List.map (idOf st) um) ->
  (forall l, In l todo ->
     In l um /\ exists o, st !! l = Some o /\ is_image o = true) ->
  exists st' ok,
    captionLoop trim service um todo st = (st', ok) /\
    (ok = true -> answered service st todo = todo) /\
    (forall l, In l (answered service st todo) ->
               st' !! l = captioned trim service <$> st !! l) /\
    (forall l, ~ In l (answered service st todo) -> st' !! l = st !! l).
Proof.
  induction todo as [|l0 rest IH]; intros st Hwf Hnd Htodo.
  - exists st, true. cbn. repeat split; auto. intros l [].
  - destruct (Htodo l0 (or_introl eq_refl)) as (Hin0 & o0 & Ho0 & Himg0).
    cbn [captionLoop answered]. rewrite Ho0.
    destruct (service (mf_file o0)) as [t|] eqn:Es.
    + rewrite (writeCaption_self st um l0 o0 t Hwf Hnd Hin0 Ho0 Himg0).
      set (st1 := <[l0 := withCaption o0 (trim t)]> st).
      assert (Hcap : withCaption o0 (trim t) = captioned trim service o0).
      { unfold captioned. rewrite Es. reflexivity. }
      destruct (IH st1) as (st' & ok & Hloop & Hok & Hin & Hout).
      * intros l Hl. destruct (Hwf l Hl) as [o Ho].
        destruct (update_lookup st l0 o0 (trim t) Ho0 l o Ho) as (o1 & H1 & _).
        exists o1. exact H1.
      * erewrite map_ext; [exact Hnd|].
        intros l. apply update_idOf. exact Ho0.
      * intros l Hl. destruct (Htodo l (or_intror Hl)) as (H1 & o & Ho & Hi).
        split; [exact H1|].
        destruct (update_lookup st l0 o0 (trim t) Ho0 l o Ho)
          as (o1 & H2 & _ & _ & H3).
        exists o1. split; [exact H2|congruence].
      * rewrite (update_answered st l0 o0 (trim t) Ho0) in Hok, Hin, Hout.
        exists st', ok. split; [exact Hloop|]. split; [|split].
        -- intros H. rewrite (Hok H). reflexivity.
        -- intros l [<-|Hl].
           ++ rewrite Ho0. cbn [fmap option_fmap option_map].
              destruct (in_dec Nat.eq_dec l0 (answered service st rest)) as [Hy|Hn].
              ** rewrite (Hin l0 Hy). unfold st1. rewrite lookup_insert_eq.
                 cbn. rewrite Hcap, captioned_idem. reflexivity.
              ** rewrite (Hout l0 Hn). unfold st1. rewrite lookup_insert_eq.
                 rewrite Hcap. reflexivity.
           ++ rewrite (Hin l Hl). unfold st1.
              destruct (decide (l0 = l)) as [<-|Hne].
              ** rewrite lookup_insert_eq, Ho0. cbn.
                 rewrite Hcap, captioned_idem. reflexivity.
              ** rewrite lookup_insert_ne by exact Hne. reflexivity.
        -- intros l Hl. rewrite Hout by (intros H; apply Hl; right; exact H).
           unfold st1. rewrite lookup_insert_ne; [reflexivity|].
           intros <-. apply Hl. left. reflexivity.
    + exists st, false. split; [reflexivity|]. split; [discriminate|].
      split; [intros l []|reflexivity].
Qed.

End Loop.

Lemma imagesToCaption_inv e l :
  In l (imagesToCaption e) ->
  In l (media e) /\
  exists o, store e !! l = Some o /\ is_image o = true /\
            truthy (mf_caption o) = false.
Proof.
  unfold imagesToCaption. rewrite filter_In. intros [Hin Hn].
  split; [exact Hin|]. unfold needsCaption in Hn.
  destruct (store e !! l) as [o|]; [|discriminate].
  exists o. apply andb_true_iff in Hn. destruct Hn as [H1 H2].
  apply negb_true_iff in H2. auto.
Qed.

(** C9 as stated does not hold.  Two items share an id; the first was
    captioned earlier, the second is answered in the pass that then fails
    on a third image.  The answer is written on the first object found
    under the id: the earlier caption is overwritten, and the answered
    image is left without a caption. *)
Lemma C9_shared_id_overwrites : ~ FailedPassKeepsCaptions.
Proof.
  intros H.
  destruct (H trimLatin1 (Some "key") dogService twins) as (_ & _ & Hkeep).
  - intros l Hl. cbn in Hl.
    destruct Hl as [<-|[<-|[<-|[]]]]; eexists; reflexivity.
  - split; [reflexivity|]. split; [discriminate|]. split; [reflexivity|].
    split; [discriminate|]. right.
    exists 2%nat, (upload7 "c.jpg" None).
    split; [right; left; reflexivity|]. split; reflexivity.
  - destruct (Hkeep 0%nat (upload7 "a.jpg" (Some "Written earlier.")))
      as (item' & Hitem' & Hearlier & _).
    + left. reflexivity.
    + reflexivity.
    + vm_compute in Hitem'. injection Hitem' as <-.
      specialize (Hearlier eq_refl). discriminate Hearlier.
Qed.

(** C9, amended.  Provided the ids of the media items are distinct: when a
    pass of caption generation fails (the key is missing, or the caption
    call throws for some image), the status becomes [error], the media
    array is the same array of the same objects, and every object keeps its
    id, type, file and preview.  A caption written by an earlier pass
    stays; every image whose call answered before the failure carries the
    trimmed text it was answered; every other object is unchanged. *)
Theorem C9_failed_pass_keeps_captions :
  forall (trim : string -> string) (apiKey : option string)
         (service : File -> option string) (e : Editor),
    wellFormed e -> passFails apiKey service e ->
    let e' := generateCaptions trim apiKey service e in
    captionStatus e' = error /\
    media e' = media e /\
    (forall l, store e !! l = None -> store e' !! l = None) /\
    (forall l item,
       store e !! l = Some item ->
       exists item',
         store e' !! l = Some item' /\
         mf_id item' = mf_id item /\ mf_type item' = mf_type item /\
         mf_file item' = mf_file item /\
         mf_previewUrl item' = mf_previewUrl item /\
         (truthy (mf_caption item) = true ->
          mf_caption item' = mf_caption item) /\
         (In l (obtained apiKey service e) ->
          exists text, service (mf_file item) = Some text /\
                       mf_caption item' = Some (trim text)) /\
         (~ In l (obtained apiKey service e) -> item' = item)).
Proof.
  intros trim apiKey service e [Hwf Hnd] (Hs & Hg & Ha & Htodo & Hfail) e'.
  subst e'. unfold generateCaptions, obtained.
  rewrite Hs, Ha. cbn [negb orb].
  assert (Hgen : isGenerating (captionStatus e) = false)
    by (destruct (captionStatus e); [reflexivity|contradiction|reflexivity..]).
  rewrite Hgen. cbn [orb].
  destruct (imagesToCaption e) as [|l0 rest] eqn:Etodo; [contradiction|].
  cbn [length Nat.eqb]. rewrite <- Etodo in *. clear Etodo l0 rest.
  destruct (truthy apiKey) eqn:Ek; cbn [negb].
  - destruct Hfail as [Hf|(lf & itemf & Hlf & Hitemf & Hthrows)];
      [discriminate|].
    destruct (captionLoop_spec trim service (media e) (imagesToCaption e)
                (store e) Hwf Hnd) as (st' & ok & Hloop & Hok & Hin & Hout).
    { intros l Hl. destruct (imagesToCaption_inv e l Hl) as (H1 & o & H2 & H3 & _).
      split; [exact H1|]. exists o. auto. }
    rewrite Hloop.
    assert (ok = false) as ->.
    { destruct ok; [|reflexivity]. exfalso.
      rewrite <- (Hok eq_refl) in Hlf.
      destruct (answered_inv service _ _ _ Hlf) as (_ & o & t & Ho & Ht).
      congruence. }
    cbn [withStatus captionStatus media store].
    split; [reflexivity|]. split; [reflexivity|]. split.
    + intros l Hl.
      destruct (in_dec Nat.eq_dec l (answered service (store e) (imagesToCaption e)))
        as [Hy|Hn].
      * rewrite (Hin l Hy), Hl. reflexivity.
      * rewrite (Hout l Hn). exact Hl.
    + intros l item Hl.
      destruct (in_dec Nat.eq_dec l (answered service (store e) (imagesToCaption e)))
        as [Hy|Hn].
      * destruct (answered_inv service _ _ _ Hy) as (Hy1 & o & t & Ho & Ht).
        destruct (imagesToCaption_inv e l Hy1) as (_ & o' & Ho' & _ & Hfalsy).
        assert (o = item) by congruence. assert (o' = item) by congruence.
        subst o o'.
        exists (withCaption item (trim t)).
        split; [rewrite (Hin l Hy), Hl; unfold captioned; cbn; rewrite Ht;
                reflexivity|].
        repeat split; try reflexivity.
        -- intros Htr. congruence.
        -- intros _. exists t. auto.
        -- intros Hno. contradiction.
      * exists item. split; [rewrite (Hout l Hn); exact Hl|].
        repeat split; try reflexivity. intros Hy. contradiction.
  - cbn [withStatus captionStatus media store].
    split; [reflexivity|]. split; [reflexivity|]. split; [auto|].
    intros l item Hl. exists item. split; [exact Hl|].
    repeat split; try reflexivity. intros [].
Qed.

Lemma C9_failed_pass_keeps_captions_witness :
  captionStatus
    (generateCaptions trimLatin1 (Some "key") flakyService threePhotos)
    = error /\
  media (generateCaptions trimLatin1 (Some "key") flakyService threePhotos)
    = media threePhotos.
Proof.
  destruct (C9_failed_pass_keeps_captions trimLatin1 (Some "key")
              flakyService threePhotos)
    as (H1 & H2 & _).
  - split.
    + intros l Hl. cbn in Hl.
      destruct Hl as [<-|[<-|[<-|[]]]]; eexists; reflexivity.
    + cbn. repeat constructor; cbn; intuition discriminate.
  - split; [reflexivity|]. split; [discriminate|]. split; [reflexivity|].
    split; [discriminate|]. right.
    exists 2%nat, (photo "c.jpg" None).
    split; [right; left; reflexivity|]. split; reflexivity.
  - split; [exact H1|exact H2].
Defined.

End CaptionFacts.

Module UploadFacts.
Import Upload.

Lemma countImages_snoc l x :
  countImages (l ++ [x]) =
  (countImages l + (if is_image x then 1 else 0))%nat.
Proof.
  unfold countImages. rewrite List.filter_app, length_app. cbn.
  destruct (is_image x); reflexivity.
Qed.

Lemma countVideos_snoc l x :
  countVideos (l ++ [x]) =
  (countVideos l + (if is_video x then 1 else 0))%nat.
Proof.
  unfold countVideos. rewrite List.filter_app, length_app. cbn.
  destruct (is_video x); reflexivity.
Qed.

Section Handler.

Variable Date_now : nat -> Z.
Variable createObjectURL : File -> string.

Local Abbreviation processFiles := (processFiles Date_now createObjectURL).
Local Abbreviation claimedFiles := (claimedFiles Date_now createObjectURL).
Local Abbreviation newItem := (newItem Date_now createObjectURL).

(** The loop does to the batch what the described handling does to the
    batch cut after the first image beyond the cap. *)
Lemma processFiles_upToCap files : forall k um al,
  processFiles files k um al =
  claimedFiles (upToCap (countImages um) files) k um al.
Proof.
  induction files as [|f rest IH]; intros k um al; [reflexivity|].
  cbn [processFiles upToCap].
  destruct (startsWith "image/" (file_type f)) eqn:Ei.
  - destruct (countImages um <? MAX_IMAGES)%nat eqn:Ec.
    + cbn [claimedFiles]. rewrite Ei, Ec, IH, countImages_snoc.
      cbn. rewrite Nat.add_1_r. reflexivity.
    + cbn [claimedFiles]. rewrite Ei, Ec. reflexivity.
  - cbn [claimedFiles]. rewrite Ei.
    destruct (startsWith "video/" (file_type f)); [|apply IH].
    destruct (countVideos um <? MAX_VIDEOS)%nat; [|apply IH].
    destruct (Qltb _ _); [apply IH|].
    rewrite IH, countImages_snoc. cbn. rewrite Nat.add_0_r. reflexivity.
Qed.

(** What the loop leaves: the list it started with, followed by admissible
    items made from files of the batch, in the order of the batch; the
    caps hold; every alert is one of the three messages. *)
Lemma processFiles_result files : forall k um al,
  exists added more,
    processFiles files k um al = (um ++ added, al ++ more) /\
    sublist (List.map mf_file added) files /\
    (forall item, In item added -> admissible item) /\
    (countImages (um ++ added) <= Nat.max MAX_IMAGES (countImages um))%nat /\
    (countVideos (um ++ added) <= Nat.max MAX_VIDEOS (countVideos um))%nat /\
    (forall a, In a more ->
       a = imagesAlert \/ a = videosAlert \/
       exists f, In f files /\ a = durationAlert (file_name f)).
Proof.
  induction files as [|f rest IH]; intros k um al.
  - exists [], []. cbn. rewrite !app_nil_r.
    repeat split; try constructor; try lia; intros ? [].
  - cbn [processFiles].
    destruct (startsWith "image/" (file_type f)) eqn:Ei.
    + destruct (Nat.ltb_spec (countImages um) MAX_IMAGES) as [Ec|Ec].
      * destruct (IH (S k) (um ++ [newItem image f k]) al)
          as (added & more & Hr & Hs & Ha & Hi & Hv & Hm).
        exists (newItem image f k :: added), more.
        rewrite <- !app_assoc in *. cbn [app] in *.
        rewrite countImages_snoc, countVideos_snoc in *. cbn in Hi, Hv.
        split; [exact Hr|]. split; [cbn; constructor; exact Hs|].
        split; [intros item [<-|H]; [exact Ei|auto]|].
        split; [lia|]. split; [lia|].
        intros a H. destruct (Hm a H) as [?|[?|(f' & ? & ?)]]; eauto 6 using in_cons.
      * exists [], [imagesAlert]. rewrite !app_nil_r.
        split; [reflexivity|]. split; [apply sublist_nil_l|].
        split; [intros ? []|]. split; [lia|]. split; [lia|].
        intros a [<-|[]]. auto.
    + destruct (startsWith "video/" (file_type f)) eqn:Ev.
      * destruct (Nat.ltb_spec (countVideos um) MAX_VIDEOS) as [Ec|Ec].
        -- destruct (Qltb (inject_Z MAX_VIDEO_DURATION) (file_duration f)) eqn:Ed.
           ++ destruct (IH (S k) um (al ++ [durationAlert (file_name f)]))
                as (added & more & Hr & Hs & Ha & Hi & Hv & Hm).
              exists added, (durationAlert (file_name f) :: more).
              rewrite <- app_assoc in Hr. cbn [app] in Hr.
              split; [exact Hr|]. split; [constructor; exact Hs|].
              split; [exact Ha|]. split; [exact Hi|]. split; [exact Hv|].
              intros a [<-|H].
              ** right; right. exists f. split; [left|]; reflexivity.
              ** destruct (Hm a H) as [?|[?|(f' & ? & ?)]]; eauto 6 using in_cons.
           ++ apply Qltb_ge in Ed.
              destruct (IH (S k) (um ++ [newItem video f k]) al)
                as (added & more & Hr & Hs & Ha & Hi & Hv & Hm).
              exists (newItem video f k :: added), more.
              rewrite <- !app_assoc in *. cbn [app] in *.
              rewrite countImages_snoc, countVideos_snoc in *. cbn in Hi, Hv.
              unfold MAX_VIDEOS in *.
              split; [exact Hr|]. split; [cbn; constructor; exact Hs|].
              split; [intros item [<-|H]; [split; [exact Ev|exact Ed]|auto]|].
              split; [lia|]. split; [lia|].
              intros a H. destruct (Hm a H) as [?|[?|(f' & ? & ?)]]; eauto 6 using in_cons.
        -- destruct (IH (S k) um (al ++ [videosAlert]))
             as (added & more & Hr & Hs & Ha & Hi & Hv & Hm).
           exists added, (videosAlert :: more).
           rewrite <- app_assoc in Hr. cbn [app] in Hr.
           split; [exact Hr|]. split; [constructor; exact Hs|].
           split; [exact Ha|]. split; [exact Hi|]. split; [exact Hv|].
           intros a [<-|H]; [auto|].
           destruct (Hm a H) as [?|[?|(f' & ? & ?)]]; eauto 6 using in_cons.
      * destruct (IH (S k) um al)
          as (added & more & Hr & Hs & Ha & Hi & Hv & Hm).
        exists added, more.
        split; [exact Hr|]. split; [constructor; exact Hs|].
        split; [exact Ha|]. split; [exact Hi|]. split; [exact Hv|].
        intros a H. destruct (Hm a H) as [?|[?|(f' & ? & ?)]]; eauto 6 using in_cons.
Qed.

End Handler.

(** C10 as stated does not hold: with 30 images in the list, a batch of
    one more image followed by a 10s video (the first video, within every
    limit) leaves the list as it was; the image is reported, the video is
    neither added nor reported.  The described handling would add the
    video. *)
Lemma C10_video_after_cap_dropped : ~ UploadsAsClaimed.
Proof.
  intros H.
  specialize (H sampleClock sampleURL thirtyImages
                [pngFile "new.png"; mp4File "clip.mp4" 10]).
  apply (f_equal (fun r => length (fst r))) in H.
  vm_compute in H. discriminate.
Qed.

(** C10, amended.  The handler does to a batch what the described handling
    does to the batch cut after the first image that arrives beyond the
    30-image cap: up to there a violating item is left out and reported and
    an item within the limits is appended; from there on no file is
    examined.  The list before the batch stays as it is at the front of the
    result; what follows it are admissible items (images from image files,
    videos of at most 30s from video files) made from files of the batch in
    batch order; the caps on images and videos hold; every alert is one of
    the three messages. *)
Theorem C10_upload_up_to_cap :
  forall (Date_now : nat -> Z) (createObjectURL : File -> string)
         (media : list MediaFile) (files : list File),
    handleMediaUpload Date_now createObjectURL media files
    = claimedUpload Date_now createObjectURL media
        (upToCap (countImages media) files) /\
    exists added alerts,
      handleMediaUpload Date_now createObjectURL media files
      = (media ++ added, alerts) /\
      sublist (List.map mf_file added) files /\
      (forall item, In item added -> admissible item) /\
      (countImages (media ++ added)
       <= Nat.max MAX_IMAGES (countImages media))%nat /\
      (countVideos (media ++ added)
       <= Nat.max MAX_VIDEOS (countVideos media))%nat /\
      (forall a, In a alerts ->
         a = imagesAlert \/ a = videosAlert \/
         exists f, In f files /\ a = durationAlert (file_name f)).
Proof.
  intros Date_now createObjectURL media files.
  unfold handleMediaUpload, claimedUpload.
  destruct files as [|f rest].
  - split; [reflexivity|]. exists [], []. cbn. rewrite app_nil_r.
    repeat split; try constructor; try lia; intros ? [].
  - assert (Hcut : (length (upToCap (countImages media) (f :: rest)) =? 0)%nat
                   = false).
    { cbn [upToCap]. destruct (startsWith _ _); [destruct (_ <? _)%nat|];
        reflexivity. }
    rewrite Hcut. cbn [length Nat.eqb].
    split; [apply processFiles_upToCap|].
    destruct (processFiles_result Date_now createObjectURL (f :: rest) 0 media [])
      as (added & more & Hr & H).
    exists added, more. split; [exact Hr|exact H].
Qed.

End UploadFacts.

(** ** More facts about the controller *)

Module AutoAdjustMore.
Import AutoAdjust AutoAdjustFacts AutoAdjustSamples.

Lemma floor_below (x : Q) (i : Z) : (x < inject_Z i)%Q -> Qfloor x < i.
Proof.
  intros H. rewrite Zlt_Qlt.
  eapply Qle_lt_trans; [apply Qfloor_le|exact H].
Qed.

Lemma available_below a tv (n i : Z) :
  0 < n ->
  (a < inject_Z (n * i) + tv)%Q ->
  ((a - tv) / inject_Z n < inject_Z i)%Q.
Proof.
  intros Hn H.
  assert (Hq : (0 < inject_Z n)%Q).
  { change 0%Q with (inject_Z 0). rewrite <- Zlt_Qlt. exact Hn. }
  apply Qlt_shift_div_r; [exact Hq|].
  rewrite inject_Z_mult in H. lra.
Qed.

(** X1. The controller only ever shortens: with at least one image and a
    current interval of at least 1, the interval after the computation is
    never larger than the current one. *)
Theorem X1_never_lengthens :
  forall (audioDuration : Q) (videoDurations : list Q)
         (images currentInterval : Z) (note : option string),
    0 < images -> 1 <= currentInterval ->
    intervalAfter
      (calculateAndAdjust audioDuration videoDurations images
         currentInterval note) currentInterval
    <= currentInterval.
Proof.
  intros a vs n i note Hn Hi.
  rewrite intervalAfter_calculateAndAdjust.
  destruct (Qltb a (inject_Z (n * i) + totalDuration vs)) eqn:E1; [|lia].
  apply Qltb_lt in E1.
  destruct (Qltb 0 (a - totalDuration vs)); [|exact Hi].
  pose proof (floor_below _ _ (available_below _ _ _ _ Hn E1)). lia.
Qed.

Lemma X1_never_lengthens_witness :
  intervalAfter (calculateAndAdjust 20 [] 10 5 None) 5 <= 5.
Proof.
  apply (X1_never_lengthens 20%Q [] 10 5 None); lia.
Defined.

(** X3. A notice does not outlive the next change of the inputs that the
    audio covers: when the audio is at least as long as the visual
    duration, an invocation caused from outside (a reordering of the media,
    say) ends with the notice null, the interval as it was and no write of
    the interval, after two computations. *)
Theorem X3_notice_cleared_by_next_change :
  forall (s : App) (a : File),
    isAutoAdjusting s = false ->
    audioFile s = Some a ->
    imageCount (media s) <> 0 ->
    truthy (adjustmentNotification s) = true ->
    (inject_Z (imageCount (media s) * interval s)
     + totalDuration
         (List.map (fun v => file_duration (mf_file v))
            (List.filter is_video (media s)))
     <= file_duration a)%Q ->
    exists sys,
      bindSys (inputChanged 2 s (idle s)) (drain 2) = Some sys /\
      pending sys = [] /\
      adjustmentNotification (app sys) = None /\
      interval (app sys) = interval s /\
      intervalWrites (log sys) = 0%nat.
Proof.
  intros s a Hflag Ha Hn Ht Hcov.
  unfold inputChanged, idle, bindSys. cbn [runEffect app pending log].
  rewrite (effect_spawn s a Hflag Ha Hn).
  cbn [apply_writes fold_left].
  rewrite stateChanged_false by reflexivity.
  cbn [drain pending app log spawned].
  change ([] ++ [closureOf s a]) with [closureOf s a].
  change (@nil Write ++ []) with (@nil Write).
  unfold resolveStep at 1. cbn [pending app log lookup list_lookup].
  change (delete 0%nat [closureOf s a]) with (@nil Closure).
  apply Qltb_ge in Hcov.
  assert (Hr : resolve (closureOf s a) = [SetAdjustmentNotification None]).
  { unfold resolve, calculateAndAdjust. cbn [closureOf c_audioFile c_media
      c_interval c_imageCount c_adjustmentNotification].
    rewrite Hcov, Ht. reflexivity. }
  rewrite Hr.
  set (s1 := apply_writes [SetAdjustmentNotification None] s).
  destruct (stateChanged s s1).
  - cbn [runEffect app pending log].
    rewrite (effect_spawn s1 a Hflag Ha Hn).
    cbn [apply_writes fold_left].
    rewrite stateChanged_false by reflexivity.
    cbn [spawned pending app log].
    change ([] ++ [closureOf s1 a]) with [closureOf s1 a].
    unfold resolveStep. cbn [pending app log lookup list_lookup].
    assert (E : resolve (closureOf s1 a) = []).
    { unfold resolve, calculateAndAdjust. cbn [closureOf c_audioFile c_media
        c_interval c_imageCount c_adjustmentNotification s1 apply_writes
        fold_left apply_write media interval adjustmentNotification].
      rewrite Hcov. reflexivity. }
    rewrite E. cbn [apply_writes fold_left].
    rewrite stateChanged_false by reflexivity.
    eexists. split; [reflexivity|]. cbn. auto.
  - eexists. split; [reflexivity|]. cbn. auto.
Qed.

Lemma X3_notice_cleared_by_next_change_witness :
  exists sys,
    bindSys (inputChanged 2 adjustedOnce (idle adjustedOnce)) (drain 2)
      = Some sys /\
    pending sys = [] /\
    adjustmentNotification (app sys) = None /\
    interval (app sys) = 2 /\
    intervalWrites (log sys) = 0%nat.
Proof.
  apply (X3_notice_cleared_by_next_change adjustedOnce (sampleAudio 20)).
  - reflexivity.
  - reflexivity.
  - discriminate.
  - reflexivity.
  - vm_compute. discriminate.
Defined.

(** X4. The flag can outlive its write.  When a computation resolves with
    an adjustment that the state already shows (the same interval and the
    same notice, as after a second run started from the same inputs), its
    writes change nothing, no render follows, and the flag stays set.  The
    next change made from outside then only consumes the flag: whatever the
    new inputs are, no computation is started and neither the interval nor
    the notice is written. *)
Theorem X4_flag_swallows_next_change :
  forall (sys : Sys) (k : nat) (c : Closure) (n : Z) (m : string),
    pending sys !! k = Some c ->
    resolve c = [SetIsAutoAdjusting true; SetIntervalValue n;
                 SetAdjustmentNotification (Some m)] ->
    interval (app sys) = n ->
    adjustmentNotification (app sys) = Some m ->
    exists sys',
      resolveStep 2 k sys = Some sys' /\
      isAutoAdjusting (app sys') = true /\
      pending sys' = delete k (pending sys) /\
      forall i : Input,
        exists sys'',
          inputChanged 2 (applyInput i (app sys')) sys' = Some sys'' /\
          pending sys'' = pending sys' /\
          isAutoAdjusting (app sys'') = false /\
          interval (app sys'') = interval (applyInput i (app sys')) /\
          adjustmentNotification (app sys'') = Some m /\
          log sys'' = log sys' ++ [SetIsAutoAdjusting false].
Proof.
  intros sys k c n m Hk Hr Hi Hm.
  unfold resolveStep. rewrite Hk, Hr.
  rewrite stateChanged_false; [| cbn; congruence | cbn; congruence].
  eexists. split; [reflexivity|]. cbn [app pending log].
  split; [reflexivity|]. split; [reflexivity|].
  intros i. unfold inputChanged.
  rewrite runEffect_consume by (destruct i; reflexivity).
  eexists. split; [reflexivity|]. cbn [app pending log].
  rewrite app_nil_r. destruct i; cbn; auto.
Qed.

Lemma X4_flag_swallows_next_change_witness :
  exists sys',
    resolveStep 2 0 duplicateInFlight = Some sys' /\
    isAutoAdjusting (app sys') = true.
Proof.
  destruct (X4_flag_swallows_next_change duplicateInFlight 0
              (closureOf tenImages20s (sampleAudio 20)) 2 (adjustedMessage 2))
    as (sys' & H1 & H2 & _).
  - reflexivity.
  - reflexivity.
  - reflexivity.
  - reflexivity.
  - exists sys'. split; [exact H1|exact H2].
Defined.

(** X5. Without an audio track, or without any image, an invocation of the
    effect with the flag down starts no computation and never writes the
    interval; it leaves no notice showing. *)
Theorem X5_nothing_to_adjust :
  forall s : App,
    isAutoAdjusting s = false ->
    (audioFile s = None \/ imageCount (media s) = 0) ->
    exists sys,
      inputChanged 2 s (idle s) = Some sys /\
      pending sys = [] /\
      interval (app sys) = interval s /\
      truthy (adjustmentNotification (app sys)) = false /\
      intervalWrites (log sys) = 0%nat.
Proof.
  intros s Hflag Hno.
  assert (Hg : gated s = true).
  { unfold gated. destruct Hno as [->| ->]; [reflexivity|].
    destruct (audioFile s); reflexivity. }
  unfold inputChanged, idle. cbn [runEffect app pending log].
  rewrite (effect_gated s Hflag Hg).
  destruct (truthy (adjustmentNotification s)) eqn:Et.
  - set (s1 := apply_writes [SetAdjustmentNotification None] s).
    assert (H1 : autoAdjustEffect s1 = ([], None)).
    { rewrite effect_gated; [reflexivity|exact Hflag|exact Hg]. }
    destruct (stateChanged s s1).
    + rewrite H1. cbn [apply_writes fold_left].
      rewrite stateChanged_false by reflexivity.
      eexists. split; [reflexivity|]. cbn. auto.
    + eexists. split; [reflexivity|]. cbn. auto.
  - cbn [apply_writes fold_left].
    rewrite stateChanged_false by reflexivity.
    eexists. split; [reflexivity|]. cbn. auto.
Qed.

Lemma X5_nothing_to_adjust_witness :
  exists sys,
    inputChanged 2 noAudioWithNotice (idle noAudioWithNotice) = Some sys /\
    pending sys = [] /\
    interval (app sys) = 2 /\
    truthy (adjustmentNotification (app sys)) = false /\
    intervalWrites (log sys) = 0%nat.
Proof.
  apply (X5_nothing_to_adjust noAudioWithNotice).
  - reflexivity.
  - left. reflexivity.
Defined.

End AutoAdjustMore.

(** ** More facts about the player *)

Module PlayerMore.
Import Player.

Section Numbers.

Context {num : Type} {arith : Number num}.

Lemma advance_media (p : Player num) k :
  media (Nat.iter k advanceSlide p) = media p.
Proof. induction k as [|k IH]; [reflexivity|exact IH]. Qed.

Lemma advance_iter (p : Player num) k :
  (currentIndex p < length (media p))%nat ->
  currentIndex (Nat.iter k advanceSlide p)
  = ((currentIndex p + k) mod length (media p))%nat.
Proof.
  intros Hlt. induction k as [|k IH].
  - cbn. rewrite Nat.add_0_r, Nat.mod_small by exact Hlt. reflexivity.
  - change (Nat.iter (S k) advanceSlide p)
      with (advanceSlide (Nat.iter k advanceSlide p)).
    unfold advanceSlide at 1. cbn [currentIndex].
    rewrite advance_media, IH, Nat.Div0.add_mod_idemp_l.
    f_equal. lia.
Qed.

Lemma fadeTick_keeps (p : Player num) :
  media (fadeTick p) = media p /\
  currentIndex (fadeTick p) = currentIndex p /\
  interval (fadeTick p) = interval p.
Proof.
  unfold fadeTick. destruct (fadeOutInterval p); [|auto].
  destruct (lessEq _ _); cbn; auto.
Qed.

Lemma afterTicks_keeps (p : Player num) k :
  media (afterTicks k p) = media p /\
  currentIndex (afterTicks k p) = currentIndex p /\
  interval (afterTicks k p) = interval p.
Proof.
  induction k as [|k (IH1 & IH2 & IH3)]; [auto|].
  change (afterTicks (S k) p) with (fadeTick (afterTicks k p)).
  destruct (fadeTick_keeps (afterTicks k p)) as (H1 & H2 & H3).
  rewrite H1, H2, H3. auto.
Qed.

End Numbers.

(** X6. Playback loops inside the list: from an index in range,
    [advanceSlide] keeps the list, goes to the next index, and from the
    last index to 0; however often it runs the index stays in range, so
    the current item always exists; after as many advances as there are
    items the same slide is current again. *)
Theorem X6_advance_cycles :
  forall (num : Type) (arith : Number num) (p : Player num),
    (currentIndex p < length (media p))%nat ->
    media (advanceSlide p) = media p /\
    (S (currentIndex p) = length (media p) ->
     currentIndex (advanceSlide p) = 0%nat) /\
    (S (currentIndex p) < length (media p) ->
     currentIndex (advanceSlide p) = S (currentIndex p))%nat /\
    (forall k,
       (currentIndex (Nat.iter k advanceSlide p) < length (media p))%nat /\
       is_Some (media (Nat.iter k advanceSlide p)
                  !! currentIndex (Nat.iter k advanceSlide p))) /\
    currentIndex (Nat.iter (length (media p)) advanceSlide p)
    = currentIndex p.
Proof.
  intros num arith p Hlt.
  split; [reflexivity|]. split; [|split; [|split]].
  - intros Hlast. unfold advanceSlide. cbn [currentIndex].
    rewrite Nat.add_1_r, Hlast. apply Nat.Div0.mod_same.
  - intros Hnext. unfold advanceSlide. cbn [currentIndex].
    rewrite Nat.add_1_r. apply Nat.mod_small. exact Hnext.
  - intros k.
    assert (Hk : (currentIndex (Nat.iter k advanceSlide p)
                  < length (media p))%nat).
    { rewrite advance_iter by exact Hlt.
      apply Nat.mod_upper_bound. lia. }
    split; [exact Hk|]. rewrite advance_media.
    apply lookup_lt_is_Some. exact Hk.
  - rewrite advance_iter by exact Hlt.
    rewrite <- Nat.Div0.add_mod_idemp_r, Nat.Div0.mod_same, Nat.add_0_r.
    apply Nat.mod_small. exact Hlt.
Qed.

Lemma X6_advance_cycles_witness :
  currentIndex (Nat.iter 3 advanceSlide (scenarioD (num := Q))) = 2%nat.
Proof.
  refine (proj2 (proj2 (proj2 (proj2
            (X6_advance_cycles Q exact scenarioD _))))).
  cbn. lia.
Defined.

(** What is armed, by the kind of the current item. *)
Lemma armed_cases (num : Type) (arith : Number num) (p : Player num) :
  (media p !! currentIndex p = None /\ armed p = []) \/
  (exists item,
     media p !! currentIndex p = Some item /\ mf_type item = image /\
     armed p = if (length (media p) <? 2)%nat then []
               else [SlideTimer (interval p * 1000)]) \/
  (exists item,
     media p !! currentIndex p = Some item /\ mf_type item = video /\
     armed p = [VideoEnded]).
Proof.
  unfold armed, slideTimerEffect, videoOnEnded.
  destruct (media p !! currentIndex p) as [item|] eqn:E.
  - unfold is_image, is_video. destruct (mf_type item) eqn:Et.
    + right; left. exists item. rewrite Et.
      destruct (length (media p) <? 2)%nat; auto.
    + right; right. exists item. rewrite Et.
      destruct (length (media p) <? 2)%nat; auto.
  - left. destruct (length (media p) <? 2)%nat; auto.
Qed.

(** X7. At most one advancement mechanism is armed for a slide.  The slide
    timer is armed only for an image among at least two items, with period
    [interval * 1000] ms; the ended-handler is there exactly when the
    current item is a video; with at least two items and the index in
    range exactly one of the two is armed. *)
Theorem X7_one_mechanism :
  forall (num : Type) (arith : Number num) (p : Player num),
    (length (armed p) <= 1)%nat /\
    (forall ms,
       In (SlideTimer ms) (armed p) ->
       ms = interval p * 1000 /\ (2 <= length (media p))%nat /\
       exists item,
         media p !! currentIndex p = Some item /\ is_image item = true) /\
    (In VideoEnded (armed p) <->
     exists item,
       media p !! currentIndex p = Some item /\ is_video item = true) /\
    ((2 <= length (media p))%nat ->
     (currentIndex p < length (media p))%nat ->
     length (armed p) = 1%nat).
Proof.
  intros num arith p.
  destruct (armed_cases num arith p)
    as [[E ->]|[(item & E & Et & ->)|(item & E & Et & ->)]].
  - split; [cbn; lia|]. split; [intros ms []|]. split.
    + split; [intros []|]. intros (item & H & _). congruence.
    + intros _ Hlt. apply lookup_ge_None in E. lia.
  - destruct (Nat.ltb_spec (length (media p)) 2) as [Hlen|Hlen].
    + split; [cbn; lia|]. split; [intros ms []|]. split; [|lia].
      split; [intros []|]. intros (item' & H & Hv).
      assert (item' = item) by congruence. subst item'.
      unfold is_video in Hv. rewrite Et in Hv. discriminate.
    + split; [cbn; lia|]. split; [|split; [|reflexivity]].
      * intros ms [H|[]]. injection H as <-.
        split; [reflexivity|]. split; [exact Hlen|].
        exists item. unfold is_image. rewrite Et. auto.
      * split; [intros [H|[]]; discriminate|].
        intros (item' & H & Hv).
        assert (item' = item) by congruence. subst item'.
        unfold is_video in Hv. rewrite Et in Hv. discriminate.
  - split; [cbn; lia|]. split; [intros ms [H|[]]; discriminate|].
    split; [|reflexivity].
    split; [|intros _; left; reflexivity].
    intros _. exists item. unfold is_video. rewrite Et. auto.
Qed.

Lemma X7_one_mechanism_witness :
  length (armed (scenarioD (num := Q))) = 1%nat.
Proof.
  refine (proj2 (proj2 (proj2 (X7_one_mechanism Q exact scenarioD))) _ _);
    cbn; lia.
Defined.

(** X8. Only the boundary slides touch the audio.  A fade timer is running
    after the effect exactly when the slide entered is the last of several
    and the interval is positive; a timer left from before is dropped
    otherwise.  Entering slide 0 sets the volume to full, seeks to 0 and
    asks to play; entering any other slide leaves the audio element as it
    is. *)
Theorem X8_audio_at_boundaries :
  forall (num : Type) (arith : Number num) (p : Player num),
    (fadeOutInterval (audioEffect p) <> None <->
     S (currentIndex p) = length (media p) /\
     (1 < length (media p))%nat /\ 0 < interval p) /\
    (currentIndex p = 0%nat -> audio (audioEffect p) = fullVolume) /\
    (currentIndex p <> 0%nat -> audio (audioEffect p) = audio p) /\
    media (audioEffect p) = media p /\
    currentIndex (audioEffect p) = currentIndex p.
Proof.
  intros num arith p. unfold audioEffect.
  destruct (Z.eqb_spec (Z.of_nat (currentIndex p))
              (Z.of_nat (length (media p)) - 1)) as [E1|E1];
  destruct (Z.ltb_spec 1 (Z.of_nat (length (media p)))) as [E2|E2];
  cbn [andb];
  try destruct (Z.leb_spec (interval p * 1000) 0) as [E3|E3];
  (split; [split; [intros H; first [contradiction | repeat split; lia]
                  |intros (H1 & H2 & H3); first [lia | discriminate]]|]);
  (split; [intros H0; destruct (Z.eqb_spec (Z.of_nat (currentIndex p)) 0);
           [reflexivity|lia]|]);
  (split; [intros H0; destruct (Z.eqb_spec (Z.of_nat (currentIndex p)) 0);
           [lia|reflexivity]|]);
  split; reflexivity.
Qed.

Lemma audioEffect_keeps (num : Type) (arith : Number num) (p : Player num) :
  media (audioEffect p) = media p /\
  currentIndex (audioEffect p) = currentIndex p.
Proof.
  unfold audioEffect. destruct (_ && _); [destruct (_ <=? _)|]; auto.
Qed.

Lemma audioEffect_first_slide (num : Type) (arith : Number num)
    (p : Player num) :
  currentIndex p = 0%nat ->
  audio (audioEffect p) = fullVolume /\
  ((1 < length (media p))%nat -> fadeOutInterval (audioEffect p) = None).
Proof.
  intros H0. unfold audioEffect. rewrite H0.
  destruct (Z.eqb_spec (Z.of_nat 0) 0) as [_|Hne]; [|lia].
  split.
  - destruct (_ && _); [destruct (_ <=? _)|]; reflexivity.
  - intros Hlen.
    destruct (Z.eqb_spec (Z.of_nat 0) (Z.of_nat (length (media p)) - 1));
      [lia|reflexivity].
Qed.

(** X9. Every loop starts at full volume.  However far the fade of the
    last slide got (any number of ticks of its timer), the advance from
    the last slide goes to slide 0, and the effect there sets the volume
    to full with the playback position at 0; with more than one item no
    fade timer is left running. *)
Theorem X9_loop_restarts_at_full_volume :
  forall (num : Type) (arith : Number num) (p : Player num) (k : nat),
    S (currentIndex p) = length (media p) ->
    let q := audioEffect (advanceSlide (afterTicks k (audioEffect p))) in
    currentIndex q = 0%nat /\
    media q = media p /\
    audio q = fullVolume /\
    ((1 < length (media p))%nat -> fadeOutInterval q = None).
Proof.
  intros num arith p k Hlast q.
  destruct (audioEffect_keeps num arith p) as (Hm0 & Hi0).
  destruct (afterTicks_keeps (audioEffect p) k) as (Hm1 & Hi1 & _).
  set (r := advanceSlide (afterTicks k (audioEffect p))) in *.
  assert (Hr : currentIndex r = 0%nat /\ media r = media p).
  { unfold r, advanceSlide. cbn [currentIndex media].
    rewrite Hm1, Hi1, Hm0, Hi0, Nat.add_1_r, Hlast.
    split; [apply Nat.Div0.mod_same|reflexivity]. }
  destruct Hr as [Hr0 Hrm].
  destruct (audioEffect_keeps num arith r) as (Hm & Hi).
  destruct (audioEffect_first_slide num arith r Hr0) as (Ha & Hf).
  unfold q. rewrite Hi, Hm, Hr0, Hrm.
  split; [reflexivity|]. split; [reflexivity|]. split; [exact Ha|].
  intros Hlen. apply Hf. rewrite Hrm. exact Hlen.
Qed.

Lemma X9_loop_restarts_at_full_volume_witness :
  audio (audioEffect (advanceSlide
           (afterTicks 40 (audioEffect (scenarioD (num := Q))))))
  = fullVolume.
Proof.
  refine (proj1 (proj2 (proj2
            (X9_loop_restarts_at_full_volume Q exact scenarioD 40 _)))).
  reflexivity.
Defined.

End PlayerMore.

(** ** The fade-out in binary64 *)

Module FadeFacts.
Import Player PlayerMore.

Section Numbers.

Context {num : Type} {arith : Number num}.

(** On the last of several slides, with a positive interval, the effect
    leaves the audio element as it is and sets the fade timer. *)
Lemma audioEffect_last (p : Player num) :
  0 < interval p -> (1 < length (media p))%nat ->
  S (currentIndex p) = length (media p) ->
  audioEffect p =
  withAudio p (audio p)
    (Some (divide (volume (audio p))
             (divide (ofZ (interval p * 1000)) (ofZ tickIntervalMs)))).
Proof.
  intros Hi Hlen Hidx. unfold audioEffect.
  destruct (Z.eqb_spec (Z.of_nat (currentIndex p)) 0) as [E|E]; [lia|].
  destruct (Z.eqb_spec (Z.of_nat (currentIndex p))
              (Z.of_nat (length (media p)) - 1)) as [E1|E1]; [|lia].
  destruct (Z.ltb_spec 1 (Z.of_nat (length (media p)))) as [E2|E2]; [|lia].
  destruct (Z.leb_spec (interval p * 1000) 0) as [E3|E3]; [lia|].
  reflexivity.
Qed.

(** The course of a fade depends on the volume and the timer alone. *)
Lemma afterTicks_ext (p q : Player num) k :
  volume (audio p) = volume (audio q) ->
  fadeOutInterval p = fadeOutInterval q ->
  volume (audio (afterTicks k p)) = volume (audio (afterTicks k q)) /\
  fadeOutInterval (afterTicks k p) = fadeOutInterval (afterTicks k q).
Proof.
  intros Hv Hf. induction k as [|k [IHv IHf]]; [auto|].
  change (afterTicks (S k) p) with (fadeTick (afterTicks k p)).
  change (afterTicks (S k) q) with (fadeTick (afterTicks k q)).
  unfold fadeTick. rewrite IHf.
  destruct (fadeOutInterval (afterTicks k q)) as [d|] eqn:E;
    [|split; congruence].
  rewrite IHv. destruct (lessEq _ _); cbn; auto.
Qed.

(** Once the timer is stopped nothing changes any more. *)
Lemma afterTicks_stopped (p : Player num) m k :
  fadeOutInterval (afterTicks m p) = None ->
  afterTicks (k + m) p = afterTicks m p.
Proof.
  intros Hm. induction k as [|k IH]; [reflexivity|].
  change (afterTicks (S k + m) p) with (fadeTick (afterTicks (k + m) p)).
  rewrite IH. unfold fadeTick. rewrite Hm. reflexivity.
Qed.

End Numbers.

(** The course of the fade at each interval from 1 to 20, by evaluation. *)
Lemma fadesFromFull_all :
  Forall fadesFromFull (List.map Z.of_nat (seq 1 20)).
Proof.
  cbn [List.map seq].
  repeat (constructor; [vm_compute; repeat split; reflexivity|]).
  constructor.
Qed.

Lemma fadesFromFull_range i : 1 <= i <= 20 -> fadesFromFull i.
Proof.
  intros Hi. pose proof fadesFromFull_all as H.
  rewrite List.Forall_forall in H. apply H.
  apply List.in_map_iff. exists (Z.to_nat i). split; [lia|].
  apply List.in_seq. lia.
Qed.

Lemma afterTicks_timer (p : Player float) d k :
  fadeOutInterval p = Some d ->
  fadeOutInterval (afterTicks k p) = Some d \/
  fadeOutInterval (afterTicks k p) = None.
Proof.
  intros Hd. induction k as [|k IH]; [left; exact Hd|].
  change (afterTicks (S k) p) with (fadeTick (afterTicks k p)).
  unfold fadeTick. destruct IH as [E|E]; rewrite E; [|right; exact E].
  destruct (lessEq _ _); cbn; auto.
Qed.

(** C8 as stated does not hold.  In scenario D (three images, interval 4,
    the last slide entered at full volume) the decrement is the binary64
    number nearest to 1/80, and the 80 subtractions leave a residue: the
    samples of the ticks at 3950 ms and at 4000 ms are positive.  The slide
    timer ends the slide at 4000 ms, so no sample the player emits within
    one tick of 4000 ms is 0. *)
Lemma C8_residue_at_restart : ~ FadeReachesZeroInTime.
Proof.
  intros H.
  destruct (H (scenarioD (num := float))) as (k & Hk & Hshown & Hz).
  - cbn. lia.
  - cbn. lia.
  - reflexivity.
  - reflexivity.
  - specialize (Hshown 4000 eq_refl).
    unfold tickTime, tickIntervalMs in Hk, Hshown.
    cbn [interval scenarioD] in Hk.
    assert (Hcases : k = 79%nat \/ k = 80%nat) by lia.
    destruct Hcases as [-> | ->]; vm_compute in Hz; discriminate Hz.
Qed.

(** C8, amended.  If the interval is 0 or less no fade timer is set.  On
    entering the last of several slides with a positive interval the fade
    timer is set with the decrement
    [volume / (interval * 1000 / 50)], a binary64 number; every 50 ms tick
    while the timer runs replaces the volume by
    [max 0 (volume - decrement)]; once the timer is stopped nothing
    changes.  From full volume, at every interval the editor can hold (1
    to 20: its buttons offer 1, 5, 10, 15 and 20, and the controller only
    shortens): no sample is larger than the one before; before the tick at
    [interval * 1000] ms the timer runs and the volume is positive; at that
    tick the volume is below 2^-40: it is 0 and the timer is stopped, or,
    at the intervals 4, 6-9, 11-15, 17, 18 and 20, it is a residue of the
    rounding and the timer still runs; the next tick, should it fire,
    makes the volume 0 and stops the timer.  When the last slide is an
    image its slide timer fires at [interval * 1000] ms, and the effect of
    the slide that follows sets the volume back to 1 and leaves no fade
    timer, whatever the residue. *)
Theorem C8_fade_out :
  (forall p : Player float,
     interval p <= 0 -> fadeOutInterval (audioEffect p) = None) /\
  (forall p : Player float,
     0 < interval p -> (1 < length (media p))%nat ->
     S (currentIndex p) = length (media p) ->
     let p0 := audioEffect p in
     let d := PrimFloat.div (volume (audio p))
                (PrimFloat.div (float_of_Z (interval p * 1000))
                   (float_of_Z tickIntervalMs)) in
     fadeOutInterval p0 = Some d /\
     audio p0 = audio p /\
     (forall k,
        fadeOutInterval (afterTicks k p0) <> None ->
        volume (audio (afterTicks (S k) p0))
        = maximum (ofZ 0) (PrimFloat.sub (volume (audio (afterTicks k p0))) d))
     /\
     (forall k,
        fadeOutInterval (afterTicks k p0) = None ->
        afterTicks (S k) p0 = afterTicks k p0)) /\
  (forall p : Player float,
     1 <= interval p <= 20 -> (1 < length (media p))%nat ->
     S (currentIndex p) = length (media p) ->
     volume (audio p) = ofZ 1 ->
     let p0 := audioEffect p in
     let n := Z.to_nat (interval p * 20) in
     let vol k := volume (audio (afterTicks k p0)) in
     tickTime n = interval p * 1000 /\
     (forall k, PrimFloat.leb (vol (S k)) (vol k) = true) /\
     (forall k, (k < n)%nat ->
        running (afterTicks k p0) = true /\
        PrimFloat.ltb PrimFloat.zero (vol k) = true) /\
     PrimFloat.ltb (vol n) residueBound = true /\
     PrimFloat.ltb PrimFloat.zero (vol n)
       = existsb (Z.eqb (interval p)) residueIntervals /\
     running (afterTicks n p0) = PrimFloat.ltb PrimFloat.zero (vol n) /\
     vol (S n) = PrimFloat.zero /\
     fadeOutInterval (afterTicks (S n) p0) = None /\
     (forall item,
        media p !! currentIndex p = Some item -> is_image item = true ->
        slideTimerEffect p = Some (tickTime n) /\
        let next := audioEffect (advanceSlide (afterTicks n p0)) in
        currentIndex next = 0%nat /\
        volume (audio next) = ofZ 1 /\
        fadeOutInterval next = None)).
Proof.
  split; [|split].
  - intros p Hi. unfold audioEffect.
    destruct (_ && _); [|reflexivity].
    destruct (Z.leb_spec (interval p * 1000) 0); [reflexivity|lia].
  - intros p Hi Hlen Hidx p0 d.
    assert (Hp0 : p0 = withAudio p (audio p) (Some d))
      by exact (audioEffect_last p Hi Hlen Hidx).
    split; [rewrite Hp0; reflexivity|].
    split; [rewrite Hp0; reflexivity|]. split.
    + intros k Hk.
      destruct (afterTicks_timer p0 d k) as [Ht|Ht];
        [rewrite Hp0; reflexivity| |contradiction].
      change (afterTicks (S k) p0) with (fadeTick (afterTicks k p0)).
      unfold fadeTick. rewrite Ht.
      destruct (lessEq _ _); reflexivity.
    + intros k Hk.
      change (afterTicks (S k) p0) with (fadeTick (afterTicks k p0)).
      unfold fadeTick. rewrite Hk. reflexivity.
  - intros p Hi Hlen Hidx Hfull p0 n vol.
    assert (Hpos : 0 < interval p) by lia.
    pose proof (audioEffect_last p Hpos Hlen Hidx) as Hp0. fold p0 in Hp0.
    set (q0 := audioEffect (lastSlideAt (interval p))).
    assert (Hq0 : q0 = withAudio (lastSlideAt (interval p)) fullVolume
                         (Some (divide (ofZ 1)
                                  (divide (ofZ (interval p * 1000))
                                     (ofZ tickIntervalMs))))).
    { unfold q0. rewrite (audioEffect_last (lastSlideAt (interval p)));
        [reflexivity|exact Hpos|cbn; lia|reflexivity]. }
    assert (Hext : forall k,
      vol k = volume (audio (afterTicks k q0)) /\
      fadeOutInterval (afterTicks k p0) = fadeOutInterval (afterTicks k q0)).
    { intros k. apply afterTicks_ext.
      - rewrite Hp0, Hq0. cbn [withAudio audio]. exact Hfull.
      - rewrite Hp0, Hq0. cbn [withAudio fadeOutInterval].
        rewrite Hfull. reflexivity. }
    assert (Hrun : forall k, running (afterTicks k p0)
                             = running (afterTicks k q0)).
    { intros k. unfold running. rewrite (proj2 (Hext k)). reflexivity. }
    destruct (fadesFromFull_range (interval p) Hi)
      as (Hmono & Hbefore & Hbound & Hres & Hstill & Hzero & Hstop).
    fold q0 in Hmono, Hbefore, Hbound, Hres, Hstill, Hzero, Hstop.
    fold n in Hmono, Hbefore, Hbound, Hres, Hstill, Hzero, Hstop.
    rewrite List.forallb_forall in Hmono, Hbefore.
    assert (Hstop' : fadeOutInterval (afterTicks (S n) p0) = None)
      by (rewrite (proj2 (Hext (S n))); exact Hstop).
    assert (Hzero' : vol (S n) = PrimFloat.zero)
      by (rewrite (proj1 (Hext (S n))); exact Hzero).
    split; [unfold tickTime, tickIntervalMs, n; rewrite Z2Nat.id by lia; lia|].
    split.
    { intros k. destruct (Nat.le_gt_cases k n) as [Hk|Hk].
      - rewrite (proj1 (Hext (S k))), (proj1 (Hext k)).
        apply (Hmono k). apply List.in_seq. lia.
      - assert (Hk1 : afterTicks k p0 = afterTicks (S n) p0).
        { replace k with ((k - S n) + S n)%nat by lia.
          apply afterTicks_stopped. exact Hstop'. }
        assert (Hk2 : afterTicks (S k) p0 = afterTicks (S n) p0).
        { replace (S k) with ((S k - S n) + S n)%nat by lia.
          apply afterTicks_stopped. exact Hstop'. }
        unfold vol. rewrite Hk1, Hk2. fold (vol (S n)). rewrite Hzero'.
        reflexivity. }
    split.
    { intros k Hk. rewrite Hrun, (proj1 (Hext k)).
      apply andb_true_iff. apply (Hbefore k). apply List.in_seq. lia. }
    split; [rewrite (proj1 (Hext n)); exact Hbound|].
    split; [rewrite (proj1 (Hext n)); exact Hres|].
    split; [rewrite Hrun, (proj1 (Hext n)); exact Hstill|].
    split; [exact Hzero'|]. split; [exact Hstop'|].
    intros item Hitem Himg. split.
    + unfold slideTimerEffect. rewrite Hitem, Himg.
      destruct (Nat.ltb_spec (length (media p)) 2) as [E|E]; [lia|].
      unfold tickTime, tickIntervalMs, n. rewrite Z2Nat.id by lia.
      f_equal. lia.
    + destruct (afterTicks_keeps p0 n) as (Hm & Hc & _).
      destruct (audioEffect_keeps float binary64 p) as (Hm0 & Hc0).
      fold p0 in Hm0, Hc0.
      set (r := advanceSlide (afterTicks n p0)).
      assert (Hr0 : currentIndex r = 0%nat).
      { unfold r, advanceSlide. cbn [currentIndex].
        rewrite Hm, Hc, Hm0, Hc0.
        replace (currentIndex p + 1)%nat with (length (media p)) by lia.
        apply Nat.Div0.mod_same. }
      assert (Hrm : (1 < length (media r))%nat).
      { unfold r, advanceSlide. cbn [media]. rewrite Hm, Hm0. exact Hlen. }
      destruct (audioEffect_first_slide float binary64 r Hr0) as (Ha & Hf).
      destruct (audioEffect_keeps float binary64 r) as (_ & Hcr).
      cbv zeta. split; [rewrite Hcr; exact Hr0|].
      split; [rewrite Ha; reflexivity|exact (Hf Hrm)].
Qed.

Lemma C8_fade_out_witness :
  let p0 := audioEffect (scenarioD (num := float)) in
  tickTime 80 = 4000 /\
  running (afterTicks 80 p0) = true /\
  volume (audio (afterTicks 81 p0)) = PrimFloat.zero /\
  fadeOutInterval (afterTicks 81 p0) = None.
Proof.
  destruct (proj2 (proj2 C8_fade_out) (scenarioD (num := float)))
    as (Ht & _ & _ & _ & Hres & Hstill & Hzero & Hstop & _).
  - cbn. lia.
  - cbn. lia.
  - reflexivity.
  - reflexivity.
  - split; [exact Ht|]. split; [|split; [exact Hzero|exact Hstop]].
    exact (eq_trans Hstill Hres).
Defined.

End FadeFacts.

(** ** Facts about editing the media list *)

Module EditingFacts.
Import Editing.

Lemma removeMedia_fst id prev :
  fst (removeMedia id prev)
  = List.filter (fun item => negb (String.eqb (mf_id item) id)) prev.
Proof.
  induction prev as [|x rest IH]; [reflexivity|]. cbn [removeMedia List.filter].
  destruct (removeMedia id rest) as [kept revoked]. cbn [fst] in IH.
  destruct (String.eqb (mf_id x) id); cbn; congruence.
Qed.

Lemma removeMedia_snd id prev :
  snd (removeMedia id prev)
  = List.map mf_previewUrl
      (List.filter (fun item => String.eqb (mf_id item) id) prev).
Proof.
  induction prev as [|x rest IH]; [reflexivity|]. cbn [removeMedia List.filter].
  destruct (removeMedia id rest) as [kept revoked]. cbn [snd] in IH.
  destruct (String.eqb (mf_id x) id); cbn; congruence.
Qed.

Lemma filter_absent id (l : list MediaFile) :
  (forall x, In x l -> mf_id x <> id) ->
  List.filter (fun item => negb (String.eqb (mf_id item) id)) l = l /\
  List.filter (fun item => String.eqb (mf_id item) id) l = [].
Proof.
  induction l as [|x rest IH]; intros H; [auto|]. cbn.
  destruct (String.eqb_spec (mf_id x) id) as [E|E].
  - exfalso. exact (H x (or_introl eq_refl) E).
  - cbn. destruct IH as [-> ->]; [|auto]. intros y Hy. apply H. right. exact Hy.
Qed.

Lemma filter_unique id (l : list MediaFile) x :
  List.NoDup (List.map mf_id l) -> In x l -> mf_id x = id ->
  List.filter (fun item => String.eqb (mf_id item) id) l = [x].
Proof.
  induction l as [|y rest IH]; intros Hnd Hin Hid; [destruct Hin|].
  inversion Hnd as [|? ? Hnotin Hnd']; subst. cbn.
  destruct (String.eqb_spec (mf_id y) (mf_id x)) as [E|E].
  - assert (forall z, In z rest -> mf_id z <> mf_id x).
    { intros z Hz Ez. apply Hnotin. rewrite E, <- Ez.
      apply in_map. exact Hz. }
    destruct Hin as [->|Hin].
    + f_equal. apply filter_absent. assumption.
    + exfalso. exact (H x Hin eq_refl).
  - destruct Hin as [->|Hin]; [contradiction|]. apply IH; auto.
Qed.

(** X10. [removeMedia] drops every item with the given id and nothing else:
    no item left has the id; an item with another id is left exactly when
    it was there, and the items left keep their order; each item is either
    left or has its preview URL revoked.  An id that no item has changes
    nothing and revokes nothing.  With unique ids, removing the id of an
    item drops that one item and revokes its URL alone. *)
Theorem X10_removeMedia :
  forall (id : string) (prev : list MediaFile),
    let kept := fst (removeMedia id prev) in
    let revoked := snd (removeMedia id prev) in
    (forall x, In x kept -> mf_id x <> id) /\
    (forall x, mf_id x <> id -> (In x kept <-> In x prev)) /\
    sublist kept prev /\
    (length kept + length revoked = length prev)%nat /\
    ((forall x, In x prev -> mf_id x <> id) -> kept = prev /\ revoked = []) /\
    (forall x,
       List.NoDup (List.map mf_id prev) -> In x prev -> mf_id x = id ->
       length prev = S (length kept) /\ revoked = [mf_previewUrl x]).
Proof.
  intros id prev kept revoked. subst kept revoked.
  rewrite removeMedia_fst, removeMedia_snd.
  split; [|split; [|split; [|split; [|split]]]].
  - intros x Hx. apply filter_In in Hx. destruct Hx as [_ Hx].
    destruct (String.eqb_spec (mf_id x) id); [discriminate|assumption].
  - intros x Hx. rewrite filter_In.
    destruct (String.eqb_spec (mf_id x) id); [contradiction|]. cbn. tauto.
  - induction prev as [|y rest IH]; [constructor|]. cbn.
    destruct (negb _); [apply sublist_skip|apply sublist_cons]; exact IH.
  - rewrite length_map. induction prev as [|y rest IH]; [reflexivity|]. cbn.
    destruct (String.eqb (mf_id y) id); cbn; lia.
  - intros H. destruct (filter_absent id prev H) as [-> ->]. auto.
  - intros x Hnd Hin Hid.
    rewrite (filter_unique id prev x Hnd Hin Hid). split; [|reflexivity].
    assert (Hlen : (length (List.filter
                     (fun item => negb (String.eqb (mf_id item) id)) prev)
                   + length (List.filter
                     (fun item => String.eqb (mf_id item) id) prev)
                   = length prev)%nat).
    { clear. induction prev as [|y rest IH]; [reflexivity|]. cbn.
      destruct (String.eqb (mf_id y) id); cbn; lia. }
    rewrite (filter_unique id prev x Hnd Hin Hid) in Hlen. cbn in Hlen. lia.
Qed.

Lemma X10_removeMedia_witness :
  length fourItems = S (length (fst (removeMedia "c" fourItems))) /\
  snd (removeMedia "c" fourItems) = ["blob:c"].
Proof.
  refine (proj2 (proj2 (proj2 (proj2 (proj2
            (X10_removeMedia "c" fourItems)))))
            (item "c" video) _ _ _).
  - cbn. repeat constructor; cbn; intuition discriminate.
  - cbn. auto.
  - reflexivity.
Defined.

Lemma findIndexById_Some id l i :
  findIndexById id l = Some i ->
  exists x, l !! i = Some x /\ mf_id x = id.
Proof.
  revert i. induction l as [|y rest IH]; intros i H; [discriminate|].
  cbn in H. destruct (String.eqb_spec (mf_id y) id) as [E|E].
  - injection H as <-. exists y. auto.
  - destruct (findIndexById id rest) as [j|]; [|discriminate].
    injection H as <-. exact (IH j eq_refl).
Qed.

Lemma findIndexById_found id l x :
  In x l -> mf_id x = id -> exists i, findIndexById id l = Some i.
Proof.
  induction l as [|y rest IH]; intros Hin Hid; [destruct Hin|]. cbn.
  destruct (String.eqb_spec (mf_id y) id) as [E|E]; [eauto|].
  destruct Hin as [->|Hin]; [contradiction|].
  destruct (IH Hin Hid) as [i ->]. eauto.
Qed.

Lemma findIndexById_absent id l :
  (forall x, In x l -> mf_id x <> id) -> findIndexById id l = None.
Proof.
  induction l as [|y rest IH]; intros H; [reflexivity|]. cbn.
  destruct (String.eqb_spec (mf_id y) id) as [E|E].
  - exfalso. exact (H y (or_introl eq_refl) E).
  - rewrite IH; [reflexivity|]. intros x Hx. apply H. right. exact Hx.
Qed.

Lemma spliceIn_at index x (arr : list MediaFile) :
  (index <= length arr)%nat ->
  spliceIn index x arr ≡ₚ x :: arr /\
  spliceIn index x arr !! index = Some x /\
  delete index (spliceIn index x arr) = arr.
Proof.
  intros Hle. unfold spliceIn.
  pose proof (length_take_le arr index Hle) as Hlen.
  split; [|split].
  - rewrite <- Permutation_middle, take_drop. reflexivity.
  - apply list_lookup_middle. symmetry. exact Hlen.
  - pose proof (delete_middle (take index arr) (drop index arr) x) as H.
    rewrite Hlen in H. rewrite H. apply take_drop.
Qed.

(** X11. A drop moves the dragged item to the place of the target and
    changes nothing else.  When the drag data holds the id of an item and
    the target is another item of the list, the new list is a permutation
    of the old one; the dragged item stands at the index the target had;
    and the other items keep their order: without the dragged item the two
    lists are the same. *)
Theorem X11_handleDrop_moves :
  forall (sourceId targetId : string) (prevMedia : list MediaFile),
    truthy (Some sourceId) = true ->
    sourceId <> targetId ->
    (exists x, In x prevMedia /\ mf_id x = sourceId) ->
    (exists y, In y prevMedia /\ mf_id y = targetId) ->
    exists sourceIndex targetIndex draggedItem,
      findIndexById sourceId prevMedia = Some sourceIndex /\
      findIndexById targetId prevMedia = Some targetIndex /\
      prevMedia !! sourceIndex = Some draggedItem /\
      mf_id draggedItem = sourceId /\
      handleDrop sourceId targetId prevMedia ≡ₚ prevMedia /\
      handleDrop sourceId targetId prevMedia !! targetIndex
        = Some draggedItem /\
      delete targetIndex (handleDrop sourceId targetId prevMedia)
        = delete sourceIndex prevMedia.
Proof.
  intros sourceId targetId prev Hs Hne (x & Hx & Hxid) (y & Hy & Hyid).
  destruct (findIndexById_found _ _ _ Hx Hxid) as [si Hsi].
  destruct (findIndexById_found _ _ _ Hy Hyid) as [ti Hti].
  destruct (findIndexById_Some _ _ _ Hsi) as (d & Hd & Hdid).
  destruct (findIndexById_Some _ _ _ Hti) as (t & Ht & _).
  exists si, ti, d. repeat (split; [assumption|]).
  unfold handleDrop. rewrite Hs, Hsi, Hti, Hd.
  destruct (String.eqb_spec sourceId targetId); [contradiction|]. cbn [negb andb].
  assert (Hle : (ti <= length (delete si prev))%nat).
  { rewrite length_delete by eauto.
    apply lookup_lt_Some in Ht. lia. }
  destruct (spliceIn_at ti d (delete si prev) Hle) as (Hp & Hl & Hdel).
  split; [|split; assumption].
  rewrite Hp. symmetry. apply delete_Permutation. exact Hd.
Qed.

Lemma X11_handleDrop_moves_witness :
  exists sourceIndex targetIndex draggedItem,
    findIndexById "d" fourItems = Some sourceIndex /\
    findIndexById "a" fourItems = Some targetIndex /\
    fourItems !! sourceIndex = Some draggedItem /\
    mf_id draggedItem = "d" /\
    handleDrop "d" "a" fourItems ≡ₚ fourItems /\
    handleDrop "d" "a" fourItems !! targetIndex = Some draggedItem /\
    delete targetIndex (handleDrop "d" "a" fourItems)
      = delete sourceIndex fourItems.
Proof.
  apply (X11_handleDrop_moves "d" "a" fourItems).
  - reflexivity.
  - discriminate.
  - exists (item "d" image).
    split; [right; right; right; left; reflexivity|reflexivity].
  - exists (item "a" image). split; [left; reflexivity|reflexivity].
Defined.

(** X12. A drop that cannot be carried out leaves the list as it is: no id
    in the drag data, an item dropped on itself, or an id (of the dragged
    item or of the target) that no item of the list has. *)
Theorem X12_handleDrop_unchanged :
  forall (sourceId targetId : string) (prevMedia : list MediaFile),
    sourceId = EmptyString \/ sourceId = targetId \/
    (forall x, In x prevMedia -> mf_id x <> sourceId) \/
    (forall x, In x prevMedia -> mf_id x <> targetId) ->
    handleDrop sourceId targetId prevMedia = prevMedia.
Proof.
  intros sourceId targetId prev [->| [->| [H|H]]]; unfold handleDrop.
  - reflexivity.
  - rewrite String.eqb_refl, andb_false_r. reflexivity.
  - rewrite (findIndexById_absent _ _ H). destruct (_ && _); reflexivity.
  - rewrite (findIndexById_absent _ _ H).
    destruct (_ && _); [|reflexivity].
    destruct (findIndexById sourceId prev); reflexivity.
Qed.

Lemma X12_handleDrop_unchanged_witness :
  handleDrop "zzz" "a" fourItems = fourItems.
Proof.
  apply (X12_handleDrop_unchanged "zzz" "a" fourItems).
  right; right; left. intros x Hx. cbn in Hx.
  destruct Hx as [<-|[<-|[<-|[<-|[]]]]]; discriminate.
Defined.

End EditingFacts.

(** ** More facts about caption generation *)

Module CaptionMore.
Import Captions CaptionFacts CaptionEffect.

Section Pass.

Variable trim : string -> string.
Variable service : File -> option string.

Lemma captioned_fields item :
  mf_id (captioned trim service item) = mf_id item /\
  mf_type (captioned trim service item) = mf_type item /\
  mf_file (captioned trim service item) = mf_file item /\
  mf_previewUrl (captioned trim service item) = mf_previewUrl item.
Proof. unfold captioned. destruct (service _); cbn; auto. Qed.

Lemma todo_in_media e l :
  In l (imagesToCaption e) ->
  In l (media e) /\ exists o, store e !! l = Some o /\ is_image o = true.
Proof.
  intros Hl. destruct (imagesToCaption_inv e l Hl) as (H1 & o & H2 & H3 & _).
  split; [exact H1|]. exists o. auto.
Qed.

(** The loop runs to its end when every call answers. *)
Lemma captionLoop_complete um todo : forall st,
  (forall l, In l um -> is_Some (st !! l)) ->
  List.NoDup (List.map (idOf st) um) ->
  (forall l, In l todo ->
     In l um /\ exists o, st !! l = Some o /\ is_image o = true) ->
  answered service st todo = todo ->
  snd (captionLoop trim service um todo st) = true.
Proof.
  induction todo as [|l0 rest IH]; intros st Hwf Hnd Htodo Hall;
    [reflexivity|].
  destruct (Htodo l0 (or_introl eq_refl)) as (Hin0 & o0 & Ho0 & Himg0).
  cbn [answered] in Hall. rewrite Ho0 in Hall.
  destruct (service (mf_file o0)) as [t|] eqn:Es; [|discriminate].
  injection Hall as Hall.
  cbn [captionLoop]. rewrite Ho0, Es.
  rewrite (writeCaption_self trim st um l0 o0 t Hwf Hnd Hin0 Ho0 Himg0).
  apply IH.
  - intros l Hl. destruct (Hwf l Hl) as [o Ho].
    destruct (update_lookup st l0 o0 (trim t) Ho0 l o Ho) as (o1 & H1 & _).
    exists o1. exact H1.
  - erewrite map_ext; [exact Hnd|].
    intros l. apply update_idOf. exact Ho0.
  - intros l Hl. destruct (Htodo l (or_intror Hl)) as (H1 & o & Ho & Hi).
    split; [exact H1|].
    destruct (update_lookup st l0 o0 (trim t) Ho0 l o Ho)
      as (o1 & H2 & _ & _ & H3).
    exists o1. split; [exact H2|congruence].
  - rewrite (update_answered service st l0 o0 (trim t) Ho0). exact Hall.
Qed.

Lemma answered_all st todo :
  (forall l, In l todo ->
     exists o t, st !! l = Some o /\ service (mf_file o) = Some t) ->
  answered service st todo = todo.
Proof.
  induction todo as [|l0 rest IH]; intros H; [reflexivity|].
  destruct (H l0 (or_introl eq_refl)) as (o & t & Ho & Ht).
  cbn [answered]. rewrite Ho, Ht, IH; [reflexivity|].
  intros l Hl. apply H. right. exact Hl.
Qed.

End Pass.

(** X13. A pass in which every caption call answers ends with the status
    [done] and the same media array; every image that had no caption
    carries the trimmed text answered for its file, with its id, type, file
    and preview as before; every other object is unchanged (ids unique). *)
Theorem X13_successful_pass :
  forall (trim : string -> string) (apiKey : option string)
         (service : File -> option string) (e : Editor),
    wellFormed e ->
    smartCaptionsEnabled e = true ->
    captionStatus e <> generating ->
    isApiKeyAvailable e = true ->
    truthy apiKey = true ->
    imagesToCaption e <> [] ->
    (forall l item,
       In l (imagesToCaption e) -> store e !! l = Some item ->
       service (mf_file item) <> None) ->
    let e' := generateCaptions trim apiKey service e in
    captionStatus e' = done /\
    media e' = media e /\
    (forall l, store e !! l = None -> store e' !! l = None) /\
    (forall l item,
       store e !! l = Some item ->
       (In l (imagesToCaption e) ->
        exists text,
          service (mf_file item) = Some text /\
          store e' !! l = Some (withCaption item (trim text))) /\
       (~ In l (imagesToCaption e) -> store e' !! l = Some item)).
Proof.
  intros trim apiKey service e [Hwf Hnd] Hs Hg Ha Hk Htodo Hall e'.
  subst e'. unfold generateCaptions.
  rewrite Hs, Ha, Hk. cbn [negb orb].
  assert (Hgen : isGenerating (captionStatus e) = false)
    by (destruct (captionStatus e); [reflexivity|contradiction|reflexivity..]).
  rewrite Hgen. cbn [orb].
  destruct (imagesToCaption e) as [|l0 rest] eqn:Etodo; [contradiction|].
  cbn [length Nat.eqb]. rewrite <- Etodo in *. clear Etodo l0 rest.
  assert (Hans : answered service (store e) (imagesToCaption e)
                 = imagesToCaption e).
  { apply answered_all. intros l Hl.
    destruct (imagesToCaption_inv e l Hl) as (_ & o & Ho & _).
    specialize (Hall l o Hl Ho).
    destruct (service (mf_file o)) as [t|] eqn:Et; [|contradiction].
    exists o, t. auto. }
  destruct (captionLoop_spec trim service (media e) (imagesToCaption e) (store e)
              Hwf Hnd (todo_in_media e)) as (st' & ok & Hloop & _ & Hin & Hout).
  pose proof (captionLoop_complete trim service (media e) (imagesToCaption e)
                (store e) Hwf Hnd (todo_in_media e) Hans) as Hok.
  rewrite Hloop in *. cbn [snd] in Hok. subst ok.
  rewrite Hans in Hin, Hout.
  cbn [withStatus captionStatus media store].
  split; [reflexivity|]. split; [reflexivity|]. split.
  - intros l Hl.
    destruct (in_dec Nat.eq_dec l (imagesToCaption e)) as [Hy|Hn].
    + rewrite (Hin l Hy), Hl. reflexivity.
    + rewrite (Hout l Hn). exact Hl.
  - intros l item Hl. split.
    + intros Hy. specialize (Hall l item Hy Hl).
      destruct (service (mf_file item)) as [t|] eqn:Et; [|contradiction].
      exists t. split; [reflexivity|].
      rewrite (Hin l Hy), Hl. unfold captioned. cbn. rewrite Et. reflexivity.
    + intros Hn. rewrite (Hout l Hn). exact Hl.
Qed.

Lemma X13_successful_pass_witness :
  captionStatus (generateCaptions trimLatin1 (Some "key") steadyService threePhotos)
  = done.
Proof.
  refine (proj1 (X13_successful_pass trimLatin1 (Some "key") steadyService
                   threePhotos
                   _ _ _ _ _ _ _)).
  - split.
    + intros l Hl. cbn in Hl.
      destruct Hl as [<-|[<-|[<-|[]]]]; eexists; reflexivity.
    + cbn. repeat constructor; cbn; intuition discriminate.
  - reflexivity.
  - discriminate.
  - reflexivity.
  - reflexivity.
  - discriminate.
  - intros l item _ _. discriminate.
Defined.

(** X14. When captions are off, a pass is already running, or no key is
    available, [generateCaptions] does nothing.  When captions are on and
    every image of a non-empty list already has a caption, the pass calls
    no service, changes no object and sets the status [done], also when the
    key itself is missing. *)
Theorem X14_nothing_to_caption :
  forall (trim : string -> string) (apiKey : option string)
         (service : File -> option string) (e : Editor),
    ((smartCaptionsEnabled e = false \/ captionStatus e = generating \/
      isApiKeyAvailable e = false) ->
     generateCaptions trim apiKey service e = e) /\
    (smartCaptionsEnabled e = true -> captionStatus e <> generating ->
     isApiKeyAvailable e = true -> media e <> [] ->
     (forall l, In l (media e) -> needsCaption (store e) l = false) ->
     generateCaptions trim apiKey service e
     = withStatus e (store e) (media e) done).
Proof.
  intros trim apiKey service e. unfold generateCaptions. split.
  - intros H. destruct (smartCaptionsEnabled e) eqn:Es; [|reflexivity].
    cbn [negb orb]. destruct H as [H|[H|H]]; [discriminate|..].
    + rewrite H. reflexivity.
    + rewrite H. destruct (isGenerating _); reflexivity.
  - intros Hs Hg Ha Hm Hall. rewrite Hs, Ha.
    assert (Hgen : isGenerating (captionStatus e) = false)
      by (destruct (captionStatus e); [reflexivity|contradiction|reflexivity..]).
    rewrite Hgen. cbn [negb orb].
    assert (Hnone : imagesToCaption e = []).
    { unfold imagesToCaption. clear Hm. revert Hall.
      generalize (media e) as m.
      induction m as [|l rest IH]; intros Hall; [reflexivity|]. cbn.
      rewrite (Hall l (or_introl eq_refl)). apply IH.
      intros l' Hl'. apply Hall. right. exact Hl'. }
    rewrite Hnone. cbn [length Nat.eqb].
    destruct (media e); [contradiction|reflexivity].
Qed.

Lemma X14_nothing_to_caption_witness :
  generateCaptions trimLatin1 None flakyService
    (withStatus threePhotos (store threePhotos) [0%nat] idle)
  = withStatus threePhotos (store threePhotos) [0%nat] done.
Proof.
  refine (proj2 (X14_nothing_to_caption trimLatin1 None flakyService
            (withStatus threePhotos (store threePhotos) [0%nat] idle))
            _ _ _ _ _).
  - reflexivity.
  - discriminate.
  - reflexivity.
  - discriminate.
  - intros l [<-|[]]. reflexivity.
Defined.

Lemma idOf_captioned trim service (st st' : gmap nat MediaFile) l :
  st' !! l = captioned trim service <$> st !! l \/ st' !! l = st !! l ->
  idOf st' l = idOf st l.
Proof.
  unfold idOf. intros [->| ->]; [|reflexivity].
  destruct (st !! l) as [o|]; [|reflexivity]. cbn.
  apply captioned_fields.
Qed.

(** [generateCaptions] followed to its end is its synchronous part
    followed by the rest of the run it suspends. *)
Lemma generateCaptions_split trim apiKey service e :
  generateCaptions trim apiKey service e =
  let started := generateCaptionsSync apiKey e in
  let e1 := withStatus e (store e) (media e)
              (List.last (fst started) (captionStatus e)) in
  match snd started with
  | None => e1
  | Some run => fst (generateCaptionsRest trim service run e1)
  end.
Proof.
  unfold generateCaptions, generateCaptionsSync, generateCaptionsRest.
  destruct e as [st m c s k]. cbn [store media captionStatus
    smartCaptionsEnabled isApiKeyAvailable withStatus].
  destruct (negb s || isGenerating c || negb k); [reflexivity|].
  set (todo := imagesToCaption _).
  destruct (length todo =? 0)%nat.
  - destruct (0 <? length m)%nat; reflexivity.
  - destruct (negb (truthy apiKey)); [reflexivity|].
    cbn [fst snd List.last p_updatedMedia p_imagesToCaption store media
           withStatus].
    destruct (captionLoop trim service m todo st) as [st' [|]]; reflexivity.
Qed.

Lemma drain_add trim apiKey service a b s :
  drain trim apiKey service (a + b) s
  = drain trim apiKey service b (drain trim apiKey service a s).
Proof.
  revert s. induction a as [|a IH]; intros s; [reflexivity|].
  cbn [Nat.add drain]. apply IH.
Qed.

Lemma throwsFor_todo service e :
  throwsFor service e -> imagesToCaption e <> [].
Proof. intros (l & _ & Hl & _) Hnil. rewrite Hnil in Hl. destruct Hl. Qed.

(** The loop of a run fails when a call throws for one of its images; it
    has made at least one call, and it leaves an editor in which the call
    throws for an image still to caption. *)
Lemma loop_fails trim service e c :
  wellFormed e -> throwsFor service e ->
  exists st',
    captionLoop trim service (media e) (imagesToCaption e) (store e)
      = (st', false) /\
    (1 <= loopCalls trim service (media e) (imagesToCaption e) (store e))%nat
    /\
    wellFormed (withStatus e st' (media e) c) /\
    throwsFor service (withStatus e st' (media e) c).
Proof.
  intros [Hwf Hnd] (lf & itemf & Hlf & Hitemf & Hthrows).
  destruct (captionLoop_spec trim service (media e) (imagesToCaption e)
              (store e) Hwf Hnd (todo_in_media e))
    as (st' & ok & Hloop & Hok & Hin & Hout).
  assert (ok = false) as ->.
  { destruct ok; [|reflexivity]. exfalso.
    rewrite <- (Hok eq_refl) in Hlf.
    destruct (answered_inv service _ _ _ Hlf) as (_ & o & t & Ho & Ht).
    congruence. }
  assert (Hst : forall l, st' !! l = captioned trim service <$> store e !! l \/
                          st' !! l = store e !! l).
  { intros l.
    destruct (in_dec Nat.eq_dec l
                (answered service (store e) (imagesToCaption e))); auto. }
  assert (Hkeep : st' !! lf = Some itemf).
  { destruct (in_dec Nat.eq_dec lf
                (answered service (store e) (imagesToCaption e))) as [Hy|Hn].
    - destruct (answered_inv service _ _ _ Hy) as (_ & o & t & Ho & Ht).
      congruence.
    - rewrite (Hout lf Hn). exact Hitemf. }
  exists st'. split; [exact Hloop|]. split; [|split; [split|]].
  - destruct (imagesToCaption e) as [|l0 rest] eqn:Etodo; [destruct Hlf|].
    assert (Hl0 : In l0 (imagesToCaption e))
      by (rewrite Etodo; left; reflexivity).
    destruct (imagesToCaption_inv e l0 Hl0) as (_ & o & Ho & _).
    cbn [loopCalls]. rewrite Ho.
    destruct (service (mf_file o)); lia.
  - cbn [withStatus store media]. intros l Hl. destruct (Hwf l Hl) as [o Ho].
    destruct (Hst l) as [-> | ->]; rewrite Ho; cbn; eauto.
  - cbn [withStatus store media]. erewrite map_ext; [exact Hnd|].
    intros l. apply (idOf_captioned trim service). apply Hst.
  - exists lf, itemf. split; [|split; [exact Hkeep|exact Hthrows]].
    unfold imagesToCaption in *. cbn [withStatus store media].
    apply filter_In in Hlf. destruct Hlf as [Hlf1 Hlf2].
    apply filter_In. split; [exact Hlf1|].
    unfold needsCaption in *. rewrite Hkeep. rewrite Hitemf in Hlf2.
    exact Hlf2.
Qed.

(** One step of the editor while the caption call keeps throwing. *)
Lemma step_retrying trim apiKey service media0 stage s :
  truthy apiKey = true ->
  retrying service media0 stage s ->
  let s' := step trim apiKey service s in
  retrying service media0 (S stage mod 3) s' /\
  (calls s <= calls s')%nat /\
  (stage = 2%nat -> (calls s < calls s')%nat /\
                    captionStatus (editor s') = error).
Proof.
  intros Hkey (Hm & Hwf & Hs & Ha & Hthrows & Hstage) s'. subst s'.
  pose proof (throwsFor_todo service _ Hthrows) as Htodo.
  assert (Hmedia : media (editor s) <> []).
  { intros Hnil. apply Htodo. unfold imagesToCaption. rewrite Hnil.
    reflexivity. }
  unfold step.
  destruct stage as [|[|[|stage]]]; [| | |destruct Hstage].
  - (* the effect starts a run *)
    destruct Hstage as (Hdue & Hpend & Hstatus). rewrite Hdue.
    assert (Hrun : captionEffect apiKey (editor s)
                   = ([generating],
                      Some {| p_updatedMedia := media (editor s);
                              p_imagesToCaption :=
                                imagesToCaption (editor s) |})).
    { unfold captionEffect, generateCaptionsSync. rewrite Hs, Ha, Hkey.
      destruct Hstatus as [-> | ->]; cbn [isDone isGenerating negb andb orb];
        (destruct (imagesToCaption (editor s)); [contradiction|]);
        (destruct (media (editor s)); [contradiction|]); reflexivity. }
    unfold runEffect. rewrite Hrun. cbn [fst snd List.last].
    rewrite Hpend. cbn [app].
    split; [|split; [cbn; lia|intros H; discriminate H]].
    split; [exact Hm|]. split; [exact Hwf|]. split; [exact Hs|].
    split; [exact Ha|]. split; [exact Hthrows|].
    cbn. split; [|split; reflexivity].
    destruct Hstatus as [-> | ->]; reflexivity.
  - (* the effect finds the run in progress *)
    destruct Hstage as (Hdue & Hpend & Hstatus). rewrite Hdue.
    assert (Hrun : captionEffect apiKey (editor s) = ([], None)).
    { unfold captionEffect, generateCaptionsSync.
      rewrite Hs, Ha, Hstatus. cbn [isDone isGenerating negb andb orb].
      destruct (media (editor s)); [contradiction|]. reflexivity. }
    unfold runEffect. rewrite Hrun. cbn [fst snd List.last].
    rewrite Hpend, Hstatus. cbn [app statusEqb negb].
    split; [|split; [cbn; lia|intros H; discriminate H]].
    split; [exact Hm|]. split; [exact Hwf|]. split; [exact Hs|].
    split; [exact Ha|]. split; [exact Hthrows|].
    cbn. split; [reflexivity|]. split; reflexivity.
  - (* the run resumes and fails *)
    destruct Hstage as (Hdue & Hpend & Hstatus). rewrite Hdue.
    destruct (loop_fails trim service (editor s) error Hwf Hthrows)
      as (st' & Hloop & Hcalls & Hwf' & Hthrows').
    unfold resumePass. rewrite Hpend.
    unfold generateCaptionsRest.
    cbn [p_updatedMedia p_imagesToCaption]. rewrite Hloop.
    cbn [fst snd calls editor].
    split; [|split; [lia|intros _; split; [lia|reflexivity]]].
    split; [exact Hm|]. split; [exact Hwf'|]. split; [exact Hs|].
    split; [exact Ha|]. split; [exact Hthrows'|].
    cbn. rewrite Hstatus, Hdue. cbn.
    split; [reflexivity|]. split; [reflexivity|].
    right. reflexivity.
Qed.

Lemma retrying_unsettled service media0 stage s :
  retrying service media0 stage s -> settled s = false.
Proof.
  intros (_ & _ & _ & _ & _ & Hstage). unfold settled.
  destruct stage as [|[|[|stage]]]; [| | |destruct Hstage];
    destruct Hstage as (-> & -> & _); reflexivity.
Qed.

Lemma drain_retrying trim apiKey service media0 fuel : forall stage s,
  truthy apiKey = true ->
  retrying service media0 stage s ->
  exists stage',
    retrying service media0 stage' (drain trim apiKey service fuel s).
Proof.
  induction fuel as [|fuel IH]; intros stage s Hkey Hr.
  - exists stage. exact Hr.
  - cbn [drain].
    destruct (step_retrying trim apiKey service media0 stage s Hkey Hr)
      as (Hr' & _).
    exact (IH _ _ Hkey Hr').
Qed.

(** From one invocation of the effect to the next: three steps, at least
    one caption call. *)
Lemma round_retrying trim apiKey service media0 s :
  truthy apiKey = true ->
  retrying service media0 0 s ->
  let s' := drain trim apiKey service 3 s in
  retrying service media0 0 s' /\ (calls s < calls s')%nat /\
  captionStatus (editor s') = error.
Proof.
  intros Hkey H0 s'. subst s'. cbn [drain].
  destruct (step_retrying trim apiKey service media0 0 s Hkey H0)
    as (H1 & Hc1 & _).
  destruct (step_retrying trim apiKey service media0 1 _ Hkey H1)
    as (H2 & Hc2 & _).
  destruct (step_retrying trim apiKey service media0 2 _ Hkey H2)
    as (H3 & _ & Hc3).
  destruct (Hc3 eq_refl) as [Hlt Herr].
  split; [exact H3|]. split; [lia|exact Herr].
Qed.

(** X15. A pass that fails because a caption call throws is retried
    without bound (ids unique).  With captions on, the key available and
    an image still to caption for which the call throws, the editor left
    to itself never comes to rest: the effect starts a run, the run fails
    after at least one caption call and sets the status [error], the
    changed status invokes the effect again, and so on; after [3 * n]
    steps at least [n] calls have been made, with the media array as it
    was.  When instead the key itself is missing the failure happens
    before the first [await]: the status is [error] after the batch, the
    next invocation leaves it there, and the editor is at rest after two
    steps without a single call. *)
Theorem X15_failed_pass_retried :
  forall (trim : string -> string) (apiKey : option string)
         (service : File -> option string) (e : Editor),
    wellFormed e ->
    smartCaptionsEnabled e = true -> isApiKeyAvailable e = true ->
    (captionStatus e = idle \/ captionStatus e = error) ->
    throwsFor service e ->
    (truthy apiKey = true ->
     (forall fuel,
        settled (drain trim apiKey service fuel (rendered e)) = false) /\
     (forall n,
        let s := drain trim apiKey service (3 * n) (rendered e) in
        (n <= calls s)%nat /\ media (editor s) = media e /\
        throwsFor service (editor s) /\
        ((0 < n)%nat -> captionStatus (editor s) = error))) /\
    (truthy apiKey = false ->
     forall fuel, (2 <= fuel)%nat ->
       let s := drain trim apiKey service fuel (rendered e) in
       settled s = true /\ calls s = 0%nat /\
       captionStatus (editor s) = error /\
       store (editor s) = store e /\ media (editor s) = media e).
Proof.
  intros trim apiKey service e Hwf Hs Ha Hstatus Hthrows.
  assert (H0 : retrying service (media e) 0 (rendered e)).
  { split; [reflexivity|]. repeat (split; [assumption|]).
    cbn. auto. }
  split.
  - intros Hkey. split.
    + intros fuel.
      destruct (drain_retrying trim apiKey service (media e) fuel 0 _ Hkey H0)
        as (stage & Hr).
      exact (retrying_unsettled _ _ _ _ Hr).
    + assert (Hrounds : forall n,
        retrying service (media e) 0
          (drain trim apiKey service (3 * n) (rendered e)) /\
        (n <= calls (drain trim apiKey service (3 * n) (rendered e)))%nat /\
        ((0 < n)%nat ->
         captionStatus
           (editor (drain trim apiKey service (3 * n) (rendered e)))
         = error)).
      { induction n as [|n (IH1 & IH2 & _)].
        - cbn. split; [exact H0|]. split; [lia|intros H; lia].
        - replace (3 * S n)%nat with (3 * n + 3)%nat by lia.
          rewrite drain_add.
          destruct (round_retrying trim apiKey service (media e) _ Hkey IH1)
            as (R1 & R2 & R3).
          split; [exact R1|]. split; [lia|intros _; exact R3]. }
      intros n s.
      destruct (Hrounds n) as ((Hm & _ & _ & _ & Ht & _) & Hc & He).
      split; [exact Hc|]. split; [exact Hm|]. split; [exact Ht|exact He].
  - intros Hkey fuel Hfuel s. subst s.
    pose proof (throwsFor_todo service _ Hthrows) as Htodo.
    assert (Hmedia : media e <> []).
    { intros Hnil. apply Htodo. unfold imagesToCaption. rewrite Hnil.
      reflexivity. }
    assert (Hrun : forall e',
      smartCaptionsEnabled e' = true -> isApiKeyAvailable e' = true ->
      (captionStatus e' = idle \/ captionStatus e' = error) ->
      imagesToCaption e' <> [] ->
      captionEffect apiKey e' = ([generating; error], None)).
    { intros e' Hs' Ha' Hc Ht. unfold captionEffect, generateCaptionsSync.
      rewrite Hs', Ha', Hkey.
      assert (Hm' : media e' <> []).
      { intros Hnil. apply Ht. unfold imagesToCaption. rewrite Hnil.
        reflexivity. }
      destruct Hc as [-> | ->]; cbn [isDone isGenerating negb andb orb];
        (destruct (imagesToCaption e'); [contradiction|]);
        (destruct (media e'); [contradiction|]); reflexivity. }
    assert (Hrest : forall fuel' s,
      settled s = true -> drain trim apiKey service fuel' s = s).
    { induction fuel' as [|fuel' IH]; intros s Hset; [reflexivity|].
      cbn [drain]. unfold settled in Hset.
      apply andb_true_iff in Hset. destruct Hset as [Hd Hp].
      apply negb_true_iff in Hd.
      assert (Hstep : step trim apiKey service s = s).
      { unfold step, resumePass. rewrite Hd.
        destruct (pending s); [reflexivity|discriminate]. }
      rewrite Hstep. apply IH. unfold settled. rewrite Hd, Hp.
      reflexivity. }
    destruct fuel as [|[|fuel]]; [lia|lia|].
    cbn [drain].
    assert (Hstep1 :
      step trim apiKey service (rendered e)
      = {| editor := withStatus e (store e) (media e) error;
           pending := [];
           effectDue := negb (statusEqb error (captionStatus e));
           calls := 0 |}).
    { unfold step, rendered. cbn [effectDue]. unfold runEffect.
      cbn [editor pending calls].
      rewrite (Hrun e Hs Ha Hstatus Htodo). reflexivity. }
    rewrite Hstep1.
    destruct Hstatus as [Hi|Herr].
    + rewrite Hi. cbn [statusEqb negb].
      assert (Hstep2 :
        step trim apiKey service
          {| editor := withStatus e (store e) (media e) error;
             pending := []; effectDue := true; calls := 0 |}
        = {| editor := withStatus e (store e) (media e) error;
             pending := []; effectDue := false; calls := 0 |}).
      { unfold step. cbn [effectDue]. unfold runEffect.
        cbn [editor pending calls].
        rewrite (Hrun (withStatus e (store e) (media e) error) Hs Ha
                   (or_intror eq_refl) Htodo).
        reflexivity. }
      rewrite Hstep2, Hrest by reflexivity.
      repeat split.
    + rewrite Herr. cbn [statusEqb negb].
      rewrite Hrest by reflexivity. repeat split.
Qed.

Lemma X15_failed_pass_retried_witness :
  settled
    (drain trimLatin1 (Some "key") flakyService 30 (rendered threePhotos))
  = false /\
  (4 <= calls
          (drain trimLatin1 (Some "key") flakyService 12
             (rendered threePhotos)))%nat.
Proof.
  destruct (X15_failed_pass_retried trimLatin1 (Some "key") flakyService
              threePhotos) as [Hretry _].
  - split.
    + intros l Hl. cbn in Hl.
      destruct Hl as [<-|[<-|[<-|[]]]]; eexists; reflexivity.
    + cbn. repeat constructor; cbn; intuition discriminate.
  - reflexivity.
  - reflexivity.
  - left. reflexivity.
  - exists 2%nat, (photo "c.jpg" None).
    split; [right; left; reflexivity|]. split; reflexivity.
  - destruct (Hretry eq_refl) as [Hnever Hcalls].
    split; [exact (Hnever 30%nat)|exact (proj1 (Hcalls 4%nat))].
Defined.

End CaptionMore.

(** ** Facts about the media list over a session *)

Module SessionFacts.
Import Upload UploadFacts Editing EditingFacts Session.

Section Handler.

Variable Date_now : nat -> Z.
Variable createObjectURL : File -> string.

Local Abbreviation processFiles := (processFiles Date_now createObjectURL).

(** A batch that fits is taken whole. *)
Lemma processFiles_fits files : forall k um al,
  (countImages um + length (List.filter isImageFile files)
   <= MAX_IMAGES)%nat ->
  (countVideos um + length (List.filter isVideoFile files)
   <= MAX_VIDEOS)%nat ->
  (forall f, In f files -> isVideoFile f = true ->
             (file_duration f <= inject_Z MAX_VIDEO_DURATION)%Q) ->
  exists added,
    processFiles files k um al = (um ++ added, al) /\
    List.map mf_file added
    = List.filter (fun f => isImageFile f || isVideoFile f) files /\
    (forall x, In x added ->
       mf_caption x = None /\
       mf_type x = if isImageFile (mf_file x) then image else video).
Proof.
  induction files as [|f rest IH]; intros k um al Hi Hv Hd.
  - exists []. rewrite app_nil_r. split; [reflexivity|].
    split; [reflexivity|intros x []].
  - cbn [processFiles Upload.processFiles List.filter] in *.
    unfold isVideoFile in *. unfold isImageFile in *.
    destruct (startsWith "image/" (file_type f)) eqn:Ei; cbn [negb andb orb] in *.
    + cbn [length] in Hi.
      destruct (Nat.ltb_spec (countImages um) MAX_IMAGES) as [Hc|Hc]; [|lia].
      destruct (IH (S k) (um ++ [newItem Date_now createObjectURL image f k]) al)
        as (added & Hr & Hm & Ht).
      * rewrite countImages_snoc. cbn. lia.
      * rewrite countVideos_snoc. cbn. lia.
      * intros f' Hf'. apply Hd. right. exact Hf'.
      * exists (newItem Date_now createObjectURL image f k :: added).
        rewrite <- app_assoc in Hr. split; [exact Hr|].
        split; [cbn; rewrite Hm; reflexivity|].
        intros x [<-|Hx]; [cbn; rewrite Ei; auto|auto].
    + destruct (startsWith "video/" (file_type f)) eqn:Ev.
      * cbn [length] in Hv.
        destruct (Nat.ltb_spec (countVideos um) MAX_VIDEOS) as [Hc|Hc]; [|lia].
        assert (Hdur : Qltb (inject_Z MAX_VIDEO_DURATION) (file_duration f)
                       = false).
        { apply Qltb_ge. apply Hd; [left; reflexivity|].
          rewrite Ei, Ev. reflexivity. }
        rewrite Hdur.
        destruct (IH (S k) (um ++ [newItem Date_now createObjectURL video f k]) al)
          as (added & Hr & Hm & Ht).
        -- rewrite countImages_snoc. cbn. lia.
        -- rewrite countVideos_snoc. cbn. lia.
        -- intros f' Hf'. apply Hd. right. exact Hf'.
        -- exists (newItem Date_now createObjectURL video f k :: added).
           rewrite <- app_assoc in Hr. split; [exact Hr|].
           split; [cbn; rewrite Hm; reflexivity|].
           intros x [<-|Hx]; [cbn; rewrite Ei; auto|auto].
      * apply IH; [exact Hi|exact Hv|].
        intros f' Hf'. apply Hd. right. exact Hf'.
Qed.

End Handler.

(** X16. A batch that fits is taken whole and silently.  When the images
    of the batch fit under the cap of 30 together with those of the list,
    its videos under the cap of 1, and no video is longer than 30s, the
    handler appends one item for each image file and each video file, in
    batch order, typed by its file and without caption, and shows no alert;
    files that are neither image nor video are left out without a
    message. *)
Theorem X16_fitting_batch_taken_whole :
  forall (Date_now : nat -> Z) (createObjectURL : File -> string)
         (media : list MediaFile) (files : list File),
    (countImages media + length (List.filter isImageFile files)
     <= MAX_IMAGES)%nat ->
    (countVideos media + length (List.filter isVideoFile files)
     <= MAX_VIDEOS)%nat ->
    (forall f, In f files -> isVideoFile f = true ->
               (file_duration f <= inject_Z MAX_VIDEO_DURATION)%Q) ->
    exists added,
      handleMediaUpload Date_now createObjectURL media files
      = (media ++ added, []) /\
      List.map mf_file added
      = List.filter (fun f => isImageFile f || isVideoFile f) files /\
      (forall x, In x added ->
         mf_caption x = None /\
         mf_type x = if isImageFile (mf_file x) then image else video).
Proof.
  intros Date_now createObjectURL media files Hi Hv Hd.
  unfold handleMediaUpload. destruct files as [|f rest].
  - exists []. rewrite app_nil_r. split; [reflexivity|].
    split; [reflexivity|intros x []].
  - cbn [length Nat.eqb].
    apply processFiles_fits; assumption.
Qed.

Lemma X16_fitting_batch_taken_whole_witness :
  exists added,
    handleMediaUpload sampleClock sampleURL [] mixedBatch
    = ([] ++ added, []) /\
    List.map mf_file added
    = List.filter (fun f => isImageFile f || isVideoFile f) mixedBatch /\
    (forall x, In x added ->
       mf_caption x = None /\
       mf_type x = if isImageFile (mf_file x) then image else video).
Proof.
  apply (X16_fitting_batch_taken_whole sampleClock sampleURL [] mixedBatch).
  - vm_compute. lia.
  - vm_compute. lia.
  - intros f Hf Hv. cbn in Hf.
    destruct Hf as [<-|[<-|[<-|[<-|[]]]]]; try discriminate Hv.
    vm_compute. discriminate.
Defined.

Lemma handleDrop_permutation sourceId targetId (l : list MediaFile) :
  handleDrop sourceId targetId l ≡ₚ l.
Proof.
  unfold handleDrop. destruct (_ && _); [|reflexivity].
  destruct (findIndexById sourceId l) as [si|] eqn:Hsi; [|reflexivity].
  destruct (findIndexById targetId l) as [ti|] eqn:Hti; [|reflexivity].
  destruct (l !! si) as [d|] eqn:Hd; [|reflexivity].
  destruct (findIndexById_Some _ _ _ Hti) as (t & Ht & _).
  assert (Hle : (ti <= length (delete si l))%nat).
  { rewrite length_delete by eauto. apply lookup_lt_Some in Ht. lia. }
  destruct (spliceIn_at ti d (delete si l) Hle) as (Hp & _).
  rewrite Hp. symmetry. apply delete_Permutation. exact Hd.
Qed.

Lemma filter_length_permutation (f : MediaFile -> bool) l l' :
  l ≡ₚ l' -> length (List.filter f l) = length (List.filter f l').
Proof.
  induction 1 as [|x l l' _ IH|x y l|l l' l'' _ IH1 _ IH2]; cbn.
  - reflexivity.
  - destruct (f x); cbn; congruence.
  - destruct (f x), (f y); reflexivity.
  - congruence.
Qed.

Lemma filter_length_filter (f g : MediaFile -> bool) l :
  (length (List.filter f (List.filter g l)) <= length (List.filter f l))%nat.
Proof.
  induction l as [|x l IH]; [reflexivity|]. cbn.
  destruct (g x); cbn; destruct (f x); cbn; lia.
Qed.

Lemma imageCount_countImages (l : list MediaFile) :
  AutoAdjust.imageCount l = Z.of_nat (countImages l).
Proof.
  unfold AutoAdjust.imageCount, AutoAdjust.counts, countImages.
  assert (H : forall a b,
    fst (fold_left
           (fun acc item =>
              (if is_image item then fst acc + 1 else fst acc,
               if is_video item then snd acc + 1 else snd acc)) l (a, b))
    = a + Z.of_nat (length (List.filter is_image l))).
  { induction l as [|x l IH]; intros a b; cbn; [lia|].
    rewrite IH. destruct (is_image x); cbn; lia. }
  rewrite H. lia.
Qed.

Lemma one_video_duration (l : list MediaFile) :
  (countVideos l <= MAX_VIDEOS)%nat ->
  (forall x, In x l -> admissible x) ->
  (AutoAdjust.totalDuration
     (List.map (fun v => file_duration (mf_file v)) (List.filter is_video l))
   <= inject_Z MAX_VIDEO_DURATION)%Q.
Proof.
  unfold countVideos, MAX_VIDEOS. intros Hc Ha.
  assert (Hin : forall v, In v (List.filter is_video l) ->
                 (file_duration (mf_file v) <= inject_Z MAX_VIDEO_DURATION)%Q).
  { intros v Hv. apply filter_In in Hv. destruct Hv as [Hv Hk].
    specialize (Ha v Hv). unfold admissible in Ha. unfold is_video in Hk.
    destruct (mf_type v); [discriminate|]. apply Ha. }
  destruct (List.filter is_video l) as [|v [|w rest]]; cbn in Hc; [| |lia].
  - vm_compute. discriminate.
  - unfold AutoAdjust.totalDuration. cbn.
    specialize (Hin v (or_introl eq_refl)). lra.
Qed.

(** X17. The limits hold throughout a session.  Whatever sequence of
    uploads, removals and drops led from a new slideshow to the current
    list, it holds at most 30 images and at most one video; every item is
    an image made from an image file or a video of at most 30s made from a
    video file; so the [imageCount] the controller computes is between 0
    and 30 and the video durations it sums come to at most 30s. *)
Theorem X17_limits_hold_in_session :
  forall media : list MediaFile,
    reachable media ->
    (countImages media <= MAX_IMAGES)%nat /\
    (countVideos media <= MAX_VIDEOS)%nat /\
    (forall x, In x media -> admissible x) /\
    0 <= AutoAdjust.imageCount media <= 30 /\
    (AutoAdjust.totalDuration
       (List.map (fun v => file_duration (mf_file v))
          (List.filter is_video media))
     <= 30)%Q.
Proof.
  intros media Hr.
  assert (H : (countImages media <= MAX_IMAGES)%nat /\
              (countVideos media <= MAX_VIDEOS)%nat /\
              (forall x, In x media -> admissible x)).
  { induction Hr as [|clock url media files Hr (IH1 & IH2 & IH3)
                     |id media Hr (IH1 & IH2 & IH3)
                     |sid tid media Hr (IH1 & IH2 & IH3)].
    - split; [cbn; lia|]. split; [cbn; lia|]. intros x [].
    - unfold handleMediaUpload. destruct files as [|f rest]; [cbn; auto|].
      cbn [length Nat.eqb].
      destruct (processFiles_result clock url (f :: rest) 0 media [])
        as (added & more & -> & _ & Ha & Hi & Hv & _).
      cbn [fst]. split; [lia|]. split; [lia|].
      intros x Hx. apply in_app_or in Hx. destruct Hx; auto.
    - rewrite removeMedia_fst. unfold countImages, countVideos in *.
      split; [|split].
      + etransitivity; [apply filter_length_filter|exact IH1].
      + etransitivity; [apply filter_length_filter|exact IH2].
      + intros x Hx. apply filter_In in Hx. apply IH3. apply Hx.
    - pose proof (handleDrop_permutation sid tid media) as Hp.
      unfold countImages, countVideos in *.
      rewrite !(filter_length_permutation _ _ _ Hp).
      split; [exact IH1|]. split; [exact IH2|].
      intros x Hx. apply IH3.
      apply list_elem_of_In. rewrite <- Hp. apply list_elem_of_In. exact Hx. }
  destruct H as (H1 & H2 & H3).
  split; [exact H1|]. split; [exact H2|]. split; [exact H3|]. split.
  - rewrite imageCount_countImages. unfold MAX_IMAGES in H1. lia.
  - apply (one_video_duration media H2 H3).
Qed.

Lemma X17_limits_hold_in_session_witness :
  (countImages
     (handleDrop "b.png-1700000000003" "a.png-1700000000000"
        (fst (handleMediaUpload sampleClock sampleURL [] mixedBatch)))
   <= MAX_IMAGES)%nat.
Proof.
  refine (proj1 (X17_limits_hold_in_session _ _)).
  apply reach_drop. apply reach_upload. apply reach_new.
Defined.

End SessionFacts.

(** ** Facts about the first version of the editor *)

Module LegacyFacts.
Import Legacy.

Lemma newImages_files clock url k files :
  List.map img_file (newImages clock url k files) = files.
Proof.
  revert k. induction files as [|f rest IH]; intros k; [reflexivity|].
  cbn. rewrite IH. reflexivity.
Qed.

(** X18. In the first version an upload is all or nothing.  The list never
    holds more than 20 images afterwards.  A batch that fits is appended
    whole, in order, without alert; a batch that would take the list beyond
    20 is refused whole with the alert, also the files that would still
    have fitted, and a list within the limit is left as it was. *)
Theorem X18_legacy_upload_all_or_nothing :
  forall (Date_now : nat -> Z) (createObjectURL : File -> string)
         (files : list File) (prev : list ImageFile),
    let r := handleImageUpload Date_now createObjectURL files prev in
    (length (fst r) <= MAX_UPLOAD)%nat /\
    ((length prev + length files <= MAX_UPLOAD)%nat ->
     exists added,
       r = (prev ++ added, []) /\ List.map img_file added = files) /\
    ((MAX_UPLOAD < length prev + length files)%nat ->
     r = (take MAX_UPLOAD prev, [maximumAlert]) /\
     ((length prev <= MAX_UPLOAD)%nat -> fst r = prev)).
Proof.
  intros clock url files prev r. subst r. unfold handleImageUpload.
  assert (Hlen : length (prev ++ newImages clock url 0 files)
                 = (length prev + length files)%nat).
  { rewrite length_app. f_equal.
    rewrite <- (newImages_files clock url 0 files) at 2.
    rewrite length_map. reflexivity. }
  rewrite Hlen.
  destruct (Nat.ltb_spec MAX_UPLOAD (length prev + length files)) as [H|H].
  - cbn [fst]. split; [rewrite length_take; lia|]. split; [lia|].
    intros _. split; [reflexivity|]. intros Hp. apply take_ge. exact Hp.
  - cbn [fst]. split; [rewrite Hlen; exact H|]. split; [|lia].
    intros _. eexists. split; [reflexivity|]. apply newImages_files.
Qed.

End LegacyFacts.

(** ** Facts about the saved slideshows *)

Module LibraryFacts.
Import Library.

Lemma map_update_ids (f : SavedSlideshow -> SavedSlideshow) id l :
  (forall s, ss_id (f s) = ss_id s) ->
  List.map ss_id
    (List.map (fun s => if String.eqb (ss_id s) id then f s else s) l)
  = List.map ss_id l.
Proof.
  intros Hf. rewrite List.map_map. apply map_ext. intros s.
  destruct (String.eqb (ss_id s) id); [apply Hf|reflexivity].
Qed.

(** What the handler's updaters leave, before the next render. *)
Lemma handleSaveSlideshow_updaters :
  forall (fileToDataUrl : File -> option string)
         (promptAnswer : option string) (now : Z) (w : Workspace),
    let r := handleSaveSlideshow fileToDataUrl promptAnswer now w in
    sameEditor w (fst r) /\
    (length (savedSlideshows (fst r))
     <= Nat.max MAX_SAVED_SLIDESHOWS (length (savedSlideshows w)))%nat /\
    ((List.map ss_id (savedSlideshows (fst r))
        = List.map ss_id (savedSlideshows w) /\
      activeSlideshowId (fst r) = activeSlideshowId w) \/
     (exists entry,
        savedSlideshows (fst r) = savedSlideshows w ++ [entry] /\
        activeSlideshowId (fst r) = Some (ss_id entry) /\
        truthy (activeSlideshowId w) = false /\
        (length (savedSlideshows w) < MAX_SAVED_SLIDESHOWS)%nat)) /\
    (forall s,
       In s (savedSlideshows w) -> Some (ss_id s) <> activeSlideshowId w ->
       In s (savedSlideshows (fst r))) /\
    (truthy (activeSlideshowId w) = false -> truthy promptAnswer = false ->
     r = (w, [])) /\
    ((mapM (serializeItem fileToDataUrl) (media w) = None \/
      serializeAudio fileToDataUrl (audioFile w) = None) ->
     savedSlideshows (fst r) = savedSlideshows w /\
     activeSlideshowId (fst r) = activeSlideshowId w /\
     (truthy (activeSlideshowId w) || truthy promptAnswer = true ->
      snd r = [saveErrorAlert])).
Proof.
  intros enc answer now w r. subst r. unfold handleSaveSlideshow.
  destruct (truthy (activeSlideshowId w)) eqn:Ea.
  - (* a slideshow is active *)
    destruct (mapM (serializeItem enc) (media w)) as [sm|] eqn:Em;
      [destruct (serializeAudio enc (audioFile w)) as [sa|] eqn:Es|].
    + destruct (activeSlideshowId w) as [id|] eqn:Eid; [|discriminate].
      rewrite Ea. unfold updateExisting. cbn [fst snd].
      cbn [withLoading withSaved savedSlideshows activeSlideshowId].
      split; [repeat split|]. split.
      { rewrite length_map. lia. }
      split.
      { left. split; [|congruence].
        apply (map_update_ids
                 (fun s => savedEntry (ss_id s) (activeSlideshowName w)
                             sm sa now w)).
        reflexivity. }
      split.
      { intros s Hs Hne. apply in_map_iff. exists s. split; [|exact Hs].
        destruct (String.eqb_spec (ss_id s) id) as [E|E]; [|reflexivity].
        exfalso. apply Hne. congruence. }
      split; [discriminate|]. intros [H|H]; discriminate.
    + cbn [fst snd withLoading savedSlideshows activeSlideshowId].
      split; [repeat split|]. split; [lia|]. split; [left; auto|].
      split; [auto|]. split; [discriminate|]. auto.
    + cbn [fst snd withLoading savedSlideshows activeSlideshowId].
      split; [repeat split|]. split; [lia|]. split; [left; auto|].
      split; [auto|]. split; [discriminate|]. auto.
  - (* no slideshow is active *)
    destruct (truthy answer) eqn:Ep.
    + destruct answer as [name|]; [|discriminate].
      destruct (mapM (serializeItem enc) (media w)) as [sm|] eqn:Em;
        [destruct (serializeAudio enc (audioFile w)) as [sa|] eqn:Es|].
      * assert (Hbranch :
          match activeSlideshowId w with
          | Some id =>
              if truthy (Some id)
              then updateExisting id name sm sa now w
              else createNew name sm sa now w
          | None => createNew name sm sa now w
          end = createNew name sm sa now w).
        { destruct (activeSlideshowId w) as [id|]; [|reflexivity].
          rewrite Ea. reflexivity. }
        rewrite Hbranch. unfold createNew.
        destruct (Nat.leb_spec MAX_SAVED_SLIDESHOWS
                    (length (savedSlideshows w))) as [Hc|Hc];
          cbn [fst snd withLoading withSaved savedSlideshows
                 activeSlideshowId].
        -- split; [repeat split|]. split; [lia|]. split; [left; auto|].
           split; [auto|]. split; [discriminate|].
           intros [H|H]; discriminate.
        -- split; [repeat split|].
           split; [rewrite length_app; cbn; lia|].
           split; [right; eexists; repeat split; exact Hc|].
           split; [intros s Hs _; apply in_or_app; left; exact Hs|].
           split; [discriminate|]. intros [H|H]; discriminate.
      * cbn [fst snd withLoading savedSlideshows activeSlideshowId].
        split; [repeat split|]. split; [lia|]. split; [left; auto|].
        split; [auto|]. split; [discriminate|]. auto.
      * cbn [fst snd withLoading savedSlideshows activeSlideshowId].
        split; [repeat split|]. split; [lia|]. split; [left; auto|].
        split; [auto|]. split; [discriminate|]. auto.
    + cbn [fst snd]. split; [repeat split|]. split; [lia|].
      split; [left; auto|]. split; [auto|]. split; [auto|].
      intros _. split; [reflexivity|]. split; [reflexivity|].
      cbn. discriminate.
Qed.

Lemma insertByTimestamp_perm x l :
  Permutation (insertByTimestamp x l) (x :: l).
Proof.
  induction l as [|y rest IH]; [reflexivity|]. cbn [insertByTimestamp].
  destruct (ss_timestamp x <? ss_timestamp y); [|reflexivity].
  rewrite IH. apply perm_swap.
Qed.

Lemma sortNewestFirst_perm l : Permutation (sortNewestFirst l) l.
Proof.
  induction l as [|x rest IH]; [reflexivity|].
  cbn [sortNewestFirst fold_right]. rewrite insertByTimestamp_perm.
  apply perm_skip. exact IH.
Qed.

Lemma insertByTimestamp_sorted x l :
  newestFirst l -> newestFirst (insertByTimestamp x l).
Proof.
  unfold newestFirst. induction l as [|y rest IH]; intros Hl.
  - repeat constructor.
  - cbn [insertByTimestamp]. inversion Hl as [|? ? Hrest Hall]; subst.
    destruct (Z.ltb_spec (ss_timestamp x) (ss_timestamp y)) as [E|E].
    + constructor; [exact (IH Hrest)|].
      rewrite List.Forall_forall. intros z Hz.
      apply (Permutation_in _ (insertByTimestamp_perm x rest)) in Hz.
      destruct (in_inv Hz) as [Hx|Hz']; [subst z; lia|].
      rewrite List.Forall_forall in Hall. exact (Hall z Hz').
    + constructor; [exact Hl|].
      rewrite List.Forall_forall. intros z Hz.
      destruct (in_inv Hz) as [Hy|Hz']; [subst z; exact E|].
      rewrite List.Forall_forall in Hall. specialize (Hall z Hz'). lia.
Qed.

Lemma sortNewestFirst_sorted l : newestFirst (sortNewestFirst l).
Proof.
  induction l as [|x rest IH]; [constructor|].
  cbn [sortNewestFirst fold_right]. apply insertByTimestamp_sorted. exact IH.
Qed.

(** The render leaves the editor alone and permutes the saved list. *)
Lemma render_spec w :
  sameEditor w (render w) /\
  activeSlideshowId (render w) = activeSlideshowId w /\
  isLoading (render w) = isLoading w /\
  Permutation (savedSlideshows (render w)) (savedSlideshows w) /\
  (isLoading w = false -> newestFirst (savedSlideshows (render w))).
Proof.
  unfold render.
  destruct (isLoading w) eqn:El; cbn [negb andb].
  - split; [repeat split|]. split; [reflexivity|]. split; [exact El|].
    split; [reflexivity|discriminate].
  - destruct (savedSlideshows w) as [|x rest] eqn:Es;
      cbn [length Nat.ltb Nat.leb].
    + split; [repeat split|]. split; [reflexivity|]. split; [exact El|].
      rewrite Es. split; [reflexivity|]. intros _. constructor.
    + cbn [withSaved savedSlideshows activeSlideshowId isLoading].
      split; [repeat split|]. split; [reflexivity|]. split; [exact El|].
      split; [apply sortNewestFirst_perm|].
      intros _. apply sortNewestFirst_sorted.
Qed.

(** X19. A save never loses a saved slideshow and never takes the library
    beyond five by adding.  After the handler and the render that follows
    it, the slideshow being edited is as it was.  The saved list holds the
    same ids as before, or one entry more while no slideshow was active
    and fewer than five were saved, and that entry is the active one now.
    Every entry other than the active one is still there unchanged.  The
    list is ordered newest first once the editor is not loading.  A
    cancelled prompt changes nothing and shows nothing; a file that cannot
    be read leaves the entries and the active slideshow as they were and,
    unless the prompt was cancelled, shows the error alert alone. *)
Theorem X19_save_keeps_library :
  forall (fileToDataUrl : File -> option string)
         (promptAnswer : option string) (now : Z) (w : Workspace),
    let r := handleSaveSlideshow fileToDataUrl promptAnswer now w in
    let w' := render (fst r) in
    sameEditor w w' /\
    (length (savedSlideshows w')
     <= Nat.max MAX_SAVED_SLIDESHOWS (length (savedSlideshows w)))%nat /\
    ((Permutation (List.map ss_id (savedSlideshows w'))
        (List.map ss_id (savedSlideshows w)) /\
      activeSlideshowId w' = activeSlideshowId w) \/
     (exists entry,
        Permutation (savedSlideshows w') (entry :: savedSlideshows w) /\
        activeSlideshowId w' = Some (ss_id entry) /\
        truthy (activeSlideshowId w) = false /\
        (length (savedSlideshows w) < MAX_SAVED_SLIDESHOWS)%nat)) /\
    (forall s,
       In s (savedSlideshows w) -> Some (ss_id s) <> activeSlideshowId w ->
       In s (savedSlideshows w')) /\
    (isLoading w' = false -> newestFirst (savedSlideshows w')) /\
    (truthy (activeSlideshowId w) = false -> truthy promptAnswer = false ->
     r = (w, [])) /\
    ((mapM (serializeItem fileToDataUrl) (media w) = None \/
      serializeAudio fileToDataUrl (audioFile w) = None) ->
     Permutation (savedSlideshows w') (savedSlideshows w) /\
     activeSlideshowId w' = activeSlideshowId w /\
     (truthy (activeSlideshowId w) || truthy promptAnswer = true ->
      snd r = [saveErrorAlert])).
Proof.
  intros enc answer now w r w'.
  destruct (handleSaveSlideshow_updaters enc answer now w)
    as (Hsame & Hlen & Hids & Hkept & Hcancel & Hfail).
  fold r in Hsame, Hlen, Hids, Hkept, Hcancel, Hfail.
  destruct (render_spec (fst r))
    as (Rsame & Ractive & Rload & Rperm & Rsorted).
  fold w' in Rsame, Ractive, Rload, Rperm, Rsorted.
  split.
  { destruct Hsame as (H1 & H2 & H3 & H4 & H5 & H6 & H7).
    destruct Rsame as (R1 & R2 & R3 & R4 & R5 & R6 & R7).
    repeat split; congruence. }
  split; [rewrite (Permutation_length Rperm); exact Hlen|].
  split.
  { destruct Hids as [[Hmap Hact]|(entry & Happ & Hact & Hnone & Hcap)].
    - left. split; [|congruence].
      rewrite <- Hmap. apply Permutation_map. exact Rperm.
    - right. exists entry. split; [|split; [congruence|auto]].
      rewrite Rperm, Happ. symmetry. apply Permutation_cons_append. }
  split.
  { intros s Hs Hne. apply (Permutation_in _ (Permutation_sym Rperm)).
    exact (Hkept s Hs Hne). }
  split; [intros Hl; apply Rsorted; congruence|].
  split; [exact Hcancel|].
  intros Herr. destruct (Hfail Herr) as (F1 & F2 & F3).
  split; [rewrite Rperm, F1; reflexivity|]. split; [congruence|exact F3].
Qed.

Lemma findSlideshow_id id l s :
  findSlideshow id l = Some s -> In s l /\ ss_id s = id.
Proof.
  unfold findSlideshow. intros H. apply find_some in H.
  destruct H as [Hin He]. split; [exact Hin|].
  apply String.eqb_eq. exact He.
Qed.

Lemma findSlideshow_none id l :
  findSlideshow id l = None <-> (forall s, In s l -> ss_id s <> id).
Proof.
  unfold findSlideshow. split.
  - intros H s Hs E. pose proof (find_none _ _ H s Hs) as Hn. cbn in Hn.
    apply String.eqb_neq in Hn. contradiction.
  - intros H. destruct (List.find _ l) as [s|] eqn:E; [|reflexivity].
    apply find_some in E. destruct E as [Hin He].
    apply String.eqb_eq in He. exfalso. exact (H s Hin He).
Qed.

Lemma findSlideshow_snoc id l s :
  findSlideshow id l = None -> ss_id s = id ->
  findSlideshow id (l ++ [s]) = Some s.
Proof.
  unfold findSlideshow. intros Hn He. induction l as [|x l IH]; cbn in *.
  - rewrite He, String.eqb_refl. reflexivity.
  - destruct (String.eqb (ss_id x) id); [discriminate|]. apply IH, Hn.
Qed.

Lemma loaded_items dec url l items :
  mapM (loadItem dec url) l = Some items ->
  List.map mf_id items = List.map sm_id l /\
  List.map mf_type items = List.map sm_type l /\
  List.map mf_caption items = List.map sm_caption l /\
  Forall2 (fun m sm =>
             dec (sm_dataUrl sm) (sm_name sm) = Some (mf_file m) /\
             mf_previewUrl m = url (mf_file m)) items l.
Proof.
  intros Em. apply mapM_Some in Em.
  induction Em as [|sm m l1 l2 Hl _ IH].
  - cbn. repeat split. constructor.
  - destruct IH as (I1 & I2 & I3 & I4).
    unfold loadItem in Hl.
    destruct (dec (sm_dataUrl sm) (sm_name sm)) as [f|] eqn:Ed;
      [|discriminate].
    cbn in Hl. injection Hl as <-. cbn [List.map mf_id mf_type mf_caption].
    rewrite I1, I2, I3. repeat split; try reflexivity.
    constructor; [split; [exact Ed|reflexivity]|exact I4].
Qed.

(** X20. Loading leaves the library itself alone in every case.  An id that
    is not saved changes nothing.  When a saved file cannot be decoded the
    editor is left holding a new, empty slideshow, not the one that was
    being edited, and the error alert is shown.  When every file decodes,
    the editor holds the first entry saved under the id: its items in the
    saved order with their ids, types and captions, its audio and its
    settings, and the entry is the active one. *)
Theorem X20_load :
  forall (dataUrlToFile : string -> string -> option File)
         (createObjectURL : File -> string) (id : string) (w : Workspace),
    let r := handleLoadSlideshow dataUrlToFile createObjectURL id w in
    savedSlideshows (fst r) = savedSlideshows w /\
    (findSlideshow id (savedSlideshows w) = None -> r = (w, [])) /\
    (forall s,
       findSlideshow id (savedSlideshows w) = Some s ->
       isLoading (fst r) = false /\
       ((mapM (loadItem dataUrlToFile createObjectURL) (ss_media s) = None \/
         loadAudio dataUrlToFile (ss_audio s) = None) ->
        blankEditor (fst r) /\ snd r = [loadErrorAlert]) /\
       (forall items audio,
          mapM (loadItem dataUrlToFile createObjectURL) (ss_media s)
            = Some items ->
          loadAudio dataUrlToFile (ss_audio s) = Some audio ->
          snd r = [] /\
          activeSlideshowId (fst r) = Some (ss_id s) /\
          List.map mf_id (media (fst r)) = List.map sm_id (ss_media s) /\
          List.map mf_type (media (fst r)) = List.map sm_type (ss_media s) /\
          List.map mf_caption (media (fst r))
            = List.map sm_caption (ss_media s) /\
          Forall2 (fun m sm =>
                     dataUrlToFile (sm_dataUrl sm) (sm_name sm)
                       = Some (mf_file m) /\
                     mf_previewUrl m = createObjectURL (mf_file m))
            (media (fst r)) (ss_media s) /\
          audioFile (fst r) = audio /\
          currentSettings (fst r) = ss_settings s /\
          captionStatus (fst r) = Captions.idle)).
Proof.
  intros dec url id w r. subst r. unfold handleLoadSlideshow.
  destruct (findSlideshow id (savedSlideshows w)) as [s|] eqn:Ef.
  - apply findSlideshow_id in Ef. destruct Ef as [_ Hid].
    destruct (mapM (loadItem dec url) (ss_media s)) as [items|] eqn:Em;
      [destruct (loadAudio dec (ss_audio s)) as [audio|] eqn:Ea|].
    + cbn [fst snd savedSlideshows handleNewSlideshow].
      split; [reflexivity|]. split; [discriminate|].
      intros s' Hs'. injection Hs' as <-.
      rewrite Em, Ea. cbn [isLoading]. split; [reflexivity|].
      split; [intros [H|H]; discriminate|].
      intros items' audio' Hi Ha.
      injection Hi as <-. injection Ha as <-.
      cbn [media audioFile activeSlideshowId captionStatus].
      split; [reflexivity|]. split; [congruence|].
      destruct (loaded_items _ _ _ _ Em) as (I1 & I2 & I3 & I4).
      split; [exact I1|]. split; [exact I2|]. split; [exact I3|].
      split; [exact I4|]. split; [reflexivity|]. split; [|reflexivity].
      unfold currentSettings. cbn. destruct (ss_settings s); reflexivity.
    + cbn [fst snd savedSlideshows handleNewSlideshow withLoading].
      split; [reflexivity|]. split; [discriminate|].
      intros s' Hs'. injection Hs' as <-. rewrite Em, Ea.
      cbn [isLoading]. split; [reflexivity|].
      split; [intros _; split; [repeat split|reflexivity]|].
      intros ? ? ? H; discriminate.
    + cbn [fst snd savedSlideshows handleNewSlideshow withLoading].
      split; [reflexivity|]. split; [discriminate|].
      intros s' Hs'. injection Hs' as <-. rewrite Em.
      cbn [isLoading]. split; [reflexivity|].
      split; [intros _; split; [repeat split|reflexivity]|].
      intros ? ? H; discriminate.
  - cbn [fst]. split; [reflexivity|]. split; [reflexivity|].
    intros ? H; discriminate.
Qed.

(** X21. Save then load is a round trip.  When no slideshow is active, the
    prompt gave a name, fewer than five slideshows are saved, none of them
    has the id made from the clock, and decoding a data URL under the
    file's name gives back the file it was encoded from, then saving and
    loading the new entry shows no error and gives back the same items in
    the same order (ids, types, files; a fresh preview URL each; the
    captions of images, and none on videos), the same audio and the same
    settings, with the new entry active. *)
Theorem X21_save_then_load :
  forall (fileToDataUrl : File -> option string)
         (dataUrlToFile : string -> string -> option File)
         (createObjectURL : File -> string)
         (name : string) (now : Z) (w : Workspace),
    truthy (activeSlideshowId w) = false ->
    truthy (Some name) = true ->
    (length (savedSlideshows w) < MAX_SAVED_SLIDESHOWS)%nat ->
    findSlideshow ("slideshow-" ++ string_of_Z now) (savedSlideshows w)
      = None ->
    (forall f,
        In f (List.map mf_file (media w)) \/ audioFile w = Some f ->
        exists u,
          fileToDataUrl f = Some u /\
          dataUrlToFile u (file_name f) = Some f) ->
    let saved := handleSaveSlideshow fileToDataUrl (Some name) now w in
    let newId := ("slideshow-" ++ string_of_Z now)%string in
    let r := handleLoadSlideshow dataUrlToFile createObjectURL newId
               (fst saved) in
    snd saved = [savedAlert name] /\
    snd r = [] /\
    media (fst r) = List.map (reloaded createObjectURL) (media w) /\
    audioFile (fst r) = audioFile w /\
    interval (fst r) = interval w /\
    slideStyle (fst r) = slideStyle w /\
    showClock (fst r) = showClock w /\
    smartCaptionsEnabled (fst r) = smartCaptionsEnabled w /\
    activeSlideshowId (fst r) = Some newId /\
    length (savedSlideshows (fst r)) = S (length (savedSlideshows w)).
Proof.
  intros enc dec url name now w Ha Hname Hcap Hfresh Hinv saved newId r.
  assert (Hm : exists sm,
    mapM (serializeItem enc) (media w) = Some sm /\
    mapM (loadItem dec url) sm
      = Some (List.map (reloaded url) (media w))).
  { assert (Hfiles : forall f, In f (List.map mf_file (media w)) ->
              exists u, enc f = Some u /\ dec u (file_name f) = Some f)
      by (intros f Hf; apply Hinv; left; exact Hf).
    clear Hinv. induction (media w) as [|m l IH].
    - exists []. split; reflexivity.
    - destruct IH as (sm & E1 & E2).
      { intros f Hf. apply Hfiles. right. exact Hf. }
      destruct (Hfiles (mf_file m)) as (u & Hu & Hd); [left; reflexivity|].
      exists ({| sm_id := mf_id m; sm_type := mf_type m;
                 sm_name := file_name (mf_file m); sm_dataUrl := u;
                 sm_caption := if is_image m then mf_caption m else None |}
              :: sm).
      split.
      + apply mapM_Some. constructor.
        * unfold serializeItem. rewrite Hu. reflexivity.
        * apply mapM_Some. exact E1.
      + apply mapM_Some. constructor.
        * unfold loadItem. cbn. rewrite Hd. reflexivity.
        * apply mapM_Some. exact E2. }
  destruct Hm as (sm & Hsm & Hload).
  assert (Hau : exists sa,
    serializeAudio enc (audioFile w) = Some sa /\
    loadAudio dec sa = Some (audioFile w)).
  { destruct (audioFile w) as [f|] eqn:Eaf.
    - destruct (Hinv f) as (u & Hu & Hd); [right; reflexivity|].
      exists (Some {| sa_name := file_name f; sa_dataUrl := u |}). split.
      + cbn. rewrite Hu. reflexivity.
      + cbn. rewrite Hd. reflexivity.
    - exists None. split; reflexivity. }
  destruct Hau as (sa & Hsa & Hla).
  assert (Hsaved : saved = createNew name sm sa now w).
  { subst saved. unfold handleSaveSlideshow. rewrite Ha, Hname, Hsm, Hsa.
    destruct (activeSlideshowId w) as [id|]; [|reflexivity].
    rewrite Ha. reflexivity. }
  unfold createNew in Hsaved.
  destruct (Nat.leb_spec MAX_SAVED_SLIDESHOWS (length (savedSlideshows w)))
    as [Hc|_]; [lia|].
  subst r newId. rewrite Hsaved. cbv zeta. cbn [fst snd].
  split; [reflexivity|].
  unfold handleLoadSlideshow.
  cbn [withLoading withSaved savedSlideshows].
  rewrite (findSlideshow_snoc _ (savedSlideshows w)
             (savedEntry _ name sm sa now w) Hfresh eq_refl).
  cbn [savedEntry ss_media ss_audio ss_settings]. rewrite Hload, Hla.
  cbn [fst snd media audioFile interval slideStyle showClock
         smartCaptionsEnabled activeSlideshowId savedSlideshows
         handleNewSlideshow currentSettings st_interval st_slideStyle
         st_showClock st_smartCaptionsEnabled withLoading withSaved].
  repeat (split; [reflexivity|]).
  rewrite length_app. cbn. lia.
Qed.

Lemma X21_save_then_load_witness :
  let saved := handleSaveSlideshow sampleEncode (Some "Holiday") 1700
                 sampleWorkspace in
  let r := handleLoadSlideshow sampleDecode file_name "slideshow-1700"
             (fst saved) in
  snd saved = [savedAlert "Holiday"] /\
  snd r = [] /\
  media (fst r) = List.map (reloaded file_name) (media sampleWorkspace) /\
  audioFile (fst r) = audioFile sampleWorkspace /\
  interval (fst r) = interval sampleWorkspace /\
  slideStyle (fst r) = slideStyle sampleWorkspace /\
  showClock (fst r) = showClock sampleWorkspace /\
  smartCaptionsEnabled (fst r) = smartCaptionsEnabled sampleWorkspace /\
  activeSlideshowId (fst r) = Some "slideshow-1700"%string /\
  length (savedSlideshows (fst r))
    = S (length (savedSlideshows sampleWorkspace)).
Proof.
  apply (X21_save_then_load sampleEncode sampleDecode file_name
           "Holiday" 1700 sampleWorkspace).
  - reflexivity.
  - reflexivity.
  - vm_compute. lia.
  - reflexivity.
  - intros f [Hf|Hf]; [|discriminate].
    cbn in Hf.
    destruct Hf as [<-|[<-|[<-|[<-|[]]]]];
      (eexists; split; [reflexivity|reflexivity]).
Defined.

(** X22. Deleting a saved slideshow.  An id that is not saved, or a
    declined confirmation, changes nothing.  A confirmed deletion removes
    every entry with that id and keeps all the others in their order; the
    library gets shorter.  The editor is reset to a new, empty slideshow
    exactly when the deleted slideshow was the active one; otherwise the
    slideshow being edited and the active id stay as they are. *)
Theorem X22_delete :
  forall (id : string) (confirmed : bool) (w : Workspace),
    let w' := handleDeleteSlideshow id confirmed w in
    (findSlideshow id (savedSlideshows w) = None \/ confirmed = false ->
     w' = w) /\
    (findSlideshow id (savedSlideshows w) <> None -> confirmed = true ->
     findSlideshow id (savedSlideshows w') = None /\
     savedSlideshows w'
       = List.filter (fun s => negb (String.eqb (ss_id s) id))
           (savedSlideshows w) /\
     (forall s, ss_id s <> id ->
        (In s (savedSlideshows w') <-> In s (savedSlideshows w))) /\
     (length (savedSlideshows w') < length (savedSlideshows w))%nat /\
     (activeSlideshowId w = Some id -> blankEditor w') /\
     (activeSlideshowId w <> Some id ->
      sameEditor w w' /\ activeSlideshowId w' = activeSlideshowId w)).
Proof.
  intros id confirmed w w'. subst w'. unfold handleDeleteSlideshow. split.
  - intros [H| ->].
    + rewrite H. reflexivity.
    + destruct (findSlideshow id (savedSlideshows w)); reflexivity.
  - intros Hfound ->.
    destruct (findSlideshow id (savedSlideshows w)) as [s0|] eqn:Ef;
      [clear Hfound|congruence].
    apply findSlideshow_id in Ef. destruct Ef as [Hin Hid].
    set (kept := List.filter (fun s => negb (String.eqb (ss_id s) id))
                   (savedSlideshows w)).
    assert (Hsaved :
      savedSlideshows
        match activeSlideshowId w with
        | Some active =>
            if String.eqb active id
            then handleNewSlideshow (withSaved kept (activeSlideshowId w) w)
            else withSaved kept (activeSlideshowId w) w
        | None => withSaved kept (activeSlideshowId w) w
        end = kept).
    { destruct (activeSlideshowId w) as [a|]; [|reflexivity].
      destruct (String.eqb a id); reflexivity. }
    rewrite Hsaved.
    split.
    { apply findSlideshow_none. intros s Hs. subst kept.
      apply filter_In in Hs. destruct Hs as [_ Hs].
      apply negb_true_iff, String.eqb_neq in Hs. exact Hs. }
    split; [reflexivity|]. split.
    { intros s Hs. subst kept. rewrite filter_In. split.
      - intros [H _]. exact H.
      - intros H. split; [exact H|].
        apply negb_true_iff, String.eqb_neq. exact Hs. }
    split.
    { subst kept. clear Hsaved. revert Hin.
      induction (savedSlideshows w) as [|x l IH]; intros Hin; [destruct Hin|].
      cbn [List.filter].
      destruct (String.eqb_spec (ss_id x) id) as [E|E]; cbn [negb length].
      - pose proof (List.filter_length_le
                      (fun s => negb (String.eqb (ss_id s) id)) l).
        lia.
      - destruct Hin as [->|Hin]; [contradiction|].
        specialize (IH Hin). lia. }
    split.
    + intros Ha. rewrite Ha, String.eqb_refl. repeat split.
    + intros Ha. destruct (activeSlideshowId w) as [a|] eqn:Ea.
      * destruct (String.eqb_spec a id) as [E|E]; [congruence|].
        cbn. repeat split; congruence.
      * cbn. repeat split; congruence.
Qed.

(** X23. A deleted slideshow cannot be loaded any more: after a confirmed
    deletion of an id, loading that id changes nothing and shows nothing,
    whatever is saved under other ids and whichever slideshow was
    active. *)
Theorem X23_deleted_cannot_be_loaded :
  forall (dataUrlToFile : string -> string -> option File)
         (createObjectURL : File -> string) (id : string) (w : Workspace),
    let w' := handleDeleteSlideshow id true w in
    handleLoadSlideshow dataUrlToFile createObjectURL id w' = (w', []).
Proof.
  intros dec url id w w'. unfold handleLoadSlideshow.
  assert (Hnone : findSlideshow id (savedSlideshows w') = None).
  { subst w'. unfold handleDeleteSlideshow.
    destruct (findSlideshow id (savedSlideshows w)) as [s0|] eqn:Ef;
      [|exact Ef].
    apply findSlideshow_none. intros s Hs.
    assert (Hk : In s (List.filter
                         (fun s => negb (String.eqb (ss_id s) id))
                         (savedSlideshows w))).
    { destruct (activeSlideshowId w) as [a|]; [|exact Hs].
      destruct (String.eqb a id); exact Hs. }
    apply filter_In in Hk. destruct Hk as [_ Hk].
    apply negb_true_iff, String.eqb_neq in Hk. exact Hk. }
  rewrite Hnone. reflexivity.
Qed.

End LibraryFacts.
